(** * Http-Server-Demo: the two response caches

    A shallow embedding of the cache code of the repository:
    - [PriorityQueue.c] (the array-backed cache used by
      [server_cached_naive.c]),
    - the [Deque] of reference-counted nodes of [server_cached.c],
    - the request handlers of the two servers, as far as they touch the
      caches and their mutexes.
    - [sub_timespec], which all four servers share, and the transmission
      loop of the two servers without a cache ([server_thread.c],
      [server_proc.c]).

    C [int]/[long] values are modelled by [Z]; the counters of the program
    (sizes, indices, reference counts) stay far below the word size, so no
    wrap-around is written out.  A pointer to a heap-allocated struct is
    modelled by the place the struct lives in (an array slot for the
    priority queue, an address of a node store for the deque). *)

From Stdlib Require Import ZArith Lia.
From stdpp Require Import base option list gmap strings.

Local Open Scope Z_scope.

(** ** HttpResponse.h *)

Record timespec := mk_timespec { tv_sec : Z; tv_nsec : Z }.

Record HttpResponse := mk_response {
  filename : string;
  response : list Byte.byte;   (* file contents only *)
  filesize : Z;
  access_time : timespec
}.

Definition MAX : Z := 5.
Definition LONG_MAX : Z := 9223372036854775807.
Definition INT_MAX : Z := 2147483647.
Definition INT_MIN : Z := -2147483648.

(** [(unsigned long) x] for an [int] [x]: what the comparison
    [total_sent < http_response->filesize] does to its left side
    ([filesize] is an [unsigned long]). *)
Definition int_to_unsigned_long (x : Z) : Z :=
  if x <? 0 then x + 2 ^ 64 else x.

Definition set_access_time (r : HttpResponse) (t : timespec) : HttpResponse :=
  {| filename := filename r; response := response r;
     filesize := filesize r; access_time := t |}.

(** [strcmp(a, b) == 0] *)
Definition streq (a b : string) : bool := String.eqb a b.

(** ** PriorityQueue.c *)

(** Returns 1 if t1 > t2, -1 if t1 < t2, 0 if t1 == t2. *)
Definition compare_timespec (time1 time2 : timespec) : Z :=
  if tv_sec time1 >? tv_sec time2 then 1
  else if tv_sec time1 <? tv_sec time2 then -1
  else if tv_nsec time1 >? tv_nsec time2 then 1
       else if tv_nsec time1 <? tv_nsec time2 then -1 else 0.

(** The order [compare_timespec] decides. *)
Definition ts_lt (a b : timespec) : Prop :=
  tv_sec a < tv_sec b ∨ (tv_sec a = tv_sec b ∧ tv_nsec a < tv_nsec b).
Definition ts_le (a b : timespec) : Prop :=
  tv_sec a < tv_sec b ∨ (tv_sec a = tv_sec b ∧ tv_nsec a ≤ tv_nsec b).

(** A [struct timespec] whose fields fit in a C [long]. *)
Definition ts_in_range (t : timespec) : Prop :=
  tv_sec t ≤ LONG_MAX ∧ tv_nsec t ≤ LONG_MAX.

Module PriorityQueue.

(** [HttpResponse* items[MAX]; int size].  A slot holds [Some r] when the
    pointer in it points to a live struct with contents [r], and [None]
    when it was never assigned (or its struct is gone).  The pointer
    [pq->items[i]] itself is modelled by the slot index [i]: the code only
    ever exchanges the contents of the structs ([swap]) and never moves
    the pointers, apart from storing a new one in [enqueue]. *)
Record PriorityQueue := mk_pq {
  items : list (option HttpResponse);
  size : Z
}.

(** [main]: [pq = malloc(..); pq->size = 0]. *)
Definition init : PriorityQueue :=
  {| items := replicate (Z.to_nat MAX) None; size := 0 |}.

(** [*(pq->items[i])] *)
Definition item (pq : PriorityQueue) (i : Z) : option HttpResponse :=
  if i <? 0 then None else mjoin (items pq !! Z.to_nat i).

(** [pq->items[i] = v] / [*(pq->items[i]) = v] *)
Definition store (pq : PriorityQueue) (i : Z) (v : HttpResponse) : PriorityQueue :=
  {| items := if i <? 0 then items pq else <[Z.to_nat i := Some v]> (items pq);
     size := size pq |}.

(** [swap(pq->items[a], pq->items[b])]: the two structs exchange their
    contents; both pointers have to be valid. *)
Definition swap (pq : PriorityQueue) (a b : Z) : PriorityQueue :=
  match item pq a, item pq b with
  | Some ra, Some rb => store (store pq a rb) b ra
  | _, _ => pq
  end.

(** [heapifyUp].  The recursion is on [(index - 1) / 2], which is smaller
    than a positive [index]; [fuel] bounds the depth and [heapifyUp] hands
    out enough of it (see [heapifyUp_unfold] below).  The function is
    meant for the calls the code makes: a queue of the shape [wf] and an
    [index] below [size], where both pointers it reads are valid.  A slot
    without a valid pointer ends the recursion here; what the code does
    there is a read through that pointer, which [heapifyUp_strict] below
    keeps apart. *)
Fixpoint heapifyUp_rec (fuel : nat) (pq : PriorityQueue) (index : Z) : PriorityQueue :=
  match fuel with
  | O => pq
  | S fuel' =>
    if index =? 0 then pq
    else
      let parent := Z.quot (index - 1) 2 in
      match item pq parent, item pq index with
      | Some p, Some c =>
        if compare_timespec (access_time p) (access_time c) =? -1
        then heapifyUp_rec fuel' (swap pq parent index) parent
        else pq
      | _, _ => pq
      end
  end.

Definition heapifyUp (pq : PriorityQueue) (index : Z) : PriorityQueue :=
  heapifyUp_rec (Z.to_nat index) pq index.

(** [heapifyUp] with its pointer reads checked: [None] when
    [pq->items[(index - 1) / 2]] or [pq->items[index]] is read and is not
    a valid pointer (the slot was never assigned or lies outside the
    array). *)
Fixpoint heapifyUp_strict_rec (fuel : nat) (pq : PriorityQueue) (index : Z)
  : option PriorityQueue :=
  if index =? 0 then Some pq
  else
    match fuel with
    | O => None
    | S fuel' =>
      let parent := Z.quot (index - 1) 2 in
      p ← item pq parent;
      c ← item pq index;
      if compare_timespec (access_time p) (access_time c) =? -1
      then heapifyUp_strict_rec fuel' (swap pq parent index) parent
      else Some pq
    end.

Definition heapifyUp_strict (pq : PriorityQueue) (index : Z) : option PriorityQueue :=
  heapifyUp_strict_rec (Z.to_nat index) pq index.

(** [search]: the loop [for (i = 0; i < pq->size; i++)], with [n] the
    number of iterations left.  [now] is what [clock_gettime] stores.  The
    result is the returned pointer, as a slot index, and the queue after the call. *)
Fixpoint search_loop (n : nat) (pq : PriorityQueue) (target : string)
    (now : timespec) (i : Z) : option Z * PriorityQueue :=
  match n with
  | O => (None, pq)
  | S n' =>
    match item pq i with
    | Some r =>
      if streq (filename r) target
      then (Some i, heapifyUp (store pq i (set_access_time r now)) i)
      else search_loop n' pq target now (i + 1)
    | None => (None, pq)
    end
  end.

Definition search (pq : PriorityQueue) (target : string) (now : timespec)
  : option Z * PriorityQueue :=
  search_loop (Z.to_nat (size pq)) pq target now 0.

(** What a caller reads through the pointer [search] returned. *)
Definition deref (pq : PriorityQueue) (ret : option Z) : option HttpResponse :=
  ret ≫= item pq.

(** The eviction scan of [enqueue]: [for (i = 0; i < amt; i++)] over the
    slots [size - i - 1], keeping the smallest [access_time] seen. *)
Fixpoint evict_scan (n : nat) (pq : PriorityQueue) (i : Z)
    (min : timespec) (min_index : Z) : timespec * Z :=
  match n with
  | O => (min, min_index)
  | S n' =>
    let k := size pq - i - 1 in
    match item pq k with
    | Some r =>
      if compare_timespec (access_time r) min =? -1
      then evict_scan n' pq (i + 1) (access_time r) k
      else evict_scan n' pq (i + 1) min min_index
    | None => (min, min_index)
    end
  end.

Definition evict_index (pq : PriorityQueue) : Z :=
  let amt := Z.quot (size pq) 2 + 1 in
  snd (evict_scan (Z.to_nat amt) pq 0
         {| tv_sec := LONG_MAX; tv_nsec := LONG_MAX |} (MAX - 1)).

(** [pq->items[pq->size++] = value] *)
Definition append (pq : PriorityQueue) (value : HttpResponse) : PriorityQueue :=
  {| items := items (store pq (size pq) value); size := size pq + 1 |}.

(** [enqueue]: a full queue frees the struct of the chosen slot and
    stores the new pointer there; otherwise the pointer goes in slot
    [size]. *)
Definition enqueue (pq : PriorityQueue) (value : HttpResponse) : PriorityQueue :=
  if size pq =? MAX then
    let min_index := evict_index pq in
    heapifyUp (store pq min_index value) min_index
  else
    let pq' := append pq value in
    heapifyUp pq' (size pq' - 1).

(** The structs the queue points to, in slot order. *)
Definition entries (pq : PriorityQueue) : list HttpResponse :=
  omap id (items pq).

(** The shape [main] sets up and every operation keeps: [MAX] slots, the
    first [size] of them pointing to structs. *)
Definition wf (pq : PriorityQueue) : Prop :=
  length (items pq) = Z.to_nat MAX ∧ 0 ≤ size pq ≤ MAX ∧
  (∀ i, 0 ≤ i < size pq → is_Some (item pq i)) ∧
  (∀ i, size pq ≤ i → item pq i = None).

(** The ordering [heapifyUp] restores: no slot is newer than its parent. *)
Definition heap_ordered (pq : PriorityQueue) : Prop :=
  ∀ i p c, 0 < i < size pq →
    item pq (Z.quot (i - 1) 2) = Some p → item pq i = Some c →
    ts_le (access_time c) (access_time p).

(** The ordering the documentation names (a min-heap on [access_time]). *)
Definition min_heap_ordered (pq : PriorityQueue) : Prop :=
  ∀ i p c, 0 < i < size pq →
    item pq (Z.quot (i - 1) 2) = Some p → item pq i = Some c →
    ts_le (access_time p) (access_time c).

(** The ordering with slot [k] left out: what holds between the write of
    slot [k] and the end of [heapifyUp pq k]. *)
Definition heap_except (pq : PriorityQueue) (k : Z) : Prop :=
  (∀ i p c, 0 < i < size pq → i ≠ k →
     item pq (Z.quot (i - 1) 2) = Some p → item pq i = Some c →
     ts_le (access_time c) (access_time p)) ∧
  (∀ i g c, 0 < i < size pq → 0 < k → Z.quot (i - 1) 2 = k →
     item pq (Z.quot (k - 1) 2) = Some g → item pq i = Some c →
     ts_le (access_time c) (access_time g)).

(** A queue in order that holds [n] structs, those of [l]. *)
Definition filled (pq : PriorityQueue) (n : Z) (l : list HttpResponse) : Prop :=
  wf pq ∧ heap_ordered pq ∧ size pq = n ∧ entries pq ≡ₚ l.

End PriorityQueue.

(** ** server_cached.c: the deque of reference-counted nodes *)

Module Deque.

Definition MAX_CACHE_COUNT : Z := 5.

(** [struct Node].  [data] is the struct the node owns; [prev] and [next]
    are addresses of the node store, [None] for [NULL]. *)
Record Node := mk_node {
  data : HttpResponse;
  prev : option nat;
  next : option nat;
  valid : Z;
  reference_count : Z
}.

Record Deque := mk_deque {
  head : option nat;
  tail : option nat;
  size : Z
}.

(** The allocated nodes and the global [deck].  [free(node)] removes the
    address from [nodes]. *)
Record state := mk_state {
  nodes : gmap nat Node;
  deck : Deque
}.

(** [main]: [deck->size = 0; deck->tail = NULL; deck->head = NULL]. *)
Definition init : state :=
  {| nodes := ∅; deck := {| head := None; tail := None; size := 0 |} |}.

Definition set_prev (v : option nat) (n : Node) : Node :=
  {| data := data n; prev := v; next := next n;
     valid := valid n; reference_count := reference_count n |}.
Definition set_next (v : option nat) (n : Node) : Node :=
  {| data := data n; prev := prev n; next := v;
     valid := valid n; reference_count := reference_count n |}.
Definition set_valid (v : Z) (n : Node) : Node :=
  {| data := data n; prev := prev n; next := next n;
     valid := v; reference_count := reference_count n |}.
Definition set_reference_count (v : Z) (n : Node) : Node :=
  {| data := data n; prev := prev n; next := next n;
     valid := valid n; reference_count := v |}.

(** [p->field = ...]: a write through a pointer.  [None] stands for the
    undefined behaviour of a write through [NULL] or a freed pointer. *)
Definition update (p : option nat) (f : Node → Node) (m : gmap nat Node)
  : option (gmap nat Node) :=
  a ← p; n ← m !! a; Some (<[a := f n]> m).

(** The loop of [search]: [for (curr = deck->head; curr != NULL; curr =
    curr->next)].  [fuel] bounds the number of nodes visited; the result
    is [None] when it runs out or a dangling pointer is followed. *)
Fixpoint search_loop (fuel : nat) (m : gmap nat Node) (curr : option nat)
    (fname : string) : option (option nat * gmap nat Node) :=
  match curr with
  | None => Some (None, m)
  | Some p =>
    match fuel with
    | O => None
    | S fuel' =>
      n ← m !! p;
      if streq (filename (data n)) fname
      then Some (Some p, <[p := set_reference_count (reference_count n + 1) n]> m)
      else search_loop fuel' m (next n) fname
    end
  end.

(** [search]: the node stored in [*existing_node] (the returned
    [HttpResponse*] is its [data]) and the state after the call. *)
Definition search (fuel : nat) (st : state) (fname : string)
  : option (option nat * state) :=
  if size (deck st) =? 0 then Some (None, st)
  else
    '(r, m) ← search_loop fuel (nodes st) (head (deck st)) fname;
    Some (r, {| nodes := m; deck := deck st |}).

(** [put_down] *)
Definition put_down (st : state) (node : nat) : option state :=
  n ← nodes st !! node;
  let n' := set_reference_count (reference_count n - 1) n in
  if (reference_count n' =? 0) && (valid n' =? 0)
  then Some {| nodes := delete node (nodes st); deck := deck st |}
  else Some {| nodes := <[node := n']> (nodes st); deck := deck st |}.

(** [remove_tail] *)
Definition remove_tail (st : state) : option state :=
  old ← tail (deck st);
  o ← nodes st !! old;
  let d := {| head := head (deck st); tail := prev o; size := size (deck st) |} in
  m1 ← update (tail d) (set_next None) (nodes st);
  m2 ← update (Some old) (set_valid 0) m1;
  Some {| nodes := m2; deck := d |}.

(** [enqueue].  [newNode] is what [malloc] returned: [None] for [NULL],
    otherwise an address that was not allocated before. *)
Definition enqueue (st : state) (new : HttpResponse) (newNode : option nat)
  : option state :=
  match newNode with
  | None => Some st
  | Some p =>
    let fresh := {| data := new; prev := None; next := None;
                    valid := 1; reference_count := 0 |} in
    let st0 := {| nodes := <[p := fresh]> (nodes st); deck := deck st |} in
    if size (deck st0) =? MAX_CACHE_COUNT then
      st1 ← remove_tail st0;
      m1 ← update (Some p) (set_next (head (deck st1))) (nodes st1);
      m2 ← update (head (deck st1)) (set_prev (Some p)) m1;
      m3 ← update (Some p) (set_prev None) m2;
      Some {| nodes := m3;
              deck := {| head := Some p; tail := tail (deck st1); size := size (deck st1) |} |}
    else if size (deck st0) =? 0 then
      m1 ← update (Some p) (set_next None) (nodes st0);
      m2 ← update (Some p) (set_prev None) m1;
      Some {| nodes := m2;
              deck := {| head := Some p; tail := Some p; size := size (deck st0) + 1 |} |}
    else
      m1 ← update (Some p) (set_next (head (deck st0))) (nodes st0);
      m2 ← update (head (deck st0)) (set_prev (Some p)) m1;
      m3 ← update (Some p) (set_prev None) m2;
      Some {| nodes := m3;
              deck := {| head := Some p; tail := tail (deck st0); size := size (deck st0) + 1 |} |}
  end.

(** The nodes reached from [head] along [next], as far as [fuel] goes. *)
Fixpoint walk (fuel : nat) (m : gmap nat Node) (curr : option nat) : list nat :=
  match fuel, curr with
  | S fuel', Some p =>
    p :: match m !! p with Some n => walk fuel' m (next n) | None => [] end
  | _, _ => []
  end.

(** [l] is the list of the deque, head first: its nodes are allocated,
    valid, and linked to their neighbours in both directions. *)
Definition linked (m : gmap nat Node) (l : list nat) : Prop :=
  NoDup l ∧
  ∀ i p, l !! i = Some p →
    ∃ n, m !! p = Some n ∧ valid n = 1 ∧
         prev n = match i with O => None | S j => l !! j end ∧
         next n = l !! S i.

Definition represents (st : state) (l : list nat) : Prop :=
  linked (nodes st) l ∧
  head (deck st) = l !! O ∧ tail (deck st) = last l ∧
  size (deck st) = Z.of_nat (length l) ∧ size (deck st) ≤ MAX_CACHE_COUNT ∧
  (∀ p n, nodes st !! p = Some n → valid n = 1 → p ∈ l).

(** The first node of [l] whose struct carries the name. *)
Fixpoint find_node (m : gmap nat Node) (l : list nat) (fname : string) : option nat :=
  match l with
  | [] => None
  | p :: l' =>
    match m !! p with
    | Some n => if streq (filename (data n)) fname then Some p else find_node m l' fname
    | None => None
    end
  end.

(** [reference_count++] *)
Definition pin (n : Node) : Node :=
  set_reference_count (reference_count n + 1) n.

(** The deque as a list of (node, struct) pairs, head first. *)
Definition view (st : state) (v : list (nat * HttpResponse)) : Prop :=
  represents st (v.*1) ∧
  Forall (λ x, data <$> nodes st !! x.1 = Some x.2) v.

Definition name_is (fname : string) (x : nat * HttpResponse) : bool :=
  streq (filename x.2) fname.

(** What a successful [enqueue] does to a deque that [l] represents. *)
Definition enqueued (st : state) (l : list nat) (new : HttpResponse) (p : nat)
    (st' : state) : Prop :=
  let full := bool_decide (size (deck st) = MAX_CACHE_COUNT) in
  represents st' (p :: if full then take (length l - 1) l else l) ∧
  nodes st' !! p = Some {| data := new; prev := None; next := l !! O;
                           valid := 1; reference_count := 0 |} ∧
  (∀ q n, q ≠ p → nodes st !! q = Some n →
     ∃ n', nodes st' !! q = Some n' ∧ data n' = data n ∧
           reference_count n' = reference_count n ∧
           valid n' = if full && bool_decide (last l = Some q) then 0 else valid n) ∧
  (∀ q, q ≠ p → nodes st !! q = None → nodes st' !! q = None).

(** A run of [enqueue] calls, each with the result of its [malloc]. *)
Fixpoint enqueue_all (st : state) (reqs : list (HttpResponse * option nat))
  : option state :=
  match reqs with
  | [] => Some st
  | (new, a) :: reqs' => st' ← enqueue st new a; enqueue_all st' reqs'
  end.

(** [malloc] hands out addresses that are not allocated. *)
Definition allocs_fresh (st : state) (reqs : list (HttpResponse * option nat)) : Prop :=
  NoDup (omap snd reqs) ∧ ∀ p, p ∈ omap snd reqs → nodes st !! p = None.

(** The calls of a run whose [malloc] succeeded, as (node, struct) pairs. *)
Definition succeeded (reqs : list (HttpResponse * option nat))
  : list (nat * HttpResponse) :=
  omap (λ x, (λ p, (p, x.1)) <$> x.2) reqs.

End Deque.

(** ** The request handlers *)

(** The two mutexes of each server: the one of the log file ([mutex]) and
    the one of the cache ([pq_mutex], [deck_mutex]). *)
Inductive mutex_id := LogMutex | CacheMutex.

(** What a handler hands to [send]. *)
Inductive message :=
| StatusOK                         (* "HTTP/1.1 200 OK\n" *)
| StatusNotFound                   (* "HTTP/1.1 404 Not Found\n\n" *)
| HeaderDate
| HeaderContentLength (n : Z)
| HeaderConnectionClose
| HeaderContentType
| Body (bytes : list Byte.byte).

(** The calls of a handler that other threads or the client can observe,
    in program order. *)
Inductive event :=
| EvLock (m : mutex_id)
| EvUnlock (m : mutex_id)
| EvSearch (target : string)
| EvEnqueue
| EvPutDown
| EvSend (msg : message)
| EvLog (name : string) (sent : Z)
| EvShutdown
| EvClose
| EvExit.

Definition is_send (e : event) : bool :=
  match e with EvSend _ => true | _ => false end.

Definition is_body (e : event) : bool :=
  match e with EvSend (Body _) => true | _ => false end.

(** The file bytes a trace delivered to the client. *)
Definition body_bytes (tr : list event) : list Byte.byte :=
  concat (omap (λ e, match e with EvSend (Body b) => Some b | _ => None end) tr).

(** [sizeof(response)], the chunk [fread] is asked for. *)
Definition CHUNK : nat := 1024.

(** The five header lines both servers send before a body. *)
Definition headers (content_length : Z) : list event :=
  [EvSend StatusOK; EvSend HeaderDate; EvSend (HeaderContentLength content_length);
   EvSend HeaderConnectionClose; EvSend HeaderContentType].

(** What the environment of one request supplies: the parsed request line
    ([None] when [sscanf] fails), the clocks, the file ([None] when [fopen]
    fails), the outcome of each [malloc], the contents of the memory
    [malloc] returned for the response buffer, and the transport:
    [accept k len] is what the [k]-th [send] of body bytes returns when
    it is offered [len] bytes (-1 for an error). *)
Record request_env := mk_env {
  req : option string;
  now : timespec;
  file : option (list Byte.byte);
  alloc_new : bool;
  alloc_filename : bool;
  alloc_response : bool;
  alloc_node : option nat;
  t_new : timespec;
  junk : list Byte.byte;
  accept : nat → Z → Z
}.

(** A transport that takes at least one and at most all of the bytes it
    is offered. *)
Definition transport_ok (e : request_env) : Prop :=
  ∀ k len, 0 < len → 0 < accept e k len ≤ len.


(** The struct the miss path builds. *)
Definition new_response (e : request_env) (name : string) (bytes : list Byte.byte)
  : HttpResponse :=
  {| filename := name; response := bytes;
     filesize := Z.of_nat (length bytes); access_time := t_new e |}.

Module ServerCachedNaive.
Import PriorityQueue.

(** The loop [while (sent < total_read) sent += send(connfd,
    new->response + total_read, bytes_read, 0)] of the miss path.  The
    pointer is the one behind the bytes read so far and it does not move:
    every call offers the same [bytes_read] bytes of what [malloc] left
    there ([mem] is the memory from [new->response] on).  [k] numbers the
    calls of [send]; each call is recorded with the bytes that got
    through.  [None]: the loop has not ended after [fuel] calls. *)
Fixpoint send_chunk (fuel : nat) (accept : nat → Z → Z) (k : nat)
    (mem : list Byte.byte) (total_read bytes_read sent : Z)
  : option (list event * nat * Z) :=
  if sent <? total_read then
    match fuel with
    | O => None
    | S fuel' =>
      let n := accept k bytes_read in
      '(evs, k', sent') ←
        send_chunk fuel' accept (S k) mem total_read bytes_read (sent + n);
      Some (EvSend (Body (take (Z.to_nat n) (drop (Z.to_nat total_read) mem))) :: evs,
            k', sent')
    end
  else Some ([], k, sent).

(** The read loop of the miss path: [while ((bytes_read = fread(
    new->response + total_read, 1, sizeof(response), f)) > 0)], with
    [total_read += bytes_read] and the loop above in its body.  [rest] is
    what is left of the file.  The inner loop is followed for as many
    calls as it needs when every call gets at least one byte through.
    The result is the trace and the final [sent]. *)
Fixpoint read_send_loop (fuel : nat) (accept : nat → Z → Z) (k : nat)
    (rest : list Byte.byte) (total_read sent : Z) (mem : list Byte.byte)
  : option (list event * Z) :=
  match fuel with
  | O => None
  | S fuel' =>
    let chunk := take CHUNK rest in
    match chunk with
    | [] => Some ([], sent)
    | _ =>
      let bytes_read := Z.of_nat (length chunk) in
      let total_read' := total_read + bytes_read in
      '(evs, k', sent') ←
        send_chunk (Z.to_nat (total_read' - sent)) accept k mem total_read' bytes_read sent;
      '(evs', sent'') ←
        read_send_loop fuel' accept k' (drop CHUNK rest) total_read' sent' mem;
      Some (evs ++ evs', sent'')
    end
  end.

(** The transmission loop of [send_existing_http_response]:
    [while (total_sent < filesize)], left early when [send] returns 0 or
    less.  Each call is recorded with the bytes it got through.  A call
    that does not end the loop adds at least one byte to [total_sent], so
    [filesize] rounds of [fuel] are enough (see [send_body_fuel]). *)
Fixpoint send_body (fuel : nat) (accept : nat → Z → Z) (k : nat)
    (payload : list Byte.byte) (filesize total_sent : Z) : list event * Z :=
  match fuel with
  | O => ([], total_sent)
  | S fuel' =>
    if total_sent <? filesize then
      let bytes_sent := accept k (filesize - total_sent) in
      let ev := EvSend (Body (take (Z.to_nat bytes_sent)
                                (drop (Z.to_nat total_sent) payload))) in
      if bytes_sent <=? 0 then ([ev], total_sent)
      else
        let '(evs, t) := send_body fuel' accept (S k) payload filesize
                           (total_sent + bytes_sent) in
        (ev :: evs, t)
    else ([], total_sent)
  end.

(** [send_existing_http_response] *)
Definition send_existing_http_response (accept : nat → Z → Z) (r : HttpResponse)
  : list event :=
  let '(body, total_sent) :=
    send_body (Z.to_nat (filesize r)) accept 0 (response r) (filesize r) 0 in
  headers (filesize r) ++ body ++
  [EvLock LogMutex; EvLog (filename r) total_sent; EvUnlock LogMutex].

(** [handle_client_connection] of [server_cached_naive.c]: the trace of
    the thread and the queue it leaves.  [None]: a dangling pointer was
    read, or a transmission loop did not end. *)
Definition handle_client_connection (pq : PriorityQueue) (e : request_env)
  : option (list event * PriorityQueue) :=
  match req e with
  | None => Some ([EvClose; EvExit], pq)
  | Some name =>
    let '(ret, pq1) := search pq name (now e) in
    match ret with
    | Some i =>
      r ← item pq1 i;
      Some ([EvLock CacheMutex; EvSearch name] ++
            send_existing_http_response (accept e) r ++
            [EvUnlock CacheMutex; EvClose; EvExit], pq1)
    | None =>
      let pre := [EvLock CacheMutex; EvSearch name; EvUnlock CacheMutex] in
      match file e with
      | None => Some (pre ++ [EvSend StatusNotFound; EvShutdown; EvClose; EvExit], pq1)
      | Some bytes =>
        if negb (alloc_new e) then Some (pre ++ [EvShutdown; EvClose; EvExit], pq1)
        else if negb (alloc_filename e) then Some (pre ++ [EvShutdown; EvClose; EvExit], pq1)
        else
          let hs := headers (Z.of_nat (length bytes)) in
          if negb (alloc_response e) then Some (pre ++ hs ++ [EvClose; EvExit], pq1)
          else
            let new := new_response e name bytes in
            '(body, sent) ←
              read_send_loop (S (length bytes)) (accept e) 0 bytes 0 0 (junk e);
            Some (pre ++ hs ++ body ++
                  [EvLock CacheMutex; EvEnqueue; EvUnlock CacheMutex;
                   EvLock LogMutex; EvLog name sent; EvUnlock LogMutex;
                   EvShutdown; EvClose; EvExit],
                  enqueue pq1 new)
      end
    end
  end.

End ServerCachedNaive.

Module ServerCached.
Import Deque.

(** The loop [while (sent < total_read) sent += send(connfd,
    new->response + sent, total_read - sent, 0)] of the miss path.
    [buffer] holds the [total_read] bytes read so far.  [k] numbers the
    calls of [send]; each call is recorded with the bytes that got
    through.  [None]: the loop has not ended after [fuel] calls, or a
    failed [send] has taken [sent] below 0 and the next call would start
    in front of the buffer. *)
Fixpoint send_chunk (fuel : nat) (accept : nat → Z → Z) (k : nat)
    (buffer : list Byte.byte) (total_read sent : Z)
  : option (list event * nat * Z) :=
  if sent <? total_read then
    match fuel with
    | O => None
    | S fuel' =>
      if sent <? 0 then None
      else
        let n := accept k (total_read - sent) in
        '(evs, k', sent') ← send_chunk fuel' accept (S k) buffer total_read (sent + n);
        Some (EvSend (Body (take (Z.to_nat n) (drop (Z.to_nat sent) buffer))) :: evs,
              k', sent')
    end
  else Some ([], k, sent).

(** The read loop of the miss path: [while ((bytes_read = fread(
    new->response + total_read, 1, sizeof(response), f)) > 0)], with
    [total_read += bytes_read] and the loop above in its body.  [bytes]
    is the file.  The inner loop is followed for as many calls as it
    needs when every call gets at least one byte through.  The result is
    the trace and the final [sent]. *)
Fixpoint read_send_loop (fuel : nat) (accept : nat → Z → Z) (k : nat)
    (bytes : list Byte.byte) (total_read sent : Z) : option (list event * Z) :=
  match fuel with
  | O => None
  | S fuel' =>
    let chunk := take CHUNK (drop (Z.to_nat total_read) bytes) in
    match chunk with
    | [] => Some ([], sent)
    | _ =>
      let total_read' := total_read + Z.of_nat (length chunk) in
      '(evs, k', sent') ←
        send_chunk (Z.to_nat (total_read' - sent)) accept k
          (take (Z.to_nat total_read') bytes) total_read' sent;
      '(evs', sent'') ← read_send_loop fuel' accept k' bytes total_read' sent';
      Some (evs ++ evs', sent'')
    end
  end.

(** The transmission loop of [send_existing_http_response]:
    [while (total_sent < http_response->filesize) total_sent += send(
    connfd, http_response->response + total_sent, http_response->filesize
    - total_sent, 0)].  [total_sent] is an [int] and [filesize] an
    [unsigned long], so the test is made on [(unsigned long) total_sent]:
    a [send] that fails at [total_sent = 0] leaves -1, which ends the
    loop.  There is no other exit on an error.  [k] numbers the calls of
    [send]; each call is recorded with the bytes that got through.
    [None]: the loop has not ended after [fuel] calls. *)
Fixpoint send_body (fuel : nat) (accept : nat → Z → Z) (k : nat)
    (payload : list Byte.byte) (filesize total_sent : Z) : option (list event) :=
  if int_to_unsigned_long total_sent <? filesize then
    match fuel with
    | O => None
    | S fuel' =>
      let n := accept k (filesize - total_sent) in
      evs ← send_body fuel' accept (S k) payload filesize (total_sent + n);
      Some (EvSend (Body (take (Z.to_nat n) (drop (Z.to_nat total_sent) payload))) :: evs)
    end
  else Some [].

(** [send_existing_http_response].  The log line carries [filesize], not
    [total_sent].  The loop is followed for [2 * filesize] calls: enough
    when every call gets at least one byte through, and also when the
    calls fail from some point on. *)
Definition send_existing_http_response (accept : nat → Z → Z) (r : HttpResponse)
  : option (list event) :=
  body ← send_body (Z.to_nat (2 * filesize r)) accept 0 (response r) (filesize r) 0;
  Some (headers (filesize r) ++ body ++
        [EvLock LogMutex; EvLog (filename r) (filesize r); EvUnlock LogMutex]).

(** [handle_client_connection] of [server_cached.c].  [fuel] bounds the
    walk of [search].  [None]: a dangling pointer was followed, or a
    transmission loop did not end. *)
Definition handle_client_connection (fuel : nat) (st : state) (e : request_env)
  : option (list event * state) :=
  match req e with
  | None => Some ([EvClose; EvExit], st)
  | Some name =>
    '(ret, st1) ← search fuel st name;
    let pre := [EvLock CacheMutex; EvSearch name; EvUnlock CacheMutex] in
    match ret with
    | Some node =>
      n ← nodes st1 !! node;
      sent ← send_existing_http_response (accept e) (data n);
      st2 ← put_down st1 node;
      Some (pre ++ sent ++
            [EvLock CacheMutex; EvPutDown; EvUnlock CacheMutex; EvClose; EvExit], st2)
    | None =>
      match file e with
      | None => Some (pre ++ [EvSend StatusNotFound; EvShutdown; EvClose; EvExit], st1)
      | Some bytes =>
        if negb (alloc_new e) then Some (pre ++ [EvShutdown; EvClose; EvExit], st1)
        else if negb (alloc_filename e) then Some (pre ++ [EvShutdown; EvClose; EvExit], st1)
        else
          let hs := headers (Z.of_nat (length bytes)) in
          if negb (alloc_response e) then Some (pre ++ hs ++ [EvClose; EvExit], st1)
          else
            let new := new_response e name bytes in
            '(body, sent) ← read_send_loop (S (length bytes)) (accept e) 0 bytes 0 0;
            st2 ← enqueue st1 new (alloc_node e);
            Some (pre ++ hs ++ body ++
                  [EvLock CacheMutex; EvEnqueue; EvUnlock CacheMutex;
                   EvLock LogMutex; EvLog name sent; EvUnlock LogMutex;
                   EvShutdown; EvClose; EvExit],
                  st2)
      end
    end
  end.

End ServerCached.

(** ** Threads under the cache mutex *)

(** A schedule: the events of all threads in the order they happen, each
    with the thread it belongs to. *)
Abbreviation schedule := (list (nat * event)).

(** The events of thread [t], in program order. *)
Definition thread_trace (t : nat) (s : schedule) : list event :=
  (filter (λ x, x.1 = t) s).*2.

(** Who holds the cache mutex after the events of [s]. *)
Definition holder_step (h : option nat) (x : nat * event) : option nat :=
  match x.2 with
  | EvLock CacheMutex => Some x.1
  | EvUnlock CacheMutex => None
  | _ => h
  end.

Definition holder_after (s : schedule) : option nat := foldl holder_step None s.

(** [pthread_mutex_lock] returns only when the mutex is free, and a thread
    unlocks only what it holds. *)
Fixpoint mutex_ok_from (h : option nat) (s : schedule) : Prop :=
  match s with
  | [] => True
  | x :: s' =>
    match x.2 with
    | EvLock CacheMutex => h = None
    | EvUnlock CacheMutex => h = Some x.1
    | _ => True
    end ∧ mutex_ok_from (holder_step h x) s'
  end.

Definition mutex_ok (s : schedule) : Prop := mutex_ok_from None s.

(** Whether a thread with the events [tr] behind it holds the cache mutex. *)
Definition cs_step (b : bool) (e : event) : bool :=
  match e with
  | EvLock CacheMutex => true
  | EvUnlock CacheMutex => false
  | _ => b
  end.

Definition in_critical_section (tr : list event) : bool := foldl cs_step false tr.

(** The trace of a cache hit of the naive server: everything sent lies
    between the one lock and the one unlock of the cache mutex. *)
Definition hit_shape (tr : list event) : Prop :=
  ∃ name mid,
    tr = [EvLock CacheMutex; EvSearch name] ++ mid ++ [EvUnlock CacheMutex; EvClose; EvExit] ∧
    Forall (λ e, e ≠ EvLock CacheMutex ∧ e ≠ EvUnlock CacheMutex) mid.

(** The trace of a miss of the naive server: the mutex is given back right
    after the lookup and taken again only around [enqueue], if at all. *)
Definition miss_shape (tr : list event) : Prop :=
  ∃ name rest,
    tr = [EvLock CacheMutex; EvSearch name; EvUnlock CacheMutex] ++ rest ∧
    (Forall (λ e, e ≠ EvLock CacheMutex ∧ e ≠ EvUnlock CacheMutex ∧ e ≠ EvEnqueue) rest ∨
     ∃ before after,
       rest = before ++ [EvLock CacheMutex; EvEnqueue; EvUnlock CacheMutex] ++ after ∧
       Forall (λ e, e ≠ EvLock CacheMutex ∧ e ≠ EvUnlock CacheMutex ∧ e ≠ EvEnqueue)
         (before ++ after)).

(** Two threads' transmissions overlap when one sends between two sends
    of the other. *)
Definition sends_overlap (s : schedule) (a b : nat) : Prop :=
  ∃ i j k ei ej ek,
    (i < j < k)%nat ∧
    s !! i = Some (a, ei) ∧ s !! j = Some (b, ej) ∧ s !! k = Some (a, ek) ∧
    is_send ei = true ∧ is_send ej = true ∧ is_send ek = true.

(** ** [sub_timespec] (the same function in all four servers) *)

Definition NS_PER_SECOND : Z := 1000000000.

(** The value [sub_timespec(t1, t2, &td)] leaves in [td]. *)
Definition sub_timespec (t1 t2 : timespec) : timespec :=
  let nsec := tv_nsec t2 - tv_nsec t1 in
  let sec := tv_sec t2 - tv_sec t1 in
  if (sec >? 0) && (nsec <? 0)
  then {| tv_sec := sec - 1; tv_nsec := nsec + NS_PER_SECOND |}
  else if (sec <? 0) && (nsec >? 0)
  then {| tv_sec := sec + 1; tv_nsec := nsec - NS_PER_SECOND |}
  else {| tv_sec := sec; tv_nsec := nsec |}.

(** The nanoseconds a [struct timespec] stands for. *)
Definition ts_nanos (t : timespec) : Z := tv_sec t * NS_PER_SECOND + tv_nsec t.

(** What [clock_gettime] stores: seconds that fit a [long] and a
    nanosecond part below one second. *)
Definition clock_reading (t : timespec) : Prop :=
  0 ≤ tv_sec t ≤ LONG_MAX ∧ 0 ≤ tv_nsec t < NS_PER_SECOND.

(** ** Runs of priority-queue calls *)

Module PQRun.
Import PriorityQueue.

(** The two calls the handler of [server_cached_naive.c] makes. *)
Inductive op :=
| OpEnqueue (value : HttpResponse)
| OpSearch (target : string) (now : timespec).

Definition step (pq : PriorityQueue) (o : op) : PriorityQueue :=
  match o with
  | OpEnqueue value => enqueue pq value
  | OpSearch target now => snd (search pq target now)
  end.

Definition run (pq : PriorityQueue) (ops : list op) : PriorityQueue :=
  foldl step pq ops.

(** The structs handed to [enqueue] during a run. *)
Definition inserted (ops : list op) : list HttpResponse :=
  omap (λ o, match o with OpEnqueue value => Some value | OpSearch _ _ => None end) ops.

(** Two structs with the same name and payload. *)
Definition same_page (a b : HttpResponse) : Prop :=
  filename a = filename b ∧ response a = response b ∧ filesize a = filesize b.

End PQRun.

(** ** Runs of deque calls *)

Module DequeRun.
Import Deque.

(** The nodes reached from [tail] along [prev], as far as [fuel] goes. *)
Fixpoint walk_back (fuel : nat) (m : gmap nat Node) (curr : option nat) : list nat :=
  match fuel, curr with
  | S fuel', Some p =>
    p :: match m !! p with Some n => walk_back fuel' m (prev n) | None => [] end
  | _, _ => []
  end.

(** The states of the deque the server can get to: [main]'s empty deque,
    followed by calls of [search], [enqueue] (whose [malloc] returns
    [NULL] or an address not in use) and [put_down] that did not run into
    undefined behaviour. *)
Inductive reachable : state → Prop :=
| reach_init : reachable init
| reach_search st fuel fname ret st' :
    reachable st → search fuel st fname = Some (ret, st') → reachable st'
| reach_enqueue st new newNode st' :
    reachable st → (∀ p, newNode = Some p → nodes st !! p = None) →
    enqueue st new newNode = Some st' → reachable st'
| reach_put_down st node st' :
    reachable st → put_down st node = Some st' → reachable st'.

End DequeRun.

(** ** The locking rules of the handlers *)

(** The calls that read or write the cache. *)
Definition is_cache_op (e : event) : bool :=
  match e with
  | EvSearch _ | EvEnqueue | EvPutDown => true
  | _ => false
  end.

(** Follows a trace of one thread with the state of the cache mutex
    ([held]) and tests every event against a rule; the result is the final
    state of the mutex, or [None] when an event breaks the rule. *)
Fixpoint lock_check (rule : bool → event → bool) (held : bool) (tr : list event)
  : option bool :=
  match tr with
  | [] => Some held
  | e :: tr' => if rule held e then lock_check rule (cs_step held e) tr' else None
  end.

(** Cache calls are made with the mutex held; the mutex is not taken
    twice and not released unless held. *)
Definition naive_rule (held : bool) (e : event) : bool :=
  match e with
  | EvLock CacheMutex => negb held
  | EvUnlock CacheMutex => held
  | _ => if is_cache_op e then held else true
  end.

(** The rule of [server_cached.c]: in addition nothing is sent while the
    mutex is held. *)
Definition deque_rule (held : bool) (e : event) : bool :=
  naive_rule held e && (if is_send e then negb held else true).


(** ** server_thread.c and server_proc.c: the servers without a cache *)

Module ServerUncached.

(** The loop [while (sent < bytes_read) sent += send(connfd, response +
    sent, bytes_read - sent, 0)].  [k] numbers the calls of [send] and
    [accept k len] is what the [k]-th call returns; each call is recorded
    with the bytes that got through.  [None]: the loop has not ended after
    [fuel] calls, or a failed [send] has taken [sent] below 0 and the next
    call would start in front of the buffer. *)
Fixpoint resend (fuel : nat) (accept : nat → Z → Z) (k : nat)
    (chunk : list Byte.byte) (sent : Z) : option (list event * nat * Z) :=
  if sent <? Z.of_nat (length chunk) then
    match fuel with
    | O => None
    | S fuel' =>
      if sent <? 0 then None
      else
        let n := accept k (Z.of_nat (length chunk) - sent) in
        '(evs, k', sent') ← resend fuel' accept (S k) chunk (sent + n);
        Some (EvSend (Body (take (Z.to_nat n) (drop (Z.to_nat sent) chunk))) :: evs,
              k', sent')
    end
  else Some ([], k, sent).

(** [int sent = send(connfd, response, bytes_read, 0)] and the loop
    above. *)
Definition send_chunk (fuel : nat) (accept : nat → Z → Z) (k : nat)
    (chunk : list Byte.byte) : option (list event * nat * Z) :=
  let n := accept k (Z.of_nat (length chunk)) in
  '(evs, k', sent) ← resend fuel accept (S k) chunk n;
  Some (EvSend (Body (take (Z.to_nat n) chunk)) :: evs, k', sent).

(** The [do ... while (bytes_read > 0 && bytes_read == sizeof(response))]
    loop of the handler: [fread] a chunk, send all of it, add what was
    sent to the counter that goes to the log: [size], set to 0, in
    [server_proc.c]; [filesize], which is never initialised, in
    [server_thread.c].  The counter is an [int]; [None] also stands for
    an addition that leaves the range of [int]. *)
Fixpoint read_send_loop (fuel : nat) (accept : nat → Z → Z) (k : nat)
    (rest : list Byte.byte) (size : Z) : option (list event * Z) :=
  match fuel with
  | O => None
  | S fuel' =>
    let chunk := take CHUNK rest in
    match chunk with
    | [] => Some ([], size)
    | _ =>
      '(evs, k', sent) ← send_chunk CHUNK accept k chunk;
      let size' := size + sent in
      if (INT_MIN <=? size') && (size' <=? INT_MAX) then
        if (length chunk =? CHUNK)%nat then
          '(evs', size'') ← read_send_loop fuel' accept k' (drop CHUNK rest) size';
          Some (evs ++ evs', size'')
        else Some (evs, size')
      else None
    end
  end.

End ServerUncached.

(** A schedule of two threads that serve hits of [server_cached.c]:
    each does its lookup and sends its first header line, then each
    finishes. *)
Definition interleave_hits (tra trb : list event) : schedule :=
  (pair 1%nat <$> take 4 tra) ++ (pair 2%nat <$> take 4 trb) ++
  (pair 1%nat <$> drop 4 tra) ++ (pair 2%nat <$> drop 4 trb).

(** ** Concrete inputs *)

Module Examples.

Definition at_second (s : Z) : timespec := {| tv_sec := s; tv_nsec := 0 |}.
Definition page (name : string) (payload : list Byte.byte) (s : Z) : HttpResponse :=
  {| filename := name; response := payload;
     filesize := Z.of_nat (length payload); access_time := at_second s |}.
Definition page_a := page "a" [Byte.x61] 1.
Definition page_b := page "b" [Byte.x62; Byte.x21] 2.
Definition page_c := page "c" [Byte.x63] 3.
Definition page_d := page "d" [Byte.x64] 4.
Definition page_e := page "e" [Byte.x65] 5.
Definition page_f := page "f" [Byte.x66] 6.
Definition pq_ab : PriorityQueue.PriorityQueue :=
  PriorityQueue.enqueue (PriorityQueue.enqueue PriorityQueue.init page_a) page_b.

Definition five_inserts : list (HttpResponse * option nat) :=
  [(page_a, Some 10%nat); (page_b, Some 11%nat); (page_c, Some 12%nat);
   (page_d, Some 13%nat); (page_e, Some 14%nat)].
Definition retired_a : Deque.Node :=
  {| Deque.data := page_a; Deque.prev := Some 11%nat; Deque.next := None;
     Deque.valid := 0; Deque.reference_count := 0 |}.
Definition page_a_again := page "a" [Byte.x41] 8.
Definition duplicate_inserts : list (HttpResponse * option nat) :=
  [(page_a, Some 10%nat); (page_a_again, Some 11%nat); (page_b, Some 12%nat)].
Definition two_inserts : list (HttpResponse * option nat) :=
  [(page_a, Some 10%nat); (page_b, Some 11%nat)].


(** A request for "b" over a transport that takes one byte per call. *)
Definition env_hit_b : request_env :=
  {| req := Some "b"; now := at_second 9; file := None;
     alloc_new := true; alloc_filename := true; alloc_response := true;
     alloc_node := None; t_new := at_second 9; junk := [];
     accept := λ _ _, 1 |}.
Definition hit_trace_b : list event :=
  [EvLock CacheMutex; EvSearch "b"] ++
  ServerCachedNaive.send_existing_http_response (λ _ _, 1)
    (set_access_time page_b (at_second 9)) ++
  [EvUnlock CacheMutex; EvClose; EvExit].
Definition serial_schedule : list (nat * event) :=
  (pair 1%nat <$> hit_trace_b) ++ (pair 2%nat <$> hit_trace_b).
Definition six_pages : list HttpResponse :=
  [page_a; page_b; page_c; page_d; page_e; page_f].

End Examples.

(** ** Further inputs *)

Module MoreExamples.
Import Examples.

Definition t_start : timespec := {| tv_sec := 3; tv_nsec := 900000000 |}.
Definition t_finish : timespec := {| tv_sec := 5; tv_nsec := 100000000 |}.

Definition five_pages : list HttpResponse := [page_a; page_b; page_c; page_d; page_e].
Definition pq_five : PriorityQueue.PriorityQueue :=
  PQRun.run PriorityQueue.init (PQRun.OpEnqueue <$> five_pages).

Definition five_more_inserts : list (HttpResponse * option nat) :=
  [(page_f, Some 20%nat); (page_b, Some 21%nat); (page_c, Some 22%nat);
   (page_d, Some 23%nat); (page_e, Some 24%nat)].

(** A request for a file of two bytes with every [malloc] succeeding;
    the memory behind the response buffer holds four other bytes. *)
Definition env_miss : request_env :=
  {| req := Some "index.html"; now := at_second 9;
     file := Some [Byte.x68; Byte.x69];
     alloc_new := true; alloc_filename := true; alloc_response := true;
     alloc_node := Some 20%nat; t_new := at_second 9;
     junk := [Byte.x00; Byte.x01; Byte.x02; Byte.x03];
     accept := λ _ len, len |}.

(** A request for a name that is neither cached nor a file. *)
Definition env_absent : request_env :=
  {| req := Some "nothing.html"; now := at_second 9; file := None;
     alloc_new := true; alloc_filename := true; alloc_response := true;
     alloc_node := Some 20%nat; t_new := at_second 9; junk := [];
     accept := λ _ len, len |}.

(** A transport that takes one byte, then fails. *)
Definition accept_one_then_fail (k : nat) (len : Z) : Z :=
  match k with O => 1 | S _ => -1 end.

(** A transport that takes one byte per call. *)
Definition accept_one (k : nat) (len : Z) : Z := 1.


End MoreExamples.

(** * Proofs *)

(** ** The order on [timespec] *)

Section timespec_order.

Lemma compare_timespec_lt a b : compare_timespec a b = -1 ↔ ts_lt a b.
Proof.
  unfold compare_timespec, ts_lt.
  repeat match goal with |- context [if ?c then _ else _] => destruct c eqn:? end; lia.
Qed.

Lemma compare_timespec_not_lt a b : compare_timespec a b ≠ -1 ↔ ts_le b a.
Proof.
  unfold compare_timespec, ts_le.
  repeat match goal with |- context [if ?c then _ else _] => destruct c eqn:? end; lia.
Qed.

Lemma ts_le_refl a : ts_le a a.
Proof. unfold ts_le; lia. Qed.

Lemma ts_le_trans a b c : ts_le a b → ts_le b c → ts_le a c.
Proof. unfold ts_le; lia. Qed.

Lemma ts_lt_le a b : ts_lt a b → ts_le a b.
Proof. unfold ts_lt, ts_le; lia. Qed.

End timespec_order.

(** ** Strings and lists *)

Lemma streq_true a b : streq a b = true ↔ a = b.
Proof. apply String.eqb_eq. Qed.

Lemma streq_false a b : streq a b = false ↔ a ≠ b.
Proof. apply String.eqb_neq. Qed.

Lemma length_omap_le {A B} (f : A → option B) (l : list A) :
  (length (omap f l) ≤ length l)%nat.
Proof.
  induction l as [|x l IH]; [done|]. cbn [omap list_omap]. fold (omap f l).
  destruct (f x); cbn [length]; lia.
Qed.

(** ** The priority queue *)

Module PQFacts.
Import PriorityQueue.

Lemma parent_div i : 0 < i → Z.quot (i - 1) 2 = (i - 1) / 2.
Proof. intros. apply Z.quot_div_nonneg; lia. Qed.

Lemma item_Some_range pq i r :
  item pq i = Some r → 0 ≤ i ∧ (Z.to_nat i < length (items pq))%nat.
Proof.
  unfold item. destruct (i <? 0) eqn:E; [done|].
  destruct (items pq !! Z.to_nat i) eqn:L; [|done].
  intros _. split; [lia|]. by eapply lookup_lt_Some.
Qed.

Lemma size_store pq i v : size (store pq i v) = size pq.
Proof. done. Qed.

Lemma length_store pq i v : length (items (store pq i v)) = length (items pq).
Proof. unfold store; simpl. destruct (i <? 0); [done|]. apply length_insert. Qed.

Lemma item_store_eq pq i v :
  0 ≤ i → (Z.to_nat i < length (items pq))%nat → item (store pq i v) i = Some v.
Proof.
  intros Hi Hl. unfold item, store; simpl.
  destruct (i <? 0) eqn:E; [lia|]. by rewrite list_lookup_insert_eq.
Qed.

Lemma item_store_ne pq i j v : i ≠ j → item (store pq i v) j = item pq j.
Proof.
  intros Hne. unfold item, store; simpl.
  destruct (j <? 0) eqn:Ej; [done|]. destruct (i <? 0) eqn:Ei; [done|].
  rewrite list_lookup_insert_ne; [done|lia].
Qed.

Lemma item_store pq i j v r :
  item pq i = Some r →
  item (store pq i v) j = if decide (i = j) then Some v else item pq j.
Proof.
  intros [? ?]%item_Some_range. case_decide; subst.
  - by apply item_store_eq.
  - by apply item_store_ne.
Qed.

Lemma size_swap pq a b : size (swap pq a b) = size pq.
Proof. unfold swap. by repeat case_match. Qed.

Lemma length_swap pq a b : length (items (swap pq a b)) = length (items pq).
Proof. unfold swap. repeat case_match; rewrite ?length_store; done. Qed.

Lemma item_swap pq a b ra rb j :
  item pq a = Some ra → item pq b = Some rb →
  item (swap pq a b) j =
    if decide (j = b) then Some ra else if decide (j = a) then Some rb else item pq j.
Proof.
  intros Ha Hb. unfold swap. rewrite Ha, Hb.
  destruct (item_Some_range _ _ _ Ha), (item_Some_range _ _ _ Hb).
  case_decide; subst.
  - apply item_store_eq; [done|]. by rewrite length_store.
  - rewrite item_store_ne by done. case_decide; subst.
    + by apply item_store_eq.
    + by rewrite item_store_ne.
Qed.

(** Fuel beyond [index] is never used. *)
Lemma heapifyUp_rec_fuel fuel pq index :
  0 ≤ index → (Z.to_nat index ≤ fuel)%nat →
  heapifyUp_rec fuel pq index = heapifyUp pq index.
Proof.
  unfold heapifyUp. revert pq index.
  induction fuel as [fuel IH] using lt_wf_ind; intros pq index H0 Hf.
  destruct fuel as [|f].
  - by replace (Z.to_nat index) with O by lia.
  - destruct (Z.to_nat index) as [|n] eqn:En.
    + simpl. replace index with 0 by lia. done.
    + simpl. destruct (index =? 0) eqn:E0; [done|].
      assert (0 < index) by lia.
      pose proof (parent_div index ltac:(done)) as Hp.
      assert (0 ≤ Z.quot (index - 1) 2 < index)
        by (rewrite Hp; split; [apply Z.div_pos; lia| apply Z.div_lt_upper_bound; lia]).
      repeat case_match; try done.
      rewrite (IH f) by lia. symmetry. by rewrite (IH n) by lia.
Qed.

(** [heapifyUp] satisfies the recursion equation of the source. *)
Lemma heapifyUp_unfold pq index :
  0 ≤ index →
  heapifyUp pq index =
    if index =? 0 then pq
    else match item pq (Z.quot (index - 1) 2), item pq index with
         | Some p, Some c =>
           if compare_timespec (access_time p) (access_time c) =? -1
           then heapifyUp (swap pq (Z.quot (index - 1) 2) index) (Z.quot (index - 1) 2)
           else pq
         | _, _ => pq
         end.
Proof.
  intros H0. unfold heapifyUp at 1.
  destruct (Z.to_nat index) as [|n] eqn:En.
  - simpl. replace index with 0 by lia. done.
  - simpl. destruct (index =? 0) eqn:E0; [done|].
    assert (0 < index) by lia.
    pose proof (parent_div index ltac:(done)) as Hp.
    assert (0 ≤ Z.quot (index - 1) 2 < index) by (rewrite Hp; split; [apply Z.div_pos; lia| apply Z.div_lt_upper_bound; lia]).
    repeat case_match; try done.
    apply heapifyUp_rec_fuel; lia.
Qed.


Ltac zlia := Z.to_euclidean_division_equations; lia.

Lemma heapifyUp_swap_except pq k p c :
  0 < k → item pq (Z.quot (k - 1) 2) = Some p → item pq k = Some c →
  ts_lt (access_time p) (access_time c) →
  heap_except pq k → heap_except (swap pq (Z.quot (k - 1) 2) k) (Z.quot (k - 1) 2).
Proof.
  intros Hk Hp Hc Hlt [Ha Hb].
  assert (0 ≤ Z.quot (k - 1) 2 < k) as Hpk by zlia.
  split.
  - intros i p' c' Hi Hne. rewrite size_swap in Hi.
    rewrite !(item_swap _ _ _ _ _ _ Hp Hc).
    repeat case_decide; subst; intros; simplify_eq; try zlia;
      eauto using ts_le_trans, ts_lt_le, ts_le_refl.
    apply ts_le_trans with (access_time p); [|by apply ts_lt_le].
    apply (Ha i); [done|done|congruence|done].
  - intros i g c' Hi Hk0 Hpar. rewrite size_swap in Hi.
    rewrite !(item_swap _ _ _ _ _ _ Hp Hc).
    repeat case_decide; subst; intros; simplify_eq; try zlia.
    + eapply (Ha (Z.quot (k - 1) 2)); eauto; zlia.
    + apply ts_le_trans with (access_time p).
      * apply (Ha i p c'); [done|done|by rewrite Hpar|done].
      * eapply (Ha (Z.quot (k - 1) 2)); eauto; zlia.
Qed.


Lemma heap_except_done pq k :
  heap_except pq k →
  (∀ p c, item pq (Z.quot (k - 1) 2) = Some p → item pq k = Some c →
          ts_le (access_time c) (access_time p)) →
  heap_ordered pq.
Proof.
  intros [Ha _] Hk i p c Hi Hp Hc. destruct (decide (i = k)) as [->|Hne].
  - by apply Hk.
  - by apply (Ha i).
Qed.

Lemma heapifyUp_heap_ordered pq k :
  0 ≤ k → heap_except pq k → heap_ordered (heapifyUp pq k).
Proof.
  intros Hk. remember (Z.to_nat k) as n eqn:En. revert pq k Hk En.
  induction n as [n IH] using lt_wf_ind; intros pq k Hk En Hex.
  rewrite heapifyUp_unfold by done.
  destruct (k =? 0) eqn:E0.
  { assert (k = 0) by lia; subst k. intros i p c Hi. apply Hex; [done|lia]. }
  assert (0 < k) as Hk0 by lia.
  destruct (item pq (Z.quot (k - 1) 2)) as [p|] eqn:Hp;
    [destruct (item pq k) as [c|] eqn:Hc|];
    [|by apply (heap_except_done pq k); [|congruence]..].
  destruct (compare_timespec (access_time p) (access_time c) =? -1) eqn:Hcmp.
  - eapply (IH (Z.to_nat (Z.quot (k - 1) 2))); [zlia|zlia|done|].
    apply (heapifyUp_swap_except pq k p c); try done.
    apply compare_timespec_lt. lia.
  - apply (heap_except_done pq k); [done|]. intros p' c' ? ?. simplify_eq.
    apply compare_timespec_not_lt. lia.
Qed.


(** *** Shape *)

Lemma wf_item_range pq i r : wf pq → item pq i = Some r → 0 ≤ i < size pq.
Proof.
  intros (_ & _ & _ & Hn) Hi. destruct (item_Some_range _ _ _ Hi).
  destruct (decide (i < size pq)); [lia|]. rewrite Hn in Hi by lia. done.
Qed.

Lemma wf_store pq i v : wf pq → 0 ≤ i < size pq → wf (store pq i v).
Proof.
  intros Hwf Hi. destruct (Hwf) as (Hl & Hs & Hsome & Hnone).
  destruct (Hsome i Hi) as [r Hr].
  split; [by rewrite length_store|]. split; [done|]. split.
  - intros j Hj. rewrite (item_store _ _ _ _ _ Hr). case_decide; eauto.
  - intros j Hj. rewrite (item_store _ _ _ _ _ Hr). case_decide; [|eauto].
    simpl in *; lia.
Qed.

Lemma wf_swap pq a b : wf pq → wf (swap pq a b).
Proof.
  intros Hwf. unfold swap.
  destruct (item pq a) as [ra|] eqn:Ha; [|done].
  destruct (item pq b) as [rb|] eqn:Hb; [|done].
  apply wf_store; [apply wf_store|]; eauto using wf_item_range.
  rewrite size_store. eauto using wf_item_range.
Qed.

Lemma heapifyUp_wf_size pq k :
  0 ≤ k → wf pq → wf (heapifyUp pq k) ∧ size (heapifyUp pq k) = size pq.
Proof.
  intros Hk. remember (Z.to_nat k) as n eqn:En. revert pq k Hk En.
  induction n as [n IH] using lt_wf_ind; intros pq k Hk En Hwf.
  rewrite heapifyUp_unfold by done.
  destruct (k =? 0) eqn:E0; [done|].
  repeat case_match; try done.
  edestruct (IH (Z.to_nat (Z.quot (k - 1) 2))) as [? ->];
    [zlia|zlia|done|by apply wf_swap|].
  by rewrite size_swap.
Qed.

(** *** The structs in the queue *)

Lemma elem_of_entries pq r : r ∈ entries pq ↔ ∃ i, item pq i = Some r.
Proof.
  unfold entries, item. rewrite list_elem_of_omap. split.
  - intros (o & [n Hn]%list_elem_of_lookup & Ho). simpl in Ho; subst o.
    exists (Z.of_nat n). destruct (Z.ltb_spec (Z.of_nat n) 0); [lia|].
    by rewrite Nat2Z.id, Hn.
  - intros [i Hi]. destruct (i <? 0); [done|].
    destruct (items pq !! Z.to_nat i) as [o|] eqn:Hn; [|done]. simpl in Hi; subst o.
    exists (Some r). split; [|done]. by eapply list_elem_of_lookup_2.
Qed.

Lemma omap_insert_Some {A} (l : list (option A)) n old v :
  l !! n = Some (Some old) →
  old :: omap id (<[n := Some v]> l) ≡ₚ v :: omap id l.
Proof.
  revert n. induction l as [|o l IH]; intros [|n] Hn; simplify_eq/=.
  - apply Permutation_swap.
  - destruct o as [x|]; simpl; [|by apply IH].
    rewrite Permutation_swap. rewrite (IH _ Hn). apply Permutation_swap.
Qed.

Lemma omap_insert_None {A} (l : list (option A)) n v :
  l !! n = Some None →
  omap id (<[n := Some v]> l) ≡ₚ v :: omap id l.
Proof.
  revert n. induction l as [|o l IH]; intros [|n] Hn; simplify_eq/=; [done|].
  destruct o as [x|]; simpl; [|by apply IH].
  rewrite (IH _ Hn). apply Permutation_swap.
Qed.

Lemma entries_store pq i v old :
  item pq i = Some old → old :: entries (store pq i v) ≡ₚ v :: entries pq.
Proof.
  unfold item, entries, store; simpl. intros Hi.
  destruct (i <? 0); [done|].
  destruct (items pq !! Z.to_nat i) as [o|] eqn:Hn; [|done]. simpl in Hi; subst o.
  by apply omap_insert_Some.
Qed.

Lemma entries_swap pq a b : entries (swap pq a b) ≡ₚ entries pq.
Proof.
  unfold swap.
  destruct (item pq a) as [ra|] eqn:Ha; [|done].
  destruct (item pq b) as [rb|] eqn:Hb; [|done].
  assert (item (store pq a rb) b = Some rb) as Hb'.
  { rewrite (item_store _ _ _ _ _ Ha). by case_decide. }
  pose proof (entries_store _ _ rb _ Ha) as H1.
  pose proof (entries_store _ _ ra _ Hb') as H2.
  apply (Permutation_cons_inv (a := rb)). by rewrite H2, H1.
Qed.

Lemma entries_heapifyUp pq k : 0 ≤ k → entries (heapifyUp pq k) ≡ₚ entries pq.
Proof.
  intros Hk. remember (Z.to_nat k) as n eqn:En. revert pq k Hk En.
  induction n as [n IH] using lt_wf_ind; intros pq k Hk En.
  rewrite heapifyUp_unfold by done.
  destruct (k =? 0) eqn:E0; [done|].
  repeat case_match; try done.
  rewrite (IH (Z.to_nat (Z.quot (k - 1) 2))); [|zlia|zlia|done].
  apply entries_swap.
Qed.


(** *** The three call sites of [heapifyUp] *)

(** A slot without children in [pq'] was written; the rest is as in [pq]. *)
Lemma heap_except_leaf pq pq' k :
  heap_ordered pq → 0 ≤ k → size pq' ≤ 2 * k + 1 →
  (∀ j, j ≠ k → item pq' j = item pq j) →
  (∀ i, 0 < i < size pq' → i ≠ k → i < size pq) →
  heap_except pq' k.
Proof.
  intros Hh Hk Hleaf Hsame Hsz. split.
  - intros i p c Hi Hne. rewrite !Hsame by zlia. apply Hh. split; [lia|]. by apply Hsz.
  - intros i g c Hi Hk0 Hpar. zlia.
Qed.

(** The struct in slot [k] got a later [access_time]. *)
Lemma heap_except_refresh pq k r now :
  heap_ordered pq → item pq k = Some r → ts_le (access_time r) now →
  heap_except (store pq k (set_access_time r now)) k.
Proof.
  intros Hh Hr Hle. split.
  - intros i p c Hi Hne. rewrite size_store in Hi.
    rewrite !(item_store _ _ _ _ _ Hr).
    case_decide; [|rewrite decide_False by done; by apply Hh].
    rewrite decide_False by done. intros; simplify_eq/=.
    apply ts_le_trans with (access_time r); [|done]. by apply (Hh i).
  - intros i g c Hi Hk0 Hpar. rewrite size_store in Hi.
    rewrite !(item_store _ _ _ _ _ Hr).
    rewrite !decide_False by zlia. intros Hg Hc.
    apply ts_le_trans with (access_time r).
    + apply (Hh i); [done|by rewrite Hpar|done].
    + apply (Hh k); [zlia|done|done].
Qed.

(** *** [enqueue] on a queue with room *)

Section enqueue_room.
Context (pq : PriorityQueue) (value : HttpResponse).
Hypothesis Hwf : wf pq.
Hypothesis Hroom : size pq ≠ MAX.

Lemma enqueue_room_eq : enqueue pq value = heapifyUp (append pq value) (size pq).
Proof.
  unfold enqueue. destruct (size pq =? MAX) eqn:E; [lia|].
  unfold append; simpl. f_equal. lia.
Qed.

Lemma appended_item j :
  item (append pq value) j = if decide (j = size pq) then Some value else item pq j.
Proof.
  destruct Hwf as (Hl & Hs & Hsome & Hnone). unfold MAX in *.
  change (item (append pq value) j) with (item (store pq (size pq) value) j).
  case_decide; subst.
  - apply item_store_eq; lia.
  - by apply item_store_ne.
Qed.

Lemma appended_wf : wf (append pq value).
Proof.
  destruct Hwf as (Hl & Hs & Hsome & Hnone).
  split; [unfold append; cbn [items]; by rewrite length_store|].
  split; [simpl; lia|]. split.
  - intros j Hj. rewrite appended_item. case_decide; [done|]. apply Hsome. simpl in Hj. lia.
  - intros j Hj. rewrite appended_item. simpl in Hj. rewrite decide_False by lia.
    apply Hnone. lia.
Qed.

Lemma appended_entries : entries (append pq value) ≡ₚ value :: entries pq.
Proof.
  destruct Hwf as (Hl & Hs & Hsome & Hnone). unfold MAX in *.
  pose proof (Hnone (size pq) ltac:(lia)) as Hn. unfold item in Hn.
  unfold entries; simpl. destruct (size pq <? 0) eqn:E; [lia|].
  apply omap_insert_None.
  destruct (items pq !! Z.to_nat (size pq)) as [o|] eqn:Ho; [by simpl in Hn; subst|].
  apply lookup_ge_None in Ho. lia.
Qed.

Lemma enqueue_room_wf : wf (enqueue pq value).
Proof.
  rewrite enqueue_room_eq. destruct Hwf as (_ & ? & _).
  by apply heapifyUp_wf_size; [lia|apply appended_wf].
Qed.

Lemma enqueue_room_size : size (enqueue pq value) = size pq + 1.
Proof.
  rewrite enqueue_room_eq. destruct Hwf as (_ & ? & _).
  by destruct (heapifyUp_wf_size (append pq value) (size pq)) as [_ ->]; [lia|apply appended_wf|].
Qed.

Lemma enqueue_room_entries : entries (enqueue pq value) ≡ₚ value :: entries pq.
Proof.
  rewrite enqueue_room_eq. destruct Hwf as (_ & ? & _).
  rewrite entries_heapifyUp by lia. apply appended_entries.
Qed.

Lemma enqueue_room_heap_ordered : heap_ordered pq → heap_ordered (enqueue pq value).
Proof.
  intros Hh. rewrite enqueue_room_eq. destruct Hwf as (_ & ? & _).
  apply heapifyUp_heap_ordered; [lia|].
  apply (heap_except_leaf pq); try done; simpl; try lia.
  intros j Hj. rewrite appended_item. by rewrite decide_False.
Qed.
End enqueue_room.


(** *** [enqueue] on a full queue *)

Section enqueue_full.
Context (pq : PriorityQueue) (value : HttpResponse).
Hypothesis Hwf : wf pq.
Hypothesis Hfull : size pq = MAX.

Lemma enqueue_full_eq :
  enqueue pq value = heapifyUp (store pq (evict_index pq) value) (evict_index pq).
Proof. unfold enqueue. by rewrite Hfull. Qed.

(** The scan visits the slots 4, 3 and 2 and settles on one whose
    [access_time] is the smallest of the three. *)
Lemma evict_index_spec :
  (∀ r, r ∈ entries pq → ts_in_range (access_time r)) →
  ∃ old, 2 ≤ evict_index pq ≤ 4 ∧ item pq (evict_index pq) = Some old ∧
    ∀ j r, 2 ≤ j ≤ 4 → item pq j = Some r → ts_le (access_time old) (access_time r).
Proof.
  intros Hrange. destruct Hwf as (_ & _ & Hsome & _).
  rewrite Hfull in Hsome. unfold MAX in *.
  destruct (Hsome 4 ltac:(lia)) as [r4 H4].
  destruct (Hsome 3 ltac:(lia)) as [r3 H3].
  destruct (Hsome 2 ltac:(lia)) as [r2 H2].
  pose proof (Hrange r4 (proj2 (elem_of_entries _ _) (ex_intro _ _ H4))) as R4.
  pose proof (Hrange r3 (proj2 (elem_of_entries _ _) (ex_intro _ _ H3))) as R3.
  pose proof (Hrange r2 (proj2 (elem_of_entries _ _) (ex_intro _ _ H2))) as R2.
  unfold evict_index. rewrite Hfull. unfold MAX.
  change (Z.to_nat (5 `quot` 2 + 1)) with 3%nat. cbn [evict_scan].
  rewrite Hfull. unfold MAX.
  change (5 - 0 - 1) with 4. change (5 - (0 + 1) - 1) with 3.
  change (5 - (0 + 1 + 1) - 1) with 2. rewrite H4, H3, H2.
  assert (∀ j r, 2 ≤ j ≤ 4 → item pq j = Some r → r = r2 ∨ r = r3 ∨ r = r4) as Hcases.
  { intros j r Hj Hr. assert (j = 2 ∨ j = 3 ∨ j = 4) as Hj3 by lia.
    destruct Hj3 as [->|[->| ->]]; simplify_eq; auto. }
  unfold ts_in_range in *.
  repeat match goal with
  | |- context [compare_timespec ?a ?b =? -1] =>
    let E := fresh "E" in
    destruct (decide (compare_timespec a b = -1)) as [E|E];
    [rewrite E; apply compare_timespec_lt in E
    |replace (compare_timespec a b =? -1) with false by lia;
     apply compare_timespec_not_lt in E];
    cbn [Z.eqb Pos.eqb]; unfold ts_lt, ts_le in E; cbn [tv_sec tv_nsec] in E
  end; cbn [snd];
  (eexists; split; [lia|split; [eassumption|]]);
  intros j r Hj Hr; destruct (Hcases j r Hj Hr) as [->|[->| ->]];
  unfold ts_le; lia.
Qed.

Lemma evict_index_range : 2 ≤ evict_index pq ≤ 4.
Proof.
  destruct Hwf as (_ & _ & Hsome & _).
  rewrite Hfull in Hsome. unfold MAX in *.
  destruct (Hsome 4 ltac:(lia)) as [r4 H4].
  destruct (Hsome 3 ltac:(lia)) as [r3 H3].
  destruct (Hsome 2 ltac:(lia)) as [r2 H2].
  unfold evict_index. rewrite Hfull. unfold MAX.
  change (Z.to_nat (5 `quot` 2 + 1)) with 3%nat. cbn [evict_scan].
  rewrite Hfull. unfold MAX.
  change (5 - 0 - 1) with 4. change (5 - (0 + 1) - 1) with 3.
  change (5 - (0 + 1 + 1) - 1) with 2. rewrite H4, H3, H2.
  repeat match goal with
  | |- context [compare_timespec ?a ?b =? -1] =>
    destruct (compare_timespec a b =? -1)
  end; cbn [snd]; lia.
Qed.

Lemma evict_index_item : is_Some (item pq (evict_index pq)).
Proof.
  pose proof evict_index_range. destruct Hwf as (_ & _ & Hsome & _).
  apply Hsome. rewrite Hfull. unfold MAX. lia.
Qed.

Lemma enqueue_full_wf : wf (enqueue pq value).
Proof.
  rewrite enqueue_full_eq. pose proof evict_index_range.
  apply heapifyUp_wf_size; [lia|]. apply wf_store; [done|].
  rewrite Hfull. unfold MAX. lia.
Qed.

Lemma enqueue_full_size : size (enqueue pq value) = size pq.
Proof.
  rewrite enqueue_full_eq. pose proof evict_index_range.
  destruct (heapifyUp_wf_size (store pq (evict_index pq) value) (evict_index pq))
    as [_ ->]; [lia| |done].
  apply wf_store; [done|]. rewrite Hfull. unfold MAX. lia.
Qed.

(** The struct of the chosen slot leaves, [value] comes in, the others stay. *)
Lemma enqueue_full_entries old :
  item pq (evict_index pq) = Some old →
  old :: entries (enqueue pq value) ≡ₚ value :: entries pq.
Proof.
  intros Hold. rewrite enqueue_full_eq. pose proof evict_index_range.
  rewrite entries_heapifyUp by lia. by apply entries_store.
Qed.

Lemma enqueue_full_heap_ordered : heap_ordered pq → heap_ordered (enqueue pq value).
Proof.
  intros Hh. rewrite enqueue_full_eq. pose proof evict_index_range.
  apply heapifyUp_heap_ordered; [lia|].
  apply (heap_except_leaf pq); try done.
  - lia.
  - rewrite size_store, Hfull. unfold MAX. lia.
  - intros j Hj. by apply item_store_ne.
  - intros i. rewrite size_store. lia.
Qed.

(** In an ordered full queue the oldest struct is in one of the slots
    2, 3, 4, so the scan finds it. *)
Lemma evict_index_oldest old :
  heap_ordered pq →
  (∀ r, r ∈ entries pq → ts_in_range (access_time r)) →
  item pq (evict_index pq) = Some old →
  ∀ r, r ∈ entries pq → ts_le (access_time old) (access_time r).
Proof.
  intros Hh Hrange Hold r [j Hr]%elem_of_entries.
  destruct (evict_index_spec Hrange) as (old' & _ & Hold' & Hmin). simplify_eq.
  pose proof (wf_item_range _ _ _ Hwf Hr) as Hj. rewrite Hfull in Hj. unfold MAX in Hj.
  destruct (decide (2 ≤ j)); [apply (Hmin j); [lia|done]|].
  destruct Hwf as (_ & _ & Hsome & _). rewrite Hfull in Hsome. unfold MAX in Hsome.
  assert (j = 0 ∨ j = 1) as Hj2 by lia. destruct Hj2 as [->| ->].
  - destruct (Hsome 2 ltac:(lia)) as [r2 H2].
    apply ts_le_trans with (access_time r2); [apply (Hmin 2); [lia|done]|].
    apply (Hh 2); [rewrite Hfull; unfold MAX; lia|done|done].
  - destruct (Hsome 3 ltac:(lia)) as [r3 H3].
    apply ts_le_trans with (access_time r3); [apply (Hmin 3); [lia|done]|].
    apply (Hh 3); [rewrite Hfull; unfold MAX; lia|done|done].
Qed.
End enqueue_full.

(** *** [enqueue], both cases *)

Lemma enqueue_wf pq value : wf pq → wf (enqueue pq value).
Proof.
  intros Hwf. destruct (decide (size pq = MAX)).
  - by apply enqueue_full_wf.
  - by apply enqueue_room_wf.
Qed.

Lemma enqueue_heap_ordered pq value :
  wf pq → heap_ordered pq → heap_ordered (enqueue pq value).
Proof.
  intros Hwf Hh. destruct (decide (size pq = MAX)).
  - by apply enqueue_full_heap_ordered.
  - by apply enqueue_room_heap_ordered.
Qed.

Lemma init_wf : wf init.
Proof.
  split; [done|]. split; [done|]. split; [simpl; lia|].
  intros i _. unfold item, init; simpl. destruct (i <? 0); [done|].
  by destruct (Z.to_nat i) as [|[|[|[|[|?]]]]].
Qed.

Lemma init_heap_ordered : heap_ordered init.
Proof. intros i p c Hi. simpl in Hi. lia. Qed.


(** *** [search] *)

(** A miss: the loop runs through without writing anything. *)
Lemma search_loop_miss n pq target now i :
  (∀ r, r ∈ entries pq → filename r ≠ target) →
  search_loop n pq target now i = (None, pq).
Proof.
  intros Hno. revert i. induction n as [|n IH]; intros i; simpl; [done|].
  destruct (item pq i) as [r|] eqn:Hr; [|done].
  assert (filename r ≠ target) as Hne by (apply Hno, elem_of_entries; eauto).
  apply streq_false in Hne. by rewrite Hne.
Qed.

(** A hit: the first slot whose struct carries the name is refreshed and
    sifted up, and the pointer in that slot is returned. *)
Lemma search_loop_hit n pq target now i k pq' :
  search_loop n pq target now i = (Some k, pq') →
  i ≤ k < i + Z.of_nat n ∧
  ∃ r, item pq k = Some r ∧ filename r = target ∧
       pq' = heapifyUp (store pq k (set_access_time r now)) k ∧
       ∀ j r', i ≤ j < k → item pq j = Some r' → filename r' ≠ target.
Proof.
  revert i. induction n as [|n IH]; intros i; simpl; [done|].
  destruct (item pq i) as [r|] eqn:Hr; [|done].
  destruct (streq (filename r) target) eqn:E.
  - intros [= <- <-]. apply streq_true in E. split; [lia|].
    exists r. repeat split; try done. intros; lia.
  - intros [Hk (r' & ? & ? & ? & Hbefore)]%IH. split; [lia|].
    exists r'. repeat split; try done.
    intros j r'' Hj Hj'. destruct (decide (j = i)) as [->|].
    + simplify_eq. by apply streq_false.
    + apply (Hbefore j); [lia|done].
Qed.

Lemma search_loop_none n pq target now i pq' :
  search_loop n pq target now i = (None, pq') →
  (∀ j, i ≤ j < i + Z.of_nat n → is_Some (item pq j)) →
  pq' = pq ∧ ∀ j r, i ≤ j < i + Z.of_nat n → item pq j = Some r → filename r ≠ target.
Proof.
  revert i. induction n as [|n IH]; intros i; simpl.
  - intros [= <-] _. split; [done|]. intros; lia.
  - intros Hs Hsome. destruct (Hsome i ltac:(lia)) as [r Hr]. rewrite Hr in Hs.
    destruct (streq (filename r) target) eqn:E; [done|].
    apply IH in Hs as [-> Hrest]; [|intros; apply Hsome; lia].
    split; [done|]. intros j r' Hj Hr'. destruct (decide (j = i)) as [->|].
    + simplify_eq. by apply streq_false.
    + apply (Hrest j); [lia|done].
Qed.

(** [search] finds a name exactly when a struct in the queue carries it. *)
Lemma search_hit_iff pq target now :
  wf pq →
  is_Some (fst (search pq target now)) ↔ ∃ r, r ∈ entries pq ∧ filename r = target.
Proof.
  intros Hwf. unfold search. split.
  - destruct (search_loop _ _ _ _ _) as [[k|] pq'] eqn:Hs; [|by intros [? ?]].
    intros _. apply search_loop_hit in Hs as (_ & r & ? & ? & _).
    exists r. split; [|done]. apply elem_of_entries. eauto.
  - intros (r & [j Hj]%elem_of_entries & Hname).
    destruct (search_loop _ _ _ _ _) as [[k|] pq'] eqn:Hs; [done|].
    destruct Hwf as (? & ? & Hsome & Hnone).
    apply search_loop_none in Hs as [_ Hno]; [|intros; apply Hsome; lia].
    exfalso. apply (Hno j r); [|done|done].
    destruct (decide (j < size pq)); [|rewrite Hnone in Hj by lia; done].
    destruct (item_Some_range _ _ _ Hj). lia.
Qed.

Lemma search_wf pq target now : wf pq → wf (snd (search pq target now)).
Proof.
  intros Hwf. unfold search.
  destruct (search_loop _ _ _ _ _) as [[k|] pq'] eqn:Hs; simpl.
  - apply search_loop_hit in Hs as (Hk & r & Hr & _ & -> & _).
    apply heapifyUp_wf_size; [lia|]. apply wf_store; [done|]. by eapply wf_item_range.
  - destruct Hwf as (? & ? & Hsome & Hnone).
    apply search_loop_none in Hs as [-> _]; [done|]. intros; apply Hsome; lia.
Qed.

End PQFacts.

(** ** The deque *)

Module DequeFacts.
Import Deque.

Lemma linked_alloc m l i p : linked m l → l !! i = Some p → is_Some (m !! p).
Proof. intros [_ Hl] Hi. destruct (Hl i p Hi) as (n & -> & _). eauto. Qed.

Lemma linked_fresh m l p : linked m l → m !! p = None → p ∉ l.
Proof.
  intros Hl Hp [i Hi]%list_elem_of_lookup.
  destruct (linked_alloc _ _ _ _ Hl Hi) as [n Hn]. congruence.
Qed.

(** The loop visits the nodes of the list in order. *)
Lemma search_loop_linked m l fname fuel i :
  linked m l → (length l ≤ i + fuel)%nat →
  search_loop fuel m (l !! i) fname =
    Some match find_node m (drop i l) fname with
         | Some p =>
           (Some p, alter (λ n, set_reference_count (reference_count n + 1) n) p m)
         | None => (None, m)
         end.
Proof.
  intros Hl. revert i. induction fuel as [|fuel IH]; intros i Hf.
  - rewrite lookup_ge_None_2 by lia. rewrite drop_ge by lia. done.
  - destruct (l !! i) as [p|] eqn:Hi.
    + rewrite (drop_S _ _ _ Hi). simpl.
      destruct (proj2 Hl i p Hi) as (n & Hn & _ & _ & Hnext). rewrite Hn. simpl.
      destruct (streq (filename (data n)) fname) eqn:E.
      * do 2 f_equal. apply map_eq. intros q.
        destruct (decide (p = q)) as [->|].
        -- rewrite lookup_insert_eq, lookup_alter_eq, Hn. done.
        -- by rewrite lookup_insert_ne, lookup_alter_ne.
      * rewrite Hnext. apply IH. lia.
    + apply lookup_ge_None in Hi. rewrite drop_ge by lia. done.
Qed.


Lemma update_Some m a f n :
  m !! a = Some n → update (Some a) f m = Some (<[a := f n]> m).
Proof. intros Hn. unfold update. simpl. by rewrite Hn. Qed.

Local Arguments update : simpl never.

(** Linking an allocated node [p] in front of a non-empty list. *)
Lemma push_front m l p h fresh :
  linked m l → m !! p = Some fresh → valid fresh = 1 → p ∉ l → l !! O = Some h →
  ∃ hn,
    m !! h = Some hn ∧
    let m3 := <[p := set_prev None (set_next (Some h) fresh)]>
                (<[h := set_prev (Some p) hn]> m) in
    (∀ A (k : gmap nat Node → option A),
       (m1 ← update (Some p) (set_next (Some h)) m;
        m2 ← update (Some h) (set_prev (Some p)) m1;
        m3 ← update (Some p) (set_prev None) m2; k m3) = k m3) ∧
    linked m3 (p :: l).
Proof.
  intros [Hnd Hl] Hp Hv Hnotin Hh.
  assert (p ≠ h) as Hph by (intros ->; apply Hnotin; by eapply list_elem_of_lookup_2).
  destruct (Hl _ _ Hh) as (hn & Hhn & Hhv & Hhp & Hhnx).
  exists hn. split; [done|]. split.
  - intros A k. rewrite (update_Some _ _ _ _ Hp). simpl.
    rewrite (update_Some _ h _ hn) by by rewrite lookup_insert_ne.
    simpl. erewrite update_Some; [|by rewrite lookup_insert_ne, lookup_insert_eq].
    simpl. f_equal. apply map_eq. intros q.
    destruct (decide (p = q)) as [->|]; [by rewrite !lookup_insert_eq|].
    rewrite !(lookup_insert_ne _ p) by done.
    destruct (decide (h = q)) as [->|]; [by rewrite !lookup_insert_eq|].
    by rewrite !(lookup_insert_ne _ h), lookup_insert_ne by done.
  - split; [by apply NoDup_cons|].
    intros [|i] q Hq; simplify_eq/=.
    + eexists. rewrite lookup_insert_eq. split; [done|]. simpl. by rewrite Hh.
    + assert (q ≠ p) by (intros ->; apply Hnotin; by eapply list_elem_of_lookup_2).
      rewrite lookup_insert_ne by done.
      destruct (Hl _ _ Hq) as (n & Hn & Hnv & Hnp & Hnnx).
      destruct i as [|i].
      * simplify_eq. rewrite lookup_insert_eq. eexists. split; [done|]. by simpl.
      * assert (q ≠ h) by (intros ->; by pose proof (NoDup_lookup _ _ _ _ Hnd Hq Hh)).
        rewrite lookup_insert_ne by done. eauto.
Qed.

(** Unlinking the last node of a list of two or more. *)
Lemma unlink_tail m l old :
  linked m l → (2 ≤ length l)%nat → last l = Some old →
  ∃ o t tn,
    m !! old = Some o ∧ prev o = Some t ∧ m !! t = Some tn ∧ t ≠ old ∧
    last (take (length l - 1) l) = Some t ∧
    let m2 := <[old := set_valid 0 o]> (<[t := set_next None tn]> m) in
    (∀ d, remove_tail {| nodes := m; deck := d |} =
          if decide (tail d = Some old)
          then Some {| nodes := m2;
                       deck := {| head := head d; tail := Some t; size := size d |} |}
          else remove_tail {| nodes := m; deck := d |}) ∧
    linked m2 (take (length l - 1) l).
Proof.
  intros [Hnd Hl] Hlen Hlast. rewrite last_lookup in Hlast.
  destruct (length l) as [|[|k]] eqn:Elen; [lia|lia|]. simpl in Hlast.
  replace (S (S k) - 1)%nat with (S k) by lia.
  destruct (Hl _ _ Hlast) as (o & Ho & Hov & Hop & Honx).
  destruct (lookup_lt_is_Some_2 l k ltac:(lia)) as [t Ht]. rewrite Ht in Hop.
  destruct (Hl _ _ Ht) as (tn & Htn & Htv & Htp & Htnx).
  assert (t ≠ old) as Hne.
  { intros ->. pose proof (NoDup_lookup _ _ _ _ Hnd Hlast Ht). lia. }
  exists o, t, tn. repeat split; try done.
  - rewrite last_lookup, length_take, Elen.
    replace (Init.Nat.pred (S k `min` S (S k))) with k by lia.
    by rewrite lookup_take_lt by lia.
  - intros d. case_decide as Hd; [|done]. unfold remove_tail.
    cbn [nodes deck tail]. rewrite Hd. simpl. rewrite Ho. simpl.
    rewrite Hop, (update_Some _ _ _ _ Htn). simpl.
    by rewrite (update_Some _ old _ o) by by rewrite lookup_insert_ne.
  - eapply sublist_NoDup; [done|apply sublist_take].
  - intros i q Hq. apply lookup_take_Some in Hq as [Hq Hi].
    assert (q ≠ old) as Hqo.
    { intros ->. pose proof (NoDup_lookup _ _ _ _ Hnd Hlast Hq). lia. }
    rewrite lookup_insert_ne by done.
    destruct (Hl _ _ Hq) as (n & Hn & Hnv & Hnp & Hnnx).
    assert (match i with O => None | S j => take (S k) l !! j end
            = match i with O => None | S j => l !! j end) as Hprev.
    { destruct i; [done|]. apply lookup_take_lt. lia. }
    rewrite Hprev. destruct (decide (i = k)) as [->|Hik].
    + simplify_eq. rewrite lookup_insert_eq. eexists. split; [done|]. simpl.
      repeat split; try done. symmetry. apply lookup_take_ge. lia.
    + assert (q ≠ t).
      { intros ->. by pose proof (NoDup_lookup _ _ _ _ Hnd Hq Ht). }
      rewrite lookup_insert_ne by done. exists n. repeat split; try done.
      rewrite lookup_take_lt by lia. done.
Qed.


Lemma linked_insert_notin m l p n : linked m l → p ∉ l → linked (<[p := n]> m) l.
Proof.
  intros [Hnd Hl] Hp. split; [done|]. intros i q Hq.
  rewrite lookup_insert_ne; [by apply Hl|].
  intros ->. apply Hp. by eapply list_elem_of_lookup_2.
Qed.

Lemma linked_valid m l p n : linked m l → p ∈ l → m !! p = Some n → valid n = 1.
Proof.
  intros [_ Hl] [i Hi]%list_elem_of_lookup Hn.
  destruct (Hl _ _ Hi) as (n' & ? & ? & _). by simplify_eq.
Qed.

Lemma elem_of_take_init (l : list nat) q old :
  NoDup l → last l = Some old → q ∈ l → q ≠ old → q ∈ take (length l - 1) l.
Proof.
  intros Hnd Hlast [i Hi]%list_elem_of_lookup Hne. rewrite last_lookup in Hlast.
  apply list_elem_of_lookup. exists i. rewrite lookup_take_lt; [done|].
  pose proof (lookup_lt_Some _ _ _ Hi).
  destruct (decide (i = pred (length l))) as [->|]; [congruence|lia].
Qed.

Lemma enqueue_empty st new p :
  represents st [] → nodes st !! p = None →
  ∃ st', enqueue st new (Some p) = Some st' ∧ enqueued st [] new p st'.
Proof.
  intros (Hl & Hh & Ht & Hs & Hmax & Hval) Hp. simpl in *.
  unfold enqueue. cbn [nodes deck]. rewrite Hs. cbn [Z.eqb MAX_CACHE_COUNT].
  erewrite update_Some by apply lookup_insert_eq. simpl.
  erewrite update_Some by apply lookup_insert_eq. simpl.
  eexists. split; [done|]. unfold enqueued. rewrite Hs.
  rewrite bool_decide_false by done. cbn [nodes deck head tail size].
  rewrite !insert_insert_eq. split; [|split; [|split]].
  - split; [|split; [done|split; [done|split; [done|split; [done|]]]]].
    + split; [apply NoDup_singleton|]. intros [|i] q Hq; simplify_eq/=.
      eexists. rewrite lookup_insert_eq. done.
    + intros q n Hq Hv. destruct (decide (q = p)) as [->|]; [set_solver|].
      cbn [nodes] in Hq. rewrite lookup_insert_ne in Hq by done.
      apply Hval in Hq; [|done]. by apply elem_of_nil in Hq.
  - by rewrite lookup_insert_eq.
  - intros q n Hq Hn. rewrite lookup_insert_ne by done. eauto.
  - intros q Hq Hn. by rewrite lookup_insert_ne.
Qed.


Lemma enqueue_room st l h new p :
  represents st l → l !! O = Some h → size (deck st) ≠ MAX_CACHE_COUNT →
  nodes st !! p = None →
  ∃ st', enqueue st new (Some p) = Some st' ∧ enqueued st l new p st'.
Proof.
  intros (Hl & Hh & Ht & Hs & Hmax & Hval) Hhd Hroom Hp.
  pose proof (linked_fresh _ _ _ Hl Hp) as Hnotin.
  set (fresh := {| data := new; prev := None; next := None;
                   valid := 1; reference_count := 0 |}).
  destruct (push_front (<[p := fresh]> (nodes st)) l p h fresh)
    as (hn & Hhn & Hchain & Hlinked); try done.
  { by apply linked_insert_notin. }
  { apply lookup_insert_eq. }
  assert (p ≠ h) as Hph by (intros ->; apply Hnotin; by eapply list_elem_of_lookup_2).
  rewrite lookup_insert_ne in Hhn by done.
  assert (size (deck st) ≠ 0).
  { rewrite Hs. apply lookup_lt_Some in Hhd. lia. }
  unfold enqueue. cbn [nodes deck].
  destruct (size (deck st) =? MAX_CACHE_COUNT) eqn:E1; [lia|].
  destruct (size (deck st) =? 0) eqn:E2; [lia|].
  rewrite Hh, Hhd. fold fresh. rewrite Hchain.
  eexists. split; [done|]. unfold enqueued.
  rewrite bool_decide_false by done. cbn [nodes deck head tail size andb].
  split; [|split; [|split]].
  - split; [done|]. cbn [nodes deck head tail size].
    split; [done|]. split; [by destruct l|]. split; [simpl; lia|].
    split; [simpl in *; lia|].
    intros q n Hq Hv. destruct (decide (q = p)) as [->|]; [set_solver|].
    apply elem_of_cons. right. rewrite lookup_insert_ne in Hq by done.
    destruct (decide (q = h)) as [->|]; [by eapply list_elem_of_lookup_2|].
    rewrite lookup_insert_ne in Hq by done. rewrite lookup_insert_ne in Hq by done. eauto.
  - rewrite lookup_insert_eq. by rewrite Hhd.
  - intros q n Hq Hn. rewrite lookup_insert_ne by done.
    destruct (decide (q = h)) as [->|].
    + rewrite lookup_insert_eq. simplify_eq. eauto.
    + rewrite !lookup_insert_ne by done. eauto.
  - intros q Hq Hn. rewrite lookup_insert_ne by done.
    rewrite !lookup_insert_ne; [done|done|congruence].
Qed.


Lemma enqueue_full st l new p :
  represents st l → size (deck st) = MAX_CACHE_COUNT → nodes st !! p = None →
  ∃ st', enqueue st new (Some p) = Some st' ∧ enqueued st l new p st'.
Proof.
  intros (Hl & Hh & Ht & Hs & Hmax & Hval) Hfull Hp.
  pose proof (linked_fresh _ _ _ Hl Hp) as Hnotin.
  assert (length l = 5%nat) as Hlen by (unfold MAX_CACHE_COUNT in *; lia).
  set (fresh := {| data := new; prev := None; next := None;
                   valid := 1; reference_count := 0 |}).
  destruct (last l) as [old|] eqn:Hlast;
    [|rewrite last_lookup, Hlen in Hlast; apply lookup_ge_None in Hlast; simpl in *; lia].
  destruct (lookup_lt_is_Some_2 l O ltac:(lia)) as [h Hhd].
  destruct (unlink_tail (<[p := fresh]> (nodes st)) l old)
    as (o & t & tn & Ho & Hop & Htn & Hto & Hlast' & Hrm & Hlinked); try done.
  { by apply linked_insert_notin. }
  { lia. }
  assert (old ∈ l) as Hold_in.
  { rewrite last_lookup in Hlast. by eapply list_elem_of_lookup_2. }
  assert (t ∈ l) as Ht_in.
  { rewrite last_lookup in Hlast'. apply list_elem_of_lookup_2 in Hlast'.
    by eapply subseteq_take. }
  assert (p ≠ old ∧ p ≠ t ∧ p ≠ h) as (Hpo & Hpt & Hph).
  { repeat split; intros ->; apply Hnotin; try done. by eapply list_elem_of_lookup_2. }
  rewrite lookup_insert_ne in Ho, Htn by done.
  destruct (push_front
    (<[old := set_valid 0 o]> (<[t := set_next None tn]> (<[p := fresh]> (nodes st))))
    (take (length l - 1) l) p h fresh)
    as (hn & Hhn & Hchain & Hlinked'); try done.
  { by rewrite !lookup_insert_ne, lookup_insert_eq by done. }
  { intros Hin. apply Hnotin. by eapply subseteq_take. }
  { rewrite lookup_take_lt by lia. done. }
  unfold enqueue. cbn [nodes deck]. rewrite Hfull. cbn [Z.eqb MAX_CACHE_COUNT Pos.eqb].
  rewrite Hrm. rewrite decide_True by done. simpl. rewrite Hh, Hhd. fold fresh.
  rewrite Hchain. eexists. split; [done|]. unfold enqueued.
  rewrite bool_decide_true by done. cbn [nodes deck head tail size andb].
  assert (old ≠ h) as Hoh.
  { intros ->. rewrite last_lookup, Hlen in Hlast.
    pose proof (NoDup_lookup _ _ _ _ (proj1 Hl) Hlast Hhd). done. }
  split; [|split; [|split]].
  - split; [done|]. cbn [nodes deck head tail size].
    split; [done|]. split.
    { rewrite Hlen in *. destruct l as [|? [|? [|? [|? [|? [|]]]]]]; simplify_eq/=; done. }
    split; [rewrite Hfull; unfold MAX_CACHE_COUNT; simpl; rewrite length_take; lia|].
    split; [lia|].
    intros q n Hq Hv. destruct (decide (q = p)) as [->|]; [set_solver|].
    apply elem_of_cons. right. rewrite lookup_insert_ne in Hq by done.
    destruct (decide (q = old)) as [->|].
    { exfalso. rewrite lookup_insert_ne, lookup_insert_eq in Hq by done.
      by simplify_eq. }
    apply elem_of_take_init with old; try done; [apply Hl|].
    destruct (decide (q = h)) as [->|]; [by eapply list_elem_of_lookup_2|].
    rewrite !lookup_insert_ne in Hq by done.
    destruct (decide (q = t)) as [->|]; [done|].
    rewrite !lookup_insert_ne in Hq by done. eauto.
  - rewrite lookup_insert_eq. by rewrite Hhd.
  - intros q n Hq Hn. rewrite lookup_insert_ne by done.
    destruct (decide (q = old)) as [->|].
    { rewrite bool_decide_true by done. simplify_eq.
      rewrite lookup_insert_ne, lookup_insert_eq by done. eauto. }
    rewrite bool_decide_false by congruence.
    rewrite lookup_insert_ne in Hhn by done.
    destruct (decide (q = h)) as [->|].
    { rewrite lookup_insert_eq. eexists. split; [done|]. simpl.
      destruct (decide (h = t)) as [->|].
      - rewrite lookup_insert_eq in Hhn. by simplify_eq.
      - rewrite !lookup_insert_ne in Hhn by done. by simplify_eq. }
    rewrite !lookup_insert_ne by done.
    destruct (decide (q = t)) as [->|].
    { rewrite lookup_insert_eq. simplify_eq. eauto. }
    rewrite !lookup_insert_ne by done. eauto.
  - intros q Hq Hn. rewrite lookup_insert_ne by done.
    destruct (linked_alloc _ _ _ _ Hl Hhd) as [hn0 Hhn0].
    rewrite !lookup_insert_ne; [done|congruence..].
Qed.

(** [enqueue] with a successful [malloc] never faults on a well-formed
    deque and links the new node in front. *)
Lemma enqueue_represents st l new p :
  represents st l → nodes st !! p = None →
  ∃ st', enqueue st new (Some p) = Some st' ∧ enqueued st l new p st'.
Proof.
  intros Hrep Hp. destruct (decide (size (deck st) = MAX_CACHE_COUNT)).
  - by apply enqueue_full.
  - destruct l as [|h l'].
    + by apply enqueue_empty.
    + by apply (enqueue_room st (h :: l') h).
Qed.


Lemma find_node_view st v fname :
  Forall (λ x, data <$> nodes st !! x.1 = Some x.2) v →
  find_node (nodes st) (v.*1) fname = fst <$> find (name_is fname) v.
Proof.
  induction 1 as [|[p r] v Hx _ IH]; simpl; [done|]. simpl in Hx.
  destruct (nodes st !! p) as [n|]; simplify_eq/=.
  unfold name_is at 1; simpl. by destruct (streq _ _).
Qed.

(** [search] on a well-formed deque: the first node in list order whose
    struct carries the name gets one more reference; nothing else changes. *)
Lemma search_view st v fuel fname :
  view st v → (length v ≤ fuel)%nat →
  search fuel st fname =
    Some match find (name_is fname) v with
         | Some x => (Some x.1, {| nodes := alter pin x.1 (nodes st); deck := deck st |})
         | None => (None, st)
         end.
Proof.
  intros [(Hl & Hh & Ht & Hs & Hmax & Hval) Hd] Hfuel. unfold search.
  destruct (size (deck st) =? 0) eqn:E.
  - assert (v = []) as -> by (destruct v; [done|]; rewrite length_fmap in Hs; simpl in *; lia).
    done.
  - rewrite Hh. rewrite (search_loop_linked _ (v.*1)); [|done|rewrite length_fmap; lia].
    rewrite drop_0, (find_node_view _ _ _ Hd). simpl.
    destruct (find _ _) as [[p r]|]; simpl; [done|]. by destruct st.
Qed.

Lemma represents_alter st l p f :
  (∀ n, prev (f n) = prev n ∧ next (f n) = next n ∧ valid (f n) = valid n) →
  represents st l →
  represents {| nodes := alter f p (nodes st); deck := deck st |} l.
Proof.
  intros Hf ((Hnd & Hl) & Hh & Ht & Hs & Hmax & Hval).
  split; [split; [done|]|split; [done|split; [done|split; [done|split; [done|]]]]];
    cbn [nodes deck].
  - intros i q Hq. destruct (Hl _ _ Hq) as (n & Hn & Hnv & Hnp & Hnn).
    destruct (decide (p = q)) as [->|].
    + rewrite lookup_alter_eq, Hn. simpl. exists (f n).
      destruct (Hf n) as (-> & -> & ->). done.
    + rewrite lookup_alter_ne by done. eauto.
  - intros q n. destruct (decide (p = q)) as [->|].
    + rewrite lookup_alter_eq. destruct (nodes st !! q) as [n0|] eqn:Hq; [|done].
      simpl. intros [= <-]. destruct (Hf n0) as (_ & _ & ->). eauto.
    + rewrite lookup_alter_ne by done. eauto.
Qed.

Lemma view_alter st v p f :
  (∀ n, prev (f n) = prev n ∧ next (f n) = next n ∧ valid (f n) = valid n) →
  (∀ n, data (f n) = data n) →
  view st v → view {| nodes := alter f p (nodes st); deck := deck st |} v.
Proof.
  intros Hf Hfd [Hrep Hd]. split; [by apply represents_alter|].
  eapply Forall_impl; [done|]. intros [q r]; simpl.
  destruct (decide (p = q)) as [->|].
  - rewrite lookup_alter_eq. destruct (nodes st !! q); simpl; [|done]. by rewrite Hfd.
  - by rewrite lookup_alter_ne.
Qed.

Lemma enqueue_view st v new p :
  view st v → nodes st !! p = None →
  ∃ st', enqueue st new (Some p) = Some st' ∧
         enqueued st (v.*1) new p st' ∧
         view st' (take (Z.to_nat MAX_CACHE_COUNT) ((p, new) :: v)).
Proof.
  intros [Hrep Hd] Hp.
  destruct (enqueue_represents st _ new p Hrep Hp) as (st' & Henq & Hst').
  exists st'. split; [done|]. split; [done|].
  destruct Hst' as (Hrep' & Hnew & Hold & _).
  destruct Hrep as (Hl & Hh & Ht & Hs & Hmax & Hval).
  rewrite length_fmap in Hs, Hrep'. unfold MAX_CACHE_COUNT in *.
  change (Z.to_nat 5) with 5%nat. cbn [take].
  assert ((if bool_decide (size (deck st) = 5) then take (length v - 1) v.*1 else v.*1)
          = (take 4 v).*1) as Heq.
  { rewrite fmap_take. case_bool_decide.
    - f_equal. lia.
    - rewrite take_ge; [done|]. rewrite length_fmap. lia. }
  rewrite Heq in Hrep'. split; [done|].
  apply Forall_cons. split; [by simpl; rewrite Hnew|].
  apply Forall_take. eapply Forall_impl; [done|]. intros [q r]; simpl. intros Hq.
  destruct (nodes st !! q) as [n|] eqn:Hn; simplify_eq/=.
  destruct (Hold q n) as (n' & Hn' & Hdn & _); [congruence|done|].
  rewrite Hn'. simpl. by rewrite Hdn.
Qed.

Lemma take_app_take {A} n (a b : list A) : take n (a ++ take n b) = take n (a ++ b).
Proof. rewrite !take_app, take_take. do 2 f_equal. lia. Qed.

(** A run of [enqueue] calls keeps the newest [MAX_CACHE_COUNT] nodes,
    newest first. *)
Lemma enqueue_all_view st v reqs :
  view st v → allocs_fresh st reqs →
  ∃ st', enqueue_all st reqs = Some st' ∧
         view st' (take (Z.to_nat MAX_CACHE_COUNT) (reverse (succeeded reqs) ++ v)).
Proof.
  revert st v. induction reqs as [|[new [p|]] reqs IH]; intros st v Hv [Hnd Hfresh].
  - exists st. split; [done|]. simpl.
    rewrite take_ge; [done|]. destruct Hv as [(_ & _ & _ & Hs & Hmax & _) _].
    rewrite length_fmap in Hs. lia.
  - simpl in Hnd, Hfresh. apply NoDup_cons in Hnd as [Hp Hnd].
    destruct (enqueue_view st v new p Hv) as (st1 & Henq & Hst1 & Hv1).
    { apply Hfresh. set_solver. }
    destruct (IH st1 _ Hv1) as (st' & Hall & Hv').
    { split; [done|]. intros q Hq. apply Hst1; [set_solver|]. apply Hfresh. set_solver. }
    exists st'. cbn [enqueue_all]. rewrite Henq. split; [done|].
    rewrite take_app_take in Hv'.
    change (succeeded ((new, Some p) :: reqs)) with ((p, new) :: succeeded reqs).
    by rewrite reverse_cons, <- app_assoc.
  - cbn [enqueue_all enqueue]. simpl. apply IH; [done|]. by split.
Qed.

Lemma init_view : view init [].
Proof.
  split; [|done]. split; [split; [constructor|done]|].
  repeat split; try done.
Qed.

End DequeFacts.

(** ** Claims about the priority queue *)

Section pq_claims.
Import PriorityQueue PQFacts Examples.

Lemma search_none_unchanged n pq target now i :
  fst (search_loop n pq target now i) = None →
  snd (search_loop n pq target now i) = pq.
Proof.
  revert i. induction n as [|n IH]; intros i; simpl; [done|].
  destruct (item pq i); [|done]. destruct (streq _ _); [done|]. apply IH.
Qed.

(** C10.  A [search] of the priority queue that finds no struct with the
    requested name returns [NULL] and leaves the queue exactly as it
    was; a call that returns [NULL] never changes the queue. *)
Theorem C10_search_miss_frame pq target now :
  ((∀ r, r ∈ entries pq → filename r ≠ target) →
   search pq target now = (None, pq)) ∧
  (fst (search pq target now) = None → snd (search pq target now) = pq).
Proof.
  split.
  - intros Hno. by apply search_loop_miss.
  - apply search_none_unchanged.
Qed.

Lemma C10_witness :
  search pq_ab "index.html" (at_second 9) = (None, pq_ab).
Proof.
  apply (C10_search_miss_frame pq_ab "index.html" (at_second 9)).
  intros r Hr. vm_compute in Hr.
  apply elem_of_cons in Hr as [->|Hr]; [done|].
  apply elem_of_cons in Hr as [->|Hr]; [done|].
  by apply elem_of_nil in Hr.
Defined.

(** The newest struct is in slot 0. *)
Lemma root_newest pq root :
  wf pq → heap_ordered pq → item pq 0 = Some root →
  ∀ r, r ∈ entries pq → ts_le (access_time r) (access_time root).
Proof.
  intros Hwf Hh Hroot r [j Hj]%elem_of_entries.
  remember (Z.to_nat j) as n eqn:En. revert j r Hj En.
  induction n as [n IH] using lt_wf_ind; intros j r Hj En.
  pose proof (wf_item_range _ _ _ Hwf Hj) as Hrange.
  destruct (decide (j = 0)) as [->|]; [simplify_eq; apply ts_le_refl|].
  destruct Hwf as (? & ? & Hsome & ?).
  destruct (Hsome (Z.quot (j - 1) 2) ltac:(zlia)) as [p Hp].
  apply ts_le_trans with (access_time p).
  - apply (Hh j); [lia|done|done].
  - apply (IH (Z.to_nat (Z.quot (j - 1) 2))) with (Z.quot (j - 1) 2); [zlia|done|done].
Qed.

Lemma search_heap_ordered pq target now :
  wf pq → heap_ordered pq →
  (∀ k r, fst (search pq target now) = Some k → item pq k = Some r →
          ts_le (access_time r) now) →
  heap_ordered (snd (search pq target now)).
Proof.
  intros Hwf Hh Hclock. unfold search in *.
  destruct (search_loop _ _ _ _ _) as [[k|] pq'] eqn:Hs; simpl in *.
  - apply search_loop_hit in Hs as (Hk & r & Hr & Hname & -> & _).
    apply heapifyUp_heap_ordered; [lia|].
    apply heap_except_refresh; [done|done|].
    by apply (Hclock k).
  - pose proof (search_none_unchanged (Z.to_nat (size pq)) pq target now 0) as Hu.
    rewrite Hs in Hu. simpl in Hu. by rewrite Hu.
Qed.

(** C2, as the documentation has it, fails: after [enqueue] of "a" (time 1)
    and "b" (time 2) the parent slot 0 holds the newer struct.  And a hit
    is no promotion for every clock: [search] for "b" with a reading
    (time 0) earlier than the time stored in the struct leaves slot 0 older
    than slot 1, so the array is then not in the order [heapifyUp] keeps
    either. *)
Lemma C2_counterexample :
  ¬ min_heap_ordered pq_ab ∧
  fst (search pq_ab "b" (at_second 0)) = Some 0 ∧
  ¬ heap_ordered (snd (search pq_ab "b" (at_second 0))).
Proof.
  split; [|split; [reflexivity|]].
  - intros H. specialize (H 1 page_b page_a).
    assert (ts_le (access_time page_b) (access_time page_a)) as Hle
      by (apply H; [done|reflexivity|reflexivity]).
    unfold ts_le in Hle. simpl in Hle. lia.
  - intros H.
    specialize (H 1 (set_access_time page_b (at_second 0)) page_a).
    assert (ts_le (access_time page_a) (access_time (set_access_time page_b (at_second 0))))
      as Hle by (apply H; [done|reflexivity|reflexivity]).
    unfold ts_le in Hle. simpl in Hle. lia.
Qed.

(** C2, amended.  [enqueue] and a hit of [search] whose clock reading is
    not earlier than the time stored in the struct that is hit keep the
    array ordered the other way round: no slot is newer than its parent,
    so slot 0 holds the most recently used struct.  Nothing is asked of
    the other structs, also not of those with the same name, and a
    [search] without a hit changes nothing. *)
Theorem C2_heap_order pq (Hwf : wf pq) (Hh : heap_ordered pq) :
  (∀ value, wf (enqueue pq value) ∧ heap_ordered (enqueue pq value)) ∧
  (∀ target now,
     (∀ k r, fst (search pq target now) = Some k → item pq k = Some r →
             ts_le (access_time r) now) →
     wf (snd (search pq target now)) ∧ heap_ordered (snd (search pq target now))) ∧
  (∀ root r, item pq 0 = Some root → r ∈ entries pq →
     ts_le (access_time r) (access_time root)).
Proof.
  split; [|split].
  - intros value. split; [by apply enqueue_wf|by apply enqueue_heap_ordered].
  - intros target now Hclock. split; [by apply search_wf|by apply search_heap_ordered].
  - intros root r Hroot Hr. by apply (root_newest pq root).
Qed.

Lemma pq_ab_wf : wf pq_ab ∧ heap_ordered pq_ab.
Proof.
  split.
  - do 2 apply enqueue_wf. apply init_wf.
  - apply enqueue_heap_ordered; [apply enqueue_wf, init_wf|].
    apply enqueue_heap_ordered; [apply init_wf|apply init_heap_ordered].
Qed.

Lemma C2_witness :
  heap_ordered (enqueue pq_ab page_c) ∧
  heap_ordered (snd (search pq_ab "a" (at_second 7))) ∧
  ts_le (access_time page_a) (access_time page_b).
Proof.
  destruct (C2_heap_order pq_ab (proj1 pq_ab_wf) (proj2 pq_ab_wf)) as (He & Hs & Hr).
  split; [apply He|]. split.
  - apply Hs. intros k r Hk Hitem.
    assert (k = 1) as -> by (vm_compute in Hk; congruence).
    assert (item pq_ab 1 = Some page_a) as Ha by reflexivity.
    rewrite Ha in Hitem. injection Hitem as <-.
    unfold ts_le. simpl. lia.
  - apply (Hr page_b page_a); [reflexivity|].
    vm_compute. apply elem_of_cons. right. apply elem_of_cons. by left.
Defined.

(** C6 fails in the priority queue.  With "b" in slot 0 and "a" in slot 1,
    [search] for "a" returns the pointer of slot 1, but [heapifyUp] has
    by then exchanged the contents of the two structs: the caller reads
    the bytes of "b".  A second [search] for "a" finds it in slot 0 and
    returns the bytes of "a": two lookups of a name that stayed in the
    queue, two different payloads. *)
Theorem C6_search_returns_swapped_struct :
  let '(ret1, pq1) := search pq_ab "a" (at_second 3) in
  let '(ret2, pq2) := search pq1 "a" (at_second 4) in
  item pq_ab 1 = Some page_a ∧
  ret1 = Some 1 ∧
  response <$> deref pq1 ret1 = Some (response page_b) ∧
  response <$> deref pq2 ret2 = Some (response page_a) ∧
  response page_b ≠ response page_a.
Proof. vm_compute. repeat split; done. Qed.

Lemma enqueue_filled pq value n l :
  filled pq n l → n < 5 → filled (enqueue pq value) (n + 1) (value :: l).
Proof.
  intros (W & H & S & E) Hn.
  assert (size pq ≠ MAX) as Hroom by (unfold MAX; lia).
  split; [by apply enqueue_room_wf|].
  split; [by apply enqueue_room_heap_ordered|].
  split; [by rewrite enqueue_room_size, S|].
  by rewrite enqueue_room_entries, E.
Qed.

Section scenario.
Context (a b c d e f : HttpResponse) (now : timespec).
Hypothesis Ha : filename a = "a".
Hypothesis Hb : filename b = "b".
Hypothesis Hc : filename c = "c".
Hypothesis Hd : filename d = "d".
Hypothesis He : filename e = "e".
Hypothesis Hf : filename f = "f".

Lemma scenario_five :
  filled (foldl enqueue init [a; b; c; d; e]) 5 [a; b; c; d; e].
Proof.
  cbn [foldl].
  assert (filled init 0 []) as F0.
  { split; [apply init_wf|]. split; [apply init_heap_ordered|]. done. }
  pose proof (enqueue_filled _ a _ _ F0 ltac:(lia)) as F1.
  pose proof (enqueue_filled _ b _ _ F1 ltac:(lia)) as F2.
  pose proof (enqueue_filled _ c _ _ F2 ltac:(lia)) as F3.
  pose proof (enqueue_filled _ d _ _ F3 ltac:(lia)) as F4.
  pose proof (enqueue_filled _ e _ _ F4 ltac:(lia)) as (W & H & S & E).
  split; [done|]. split; [done|]. split; [by rewrite S|].
  rewrite E. apply (reverse_Permutation [a; b; c; d; e]).
Qed.

(** C4.  From the empty queue, five inserts of "a" to "e" leave all five
    in the queue; the insert of "f" removes exactly one of them, one
    whose [access_time] is the oldest of the five, and brings in "f";
    after it "f" is found and the removed name is not. *)
Theorem C4_sixth_insert_evicts_oldest
    (Hrange : ∀ r, r ∈ [a; b; c; d; e] → ts_in_range (access_time r)) :
  let pq5 := foldl enqueue init [a; b; c; d; e] in
  let pq6 := enqueue pq5 f in
  size pq5 = 5 ∧ entries pq5 ≡ₚ [a; b; c; d; e] ∧
  ∃ v, v ∈ [a; b; c; d; e] ∧
       (∀ r, r ∈ [a; b; c; d; e] → ts_le (access_time v) (access_time r)) ∧
       v :: entries pq6 ≡ₚ f :: [a; b; c; d; e] ∧
       size pq6 = 5 ∧
       is_Some (fst (search pq6 "f" now)) ∧
       search pq6 (filename v) now = (None, pq6).
Proof.
  intros pq5 pq6. destruct scenario_five as (W & H & S & E). fold pq5 in W, H, S, E.
  split; [done|]. split; [done|].
  assert (size pq5 = MAX) as Hfull by done.
  destruct (evict_index_item pq5 W Hfull) as [v Hv].
  assert (v ∈ entries pq5) as Hin by (apply elem_of_entries; eauto).
  pose proof (enqueue_full_entries pq5 f W Hfull v Hv) as E6. fold pq6 in E6.
  rewrite E in E6.
  exists v. split; [by rewrite <- E|]. split.
  { intros r Hr. apply (evict_index_oldest pq5 W Hfull v); try done.
    - intros r' Hr'. apply Hrange. by rewrite <- E.
    - by rewrite E. }
  split; [done|]. split.
  { subst pq6. by rewrite enqueue_full_size. }
  assert (NoDup (filename <$> v :: entries pq6)) as Hnd.
  { rewrite E6. simpl. rewrite Ha, Hb, Hc, Hd, He, Hf. by compute_done. }
  assert (wf pq6) as W6 by (subst pq6; by apply enqueue_full_wf).
  split.
  - apply search_hit_iff; [done|]. exists f. split; [|done].
    assert (f ∈ v :: entries pq6) as Hfin by (rewrite E6; by left).
    apply elem_of_cons in Hfin as [->|]; [|done].
    rewrite E in Hin. rewrite !elem_of_cons in Hin.
    destruct Hin as [->|[->|[->|[->|[->|?%elem_of_nil]]]]];
      first [congruence|done].
  - apply search_loop_miss. intros r Hr Heq.
    simpl in Hnd. apply NoDup_cons in Hnd as [Hnotin _].
    apply Hnotin. rewrite <- Heq. apply list_elem_of_fmap. eauto.
Qed.
End scenario.

Lemma C4_witness :
  let pq5 := foldl enqueue init [page_a; page_b; page_c; page_d; page_e] in
  ∃ v, v ∈ [page_a; page_b; page_c; page_d; page_e] ∧
       is_Some (fst (search (enqueue pq5 page_f) "f" (at_second 7))) ∧
       search (enqueue pq5 page_f) (filename v) (at_second 7) = (None, enqueue pq5 page_f).
Proof.
  destruct (C4_sixth_insert_evicts_oldest page_a page_b page_c page_d page_e page_f
              (at_second 7) eq_refl eq_refl eq_refl eq_refl eq_refl eq_refl)
    as (_ & _ & v & Hv & _ & _ & _ & Hf & Hmiss).
  - intros r Hr. rewrite !elem_of_cons in Hr.
    destruct Hr as [->|[->|[->|[->|[->|?%elem_of_nil]]]]]; try done;
      unfold ts_in_range, LONG_MAX; simpl; lia.
  - exists v. by repeat split.
Defined.

End pq_claims.

(** ** Claims about the deque *)

Section deque_claims.
Import Deque DequeFacts Examples.

(** C1 fails at retirement.  After five inserts the tail is the node of
    "a" (address 10) with no reference held.  The sixth insert retires it
    ([valid = 0]) with [reference_count = 0], and the node stays allocated:
    [remove_tail] has no [free], and no pointer to the node is left for a
    later [put_down]. *)
Theorem C1_unpinned_tail_is_not_freed :
  ∃ st5 st6,
    enqueue_all init five_inserts = Some st5 ∧
    tail (deck st5) = Some 10%nat ∧
    reference_count <$> nodes st5 !! 10%nat = Some 0 ∧
    enqueue st5 page_f (Some 15%nat) = Some st6 ∧
    nodes st6 !! 10%nat = Some retired_a ∧
    walk 6 (nodes st6) (head (deck st6)) = [15; 14; 13; 12; 11]%nat.
Proof.
  eexists _, _. split; [vm_compute; reflexivity|].
  split; [reflexivity|]. split; [by vm_compute|].
  split; [vm_compute; reflexivity|]. split; by vm_compute.
Qed.


(** [put_down] on a node: a retired node whose last reference goes is
    freed; any other node stays, one reference poorer. *)
Lemma put_down_spec st p n :
  nodes st !! p = Some n →
  put_down st p =
    Some {| nodes := if bool_decide (reference_count n = 1 ∧ valid n = 0)
                     then delete p (nodes st)
                     else <[p := set_reference_count (reference_count n - 1) n]> (nodes st);
            deck := deck st |}.
Proof.
  intros Hn. unfold put_down. rewrite Hn. simpl.
  case_bool_decide as Hd.
  - destruct Hd as [-> ->]. done.
  - destruct (reference_count n - 1 =? 0) eqn:E1; [|done].
    destruct (valid n =? 0) eqn:E2; [|done]. exfalso. apply Hd. lia.
Qed.

(** C3 fails on the deque.  With "b" at the head and "a" behind it, a
    [search] for "a" returns the node of "a" (address 10); afterwards the
    node is still second in the list, and the [access_time] of its struct
    is the one it was inserted with. *)
Lemma C3_counterexample :
  ∃ st st',
    enqueue_all init two_inserts = Some st ∧
    search 5 st "a" = Some (Some 10%nat, st') ∧
    walk 5 (nodes st) (head (deck st)) = [11; 10]%nat ∧
    walk 5 (nodes st') (head (deck st')) = [11; 10]%nat ∧
    (access_time ∘ data <$> nodes st' !! 10%nat) = Some (at_second 1) ∧
    (access_time ∘ data <$> nodes st !! 10%nat) = Some (at_second 1).
Proof.
  eexists _, _. split; [vm_compute; reflexivity|].
  split; [vm_compute; reflexivity|]. repeat split; by vm_compute.
Qed.

(** C3, amended.  A [search] of the deque that matches a node of the
    list adds one to its [reference_count] and returns it; the list, its
    order and the structs (with their [access_time]) stay as they were.
    When no node matches it returns [NULL] and changes nothing. *)
Theorem C3_search_pins_first_match st v fuel fname
    (Hv : view st v) (Hfuel : (length v ≤ fuel)%nat) :
  (∀ p r, find (name_is fname) v = Some (p, r) →
     ∃ n st',
       nodes st !! p = Some n ∧ data n = r ∧
       search fuel st fname = Some (Some p, st') ∧
       nodes st' = <[p := pin n]> (nodes st) ∧ deck st' = deck st ∧
       reference_count (pin n) = reference_count n + 1 ∧ data (pin n) = data n ∧
       view st' v) ∧
  (find (name_is fname) v = None → search fuel st fname = Some (None, st)).
Proof.
  rewrite (search_view st v fuel fname Hv Hfuel). split.
  - intros p r Hfind. rewrite Hfind. simpl.
    apply find_some in Hfind as [Hin _].
    pose proof Hv as [Hrep Hd].
    pose proof (proj1 (Forall_forall _ _) Hd (p, r)
                  (proj2 (list_elem_of_In _ _) Hin)) as Hp. simpl in Hp.
    destruct (nodes st !! p) as [n|] eqn:Hn; simplify_eq/=.
    eexists n, _. split; [done|]. split; [done|]. split; [done|].
    cbn [nodes deck]. split.
    { apply map_eq. intros q. destruct (decide (p = q)) as [->|].
      - by rewrite lookup_alter_eq, lookup_insert_eq, Hn.
      - by rewrite lookup_alter_ne, lookup_insert_ne. }
    split; [done|]. split; [done|]. split; [done|].
    by apply (view_alter st v p pin).
  - by intros ->.
Qed.

Lemma two_inserts_view : ∃ st, enqueue_all init two_inserts = Some st ∧
  view st [(11%nat, page_b); (10%nat, page_a)].
Proof.
  destruct (enqueue_all_view init [] two_inserts init_view) as (st & Hst & Hv).
  - split; [by compute_done|]. intros p _. apply lookup_empty.
  - exists st. split; [done|]. apply Hv.
Qed.

Lemma C3_witness :
  ∃ st st' n, enqueue_all init two_inserts = Some st ∧
    search 5 st "a" = Some (Some 10%nat, st') ∧
    nodes st !! 10%nat = Some n ∧
    nodes st' = <[10%nat := pin n]> (nodes st) ∧
    view st' [(11%nat, page_b); (10%nat, page_a)].
Proof.
  destruct two_inserts_view as (st & Hst & Hv).
  destruct (C3_search_pins_first_match st _ 5 "a" Hv ltac:(simpl; lia)) as [Hhit _].
  destruct (Hhit 10%nat page_a eq_refl) as (n & st' & Hn & _ & Hs & Hm & _ & _ & _ & Hv').
  by exists st, st', n.
Defined.


Lemma find_app_none {A} (f : A → bool) (l1 l2 : list A) :
  (∀ x, x ∈ l1 → f x = false) → find f (l1 ++ l2) = find f l2.
Proof.
  induction l1 as [|x l1 IH]; intros Hno; simpl; [done|].
  rewrite (Hno x) by by left. apply IH. intros y Hy. apply Hno. by right.
Qed.

Lemma find_none {A} (f : A → bool) (l : list A) :
  (∀ x, x ∈ l → f x = false) → find f l = None.
Proof. intros Hno. rewrite <- (app_nil_r l). by rewrite find_app_none. Qed.

Lemma succeeded_app reqs1 reqs2 :
  succeeded (reqs1 ++ reqs2) = succeeded reqs1 ++ succeeded reqs2.
Proof. apply omap_app. Qed.

Lemma succeeded_names reqs fname :
  (∀ x, x ∈ reqs → filename x.1 ≠ fname) →
  ∀ y, y ∈ reverse (succeeded reqs) → name_is fname y = false.
Proof.
  intros Hno y Hy. rewrite elem_of_reverse in Hy.
  apply list_elem_of_omap in Hy as ([r a] & Hin & Hy). simpl in Hy.
  destruct a as [p|]; simplify_eq/=.
  apply streq_false. by apply (Hno (r, Some p)).
Qed.

(** C9.  After a run of inserts, let [e] be the last one with its name
    (its node is [q]).  A [search] for that name returns no other node than
    [q], and it does return [q], with the struct [e], as long as fewer than
    [MAX_CACHE_COUNT] inserts followed. *)
Theorem C9_search_returns_latest_insert st v reqs pre e q post fuel
    (Hv : view st v) (Hfresh : allocs_fresh st reqs)
    (Hreqs : reqs = pre ++ (e, Some q) :: post)
    (Hlast : ∀ x, x ∈ post → filename x.1 ≠ filename e)
    (Hfuel : (5 ≤ fuel)%nat) :
  ∃ st',
    enqueue_all st reqs = Some st' ∧
    (∀ q' st'', search fuel st' (filename e) = Some (Some q', st'') →
       q' = q ∧ data <$> nodes st' !! q = Some e) ∧
    ((length post < 5)%nat →
       ∃ st'', search fuel st' (filename e) = Some (Some q, st'') ∧
               data <$> nodes st' !! q = Some e).
Proof.
  destruct (enqueue_all_view st v reqs Hv Hfresh) as (st' & Hall & Hv').
  exists st'. split; [done|].
  subst reqs. rewrite succeeded_app in Hv'.
  change (succeeded ((e, Some q) :: post)) with ((q, e) :: succeeded post) in Hv'.
  rewrite reverse_app, reverse_cons, <- !app_assoc in Hv'.
  change (Z.to_nat MAX_CACHE_COUNT) with 5%nat in Hv'.
  set (A := reverse (succeeded post)) in *.
  set (B := reverse (succeeded pre) ++ v) in *.
  assert (∀ y, y ∈ A → name_is (filename e) y = false) as HA
    by by apply succeeded_names.
  assert (name_is (filename e) (q, e) = true) as Hqe by by apply streq_true.
  assert (length (take 5 (A ++ [(q, e)] ++ B)) ≤ fuel)%nat as Hlen
    by (rewrite length_take; lia).
  rewrite (search_view st' _ fuel (filename e) Hv' Hlen).
  destruct (decide (length A < 5)%nat) as [Hshort|Hlong].
  - assert (find (name_is (filename e)) (take 5 (A ++ [(q, e)] ++ B)) = Some (q, e)) as ->.
    { rewrite take_app. rewrite (take_ge A) by lia.
      rewrite find_app_none by done.
      destruct (5 - length A)%nat as [|k] eqn:Ek; [lia|]. simpl. by rewrite Hqe. }
    assert (data <$> nodes st' !! q = Some e) as Hdata.
    { destruct Hv' as [_ Hd]. rewrite Forall_forall in Hd.
      apply (Hd (q, e)). rewrite take_app, (take_ge A) by lia.
      destruct (5 - length A)%nat as [|k] eqn:Ek; [lia|]. simpl.
      apply elem_of_app. right. by left. }
    split.
    + intros q' st'' [= <- <-]. done.
    + intros _. eauto.
  - assert (find (name_is (filename e)) (take 5 (A ++ [(q, e)] ++ B)) = None) as ->.
    { rewrite take_app_le by lia. apply find_none. intros y Hy. apply HA.
      by eapply subseteq_take. }
    split; [done|]. intros Hpost. exfalso. apply Hlong. subst A.
    rewrite length_reverse. unfold succeeded.
    eapply Nat.le_lt_trans; [apply length_omap_le|done].
Qed.


Lemma C9_witness :
  ∃ st' st'',
    enqueue_all init duplicate_inserts = Some st' ∧
    search 5 st' "a" = Some (Some 11%nat, st'') ∧
    data <$> nodes st' !! 11%nat = Some page_a_again.
Proof.
  destruct (C9_search_returns_latest_insert init [] duplicate_inserts
              [(page_a, Some 10%nat)] page_a_again 11%nat [(page_b, Some 12%nat)] 5
              init_view)
    as (st' & Hall & _ & Hhit).
  - split; [by compute_done|]. intros p _. apply lookup_empty.
  - reflexivity.
  - intros x Hx. apply list_elem_of_singleton in Hx as ->. done.
  - lia.
  - destruct Hhit as (st'' & Hs & Hd); [simpl; lia|]. by exists st', st''.
Defined.

End deque_claims.

Section capacity.
Import Examples.

(** C5.  However many inserts are made, the priority queue keeps
    [size] and the number of occupied slots at or below [MAX], and the
    deque keeps at most [MAX_CACHE_COUNT] nodes that are not retired; an
    insert into a full cache takes one entry out (a slot is overwritten,
    the tail is retired) and puts the new one in. *)
Theorem C5_capacity
    (pq : PriorityQueue.PriorityQueue) (values : list HttpResponse)
    (st : Deque.state) (v : list (nat * HttpResponse))
    (reqs : list (HttpResponse * option nat))
    (Hpq : PriorityQueue.wf pq) (Hv : Deque.view st v)
    (Hfresh : Deque.allocs_fresh st reqs) :
  let pq' := foldl PriorityQueue.enqueue pq values in
  (PriorityQueue.wf pq' ∧ PriorityQueue.size pq' ≤ MAX ∧
   (length (PriorityQueue.entries pq') ≤ 5)%nat ∧
   ∀ value, PriorityQueue.size pq' = MAX →
     ∃ old, old ∈ PriorityQueue.entries pq' ∧
       old :: PriorityQueue.entries (PriorityQueue.enqueue pq' value)
         ≡ₚ value :: PriorityQueue.entries pq' ∧
       PriorityQueue.size (PriorityQueue.enqueue pq' value) = MAX) ∧
  ∃ st' v',
    Deque.enqueue_all st reqs = Some st' ∧ Deque.view st' v' ∧
    (length v' ≤ 5)%nat ∧
    (∀ p n, Deque.nodes st' !! p = Some n → Deque.valid n = 1 → p ∈ v'.*1) ∧
    ∀ new p, Deque.size (Deque.deck st') = Deque.MAX_CACHE_COUNT →
      Deque.nodes st' !! p = None →
      ∃ st'' old o,
        Deque.enqueue st' new (Some p) = Some st'' ∧
        last (v'.*1) = Some old ∧
        Deque.nodes st'' !! old = Some o ∧ Deque.valid o = 0 ∧
        Deque.view st'' ((p, new) :: take 4 v').
Proof.
  intros pq'. split.
  - assert (PriorityQueue.wf pq') as Hwf'.
    { subst pq'. revert pq Hpq. induction values as [|x values IH]; intros pq Hpq; [done|].
      simpl. apply IH. by apply PQFacts.enqueue_wf. }
    split; [done|]. split; [apply Hwf'|]. split.
    { destruct Hwf' as (Hlen & _). unfold PriorityQueue.entries.
      etrans; [apply length_omap_le|]. by rewrite Hlen. }
    intros value Hfull.
    destruct (PQFacts.evict_index_item pq' Hwf' Hfull) as [old Hold].
    exists old. split; [apply PQFacts.elem_of_entries; eauto|]. split.
    + by apply PQFacts.enqueue_full_entries.
    + by rewrite PQFacts.enqueue_full_size.
  - destruct (DequeFacts.enqueue_all_view st v reqs Hv Hfresh) as (st' & Hall & Hv').
    eexists st', _. split; [done|]. split; [done|].
    split; [rewrite length_take; change (Z.to_nat Deque.MAX_CACHE_COUNT) with 5%nat; lia|].
    split; [apply Hv'|].
    intros new p Hfull Hp.
    set (v' := take (Z.to_nat Deque.MAX_CACHE_COUNT)
                 (reverse (Deque.succeeded reqs) ++ v)) in *.
    destruct (DequeFacts.enqueue_view st' v' new p Hv' Hp) as (st'' & Henq & Hed & Hv'').
    destruct Hed as (_ & _ & Hold & _).
    pose proof Hv' as [(Hl & _ & Ht & Hs & _) _].
    assert (length v' = 5%nat) as Hlen.
    { rewrite length_fmap in Hs. unfold Deque.MAX_CACHE_COUNT in *. lia. }
    destruct (last (v'.*1)) as [old|] eqn:Hlast.
    2:{ rewrite last_lookup, length_fmap, Hlen in Hlast.
        apply lookup_ge_None in Hlast. rewrite length_fmap in Hlast. simpl in *; lia. }
    destruct (DequeFacts.linked_alloc (Deque.nodes st') (v'.*1) (pred (length (v'.*1))) old Hl)
      as [o Ho]; [by rewrite <- last_lookup|].
    destruct (Hold old o) as (o' & Ho' & _ & _ & Hvalid); [congruence|done|].
    rewrite bool_decide_true in Hvalid by done.
    rewrite bool_decide_true in Hvalid by done. simpl in Hvalid.
    exists st'', old, o'. split; [done|]. split; [done|]. split; [done|]. split; [done|].
    change (Z.to_nat Deque.MAX_CACHE_COUNT) with 5%nat in Hv''. by cbn [take] in Hv''.
Qed.

End capacity.

(** ** The handlers *)

Section handlers.
Import Examples.

Lemma body_bytes_app tr1 tr2 : body_bytes (tr1 ++ tr2) = body_bytes tr1 ++ body_bytes tr2.
Proof. unfold body_bytes. by rewrite omap_app, concat_app. Qed.

Lemma body_bytes_cons b tr : body_bytes (EvSend (Body b) :: tr) = b ++ body_bytes tr.
Proof. done. Qed.


(** *** The loops of the miss path of [server_cached.c] *)



(** The loops record calls of [send] only. *)
Lemma deque_send_chunk_bodies fuel accept k buffer total_read sent evs k' sent' :
  ServerCached.send_chunk fuel accept k buffer total_read sent = Some (evs, k', sent') →
  Forall (λ ev, is_body ev = true) evs.
Proof.
  revert k sent evs k' sent'.
  induction fuel as [|fuel IH]; intros k sent evs k' sent';
    cbn [ServerCached.send_chunk];
    (destruct (sent <? total_read); [|by intros [= <- _ _]]); [done|].
  destruct (sent <? 0); [done|].
  destruct (ServerCached.send_chunk fuel _ _ _ _ _) as [[[evs0 k0] s0]|] eqn:Hr; [|done].
  cbn [mbind option_bind]. intros [= <- _ _]. constructor; [done|]. by eapply IH.
Qed.

Lemma deque_read_send_loop_bodies fuel accept k bytes total_read sent evs sent' :
  ServerCached.read_send_loop fuel accept k bytes total_read sent = Some (evs, sent') →
  Forall (λ ev, is_body ev = true) evs.
Proof.
  revert k total_read sent evs sent'.
  induction fuel as [|fuel IH]; intros k total_read sent evs sent'; [done|].
  cbn [ServerCached.read_send_loop].
  destruct (take CHUNK _) as [|x chunk]; [by intros [= <- _]|].
  destruct (ServerCached.send_chunk _ _ _ _ _ _) as [[[evs0 k0] s0]|] eqn:Hr; [|done].
  cbn [mbind option_bind]. apply deque_send_chunk_bodies in Hr.
  destruct (ServerCached.read_send_loop fuel _ _ _ _ _) as [[evs1 s1]|] eqn:Hl; [|done].
  cbn [mbind option_bind]. intros [= <- _]. apply IH in Hl.
  by apply Forall_app.
Qed.

(** *** The transmission loop of the hit path of [server_cached.c] *)

Lemma deque_send_body_bodies fuel accept k payload fs total evs :
  ServerCached.send_body fuel accept k payload fs total = Some evs →
  Forall (λ ev, is_body ev = true) evs.
Proof.
  revert k total evs.
  induction fuel as [|fuel IH]; intros k total evs; cbn [ServerCached.send_body];
    (destruct (_ <? fs); [|by intros [= <-]]); [done|].
  destruct (ServerCached.send_body fuel _ _ _ _ _) as [evs0|] eqn:Hr; [|done].
  cbn [mbind option_bind]. intros [= <-]. constructor; [done|]. by eapply IH.
Qed.

(** Over a transport that makes progress the loop ends, having sent the
    bytes from [total_sent] up to [filesize]. *)
Lemma deque_send_body_ok fuel accept k payload fs total :
  (∀ k len, 0 < len → 0 < accept k len ≤ len) →
  0 ≤ total ≤ fs → (Z.to_nat (fs - total) ≤ fuel)%nat →
  ∃ evs,
    ServerCached.send_body fuel accept k payload fs total = Some evs ∧
    body_bytes evs = take (Z.to_nat (fs - total)) (drop (Z.to_nat total) payload).
Proof.
  intros Hacc. revert k total. induction fuel as [|fuel IH]; intros k total Htotal Hfuel.
  - assert (total = fs) as -> by lia.
    simpl. unfold int_to_unsigned_long.
    destruct (fs <? 0) eqn:Hneg; [apply Z.ltb_lt in Hneg; lia|].
    rewrite Z.ltb_irrefl. eexists. split; [done|]. by rewrite Z.sub_diag.
  - cbn [ServerCached.send_body]. unfold int_to_unsigned_long.
    destruct (total <? 0) eqn:Hneg; [apply Z.ltb_lt in Hneg; lia|].
    destruct (total <? fs) eqn:Hlt.
    + apply Z.ltb_lt in Hlt.
      pose proof (Hacc k (fs - total) ltac:(lia)) as Hk.
      set (n := accept k (fs - total)) in *.
      destruct (IH (S k) (total + n)) as (evs & -> & Hb); [lia|lia|].
      cbn [mbind option_bind]. eexists. split; [done|].
      rewrite body_bytes_cons, Hb.
      replace (Z.to_nat (total + n)) with (Z.to_nat total + Z.to_nat n)%nat by lia.
      rewrite <- drop_drop, take_take_drop. f_equal. lia.
    + apply Z.ltb_ge in Hlt. assert (total = fs) as -> by lia.
      eexists. split; [done|]. by rewrite Z.sub_diag.
Qed.

(** Over such a transport [send_existing_http_response] returns, with the
    first [filesize] bytes of the struct sent. *)
Lemma deque_send_existing_ok accept r :
  (∀ k len, 0 < len → 0 < accept k len ≤ len) →
  ∃ body,
    ServerCached.send_existing_http_response accept r =
      Some (headers (filesize r) ++ body ++
            [EvLock LogMutex; EvLog (filename r) (filesize r); EvUnlock LogMutex]) ∧
    Forall (λ ev, is_body ev = true) body ∧
    body_bytes body = take (Z.to_nat (filesize r)) (response r).
Proof.
  intros Hacc. unfold ServerCached.send_existing_http_response.
  destruct (decide (0 ≤ filesize r)) as [Hfs|Hfs].
  - destruct (deque_send_body_ok (Z.to_nat (2 * filesize r)) accept 0 (response r)
                (filesize r) 0 Hacc) as (body & Hrun & Hb); [lia|lia|].
    rewrite Hrun. cbn [mbind option_bind]. exists body. split; [done|].
    split; [by eapply deque_send_body_bodies|].
    by rewrite Hb, Z.sub_0_r.
  - replace (Z.to_nat (2 * filesize r)) with O by lia.
    replace (Z.to_nat (filesize r)) with O by lia.
    cbn [ServerCached.send_body]. unfold int_to_unsigned_long.
    change (0 <? 0) with false. cbv iota.
    assert ((0 <? filesize r) = false) as -> by (apply Z.ltb_ge; lia).
    exists []. by repeat split.
Qed.

(** A [send] that fails at the first call ends the loop: [total_sent]
    is then -1, which is not below [filesize] as an [unsigned long]. *)
Lemma deque_send_existing_failed accept r :
  0 < filesize r < 2 ^ 64 → accept 0%nat (filesize r) = -1 →
  ServerCached.send_existing_http_response accept r =
    Some (headers (filesize r) ++ [EvSend (Body [])] ++
          [EvLock LogMutex; EvLog (filename r) (filesize r); EvUnlock LogMutex]).
Proof.
  intros Hfs Hfail. unfold ServerCached.send_existing_http_response.
  destruct (Z.to_nat (2 * filesize r)) as [|[|fuel]] eqn:Hfuel; [lia|lia|].
  cbn [ServerCached.send_body]. unfold int_to_unsigned_long.
  change (0 <? 0) with false. cbv iota.
  assert ((0 <? filesize r) = true) as -> by (apply Z.ltb_lt; lia).
  rewrite Z.sub_0_r, Hfail. change (0 + -1) with (-1). change (-1 <? 0) with true.
  cbv iota.
  assert ((-1 + 2 ^ 64 <? filesize r) = false) as -> by (apply Z.ltb_ge; lia).
  done.
Qed.

(** *** The loops of the miss path of [server_cached_naive.c] *)

Lemma naive_send_chunk_bodies fuel accept k mem total_read bytes_read sent evs k' sent' :
  ServerCachedNaive.send_chunk fuel accept k mem total_read bytes_read sent
    = Some (evs, k', sent') →
  Forall (λ ev, is_body ev = true) evs.
Proof.
  revert k sent evs k' sent'.
  induction fuel as [|fuel IH]; intros k sent evs k' sent';
    cbn [ServerCachedNaive.send_chunk];
    (destruct (sent <? total_read); [|by intros [= <- _ _]]); [done|].
  destruct (ServerCachedNaive.send_chunk fuel _ _ _ _ _ _) as [[[evs0 k0] s0]|] eqn:Hr;
    [|done].
  cbn [mbind option_bind]. intros [= <- _ _]. constructor; [done|]. by eapply IH.
Qed.

Lemma naive_read_send_loop_bodies fuel accept k rest total_read sent mem evs sent' :
  ServerCachedNaive.read_send_loop fuel accept k rest total_read sent mem
    = Some (evs, sent') →
  Forall (λ ev, is_body ev = true) evs.
Proof.
  revert k rest total_read sent evs sent'.
  induction fuel as [|fuel IH]; intros k rest total_read sent evs sent'; [done|].
  cbn [ServerCachedNaive.read_send_loop].
  destruct (take CHUNK rest) as [|x chunk]; [by intros [= <- _]|].
  destruct (ServerCachedNaive.send_chunk _ _ _ _ _ _ _) as [[[evs0 k0] s0]|] eqn:Hr;
    [|done].
  cbn [mbind option_bind]. apply naive_send_chunk_bodies in Hr.
  destruct (ServerCachedNaive.read_send_loop fuel _ _ _ _ _ _) as [[evs1 s1]|] eqn:Hl;
    [|done].
  cbn [mbind option_bind]. intros [= <- _]. apply IH in Hl.
  by apply Forall_app.
Qed.










End handlers.

(** ** The cache mutex of the naive server *)

Section cache_mutex.

Lemma in_critical_section_app tr1 tr2 :
  in_critical_section (tr1 ++ tr2) = foldl cs_step (in_critical_section tr1) tr2.
Proof. unfold in_critical_section. by rewrite foldl_app. Qed.

Lemma cs_step_quiet b tr :
  Forall (λ e, e ≠ EvLock CacheMutex ∧ e ≠ EvUnlock CacheMutex) tr →
  foldl cs_step b tr = b.
Proof.
  induction 1 as [|e tr [H1 H2] _ IH]; simpl; [done|].
  rewrite <- IH at 2. f_equal. by destruct e as [[]|[]| | | | | | | |].
Qed.

Lemma thread_trace_app t s1 s2 :
  thread_trace t (s1 ++ s2) = thread_trace t s1 ++ thread_trace t s2.
Proof. unfold thread_trace. by rewrite filter_app, fmap_app. Qed.

Lemma thread_trace_cons t x s :
  thread_trace t (x :: s) = (if decide (x.1 = t) then [x.2] else []) ++ thread_trace t s.
Proof. unfold thread_trace. rewrite filter_cons. by case_decide. Qed.

Lemma holder_after_app s1 s2 :
  holder_after (s1 ++ s2) = foldl holder_step (holder_after s1) s2.
Proof. unfold holder_after. by rewrite foldl_app. Qed.

Lemma mutex_ok_from_app h s1 s2 :
  mutex_ok_from h (s1 ++ s2) ↔
  mutex_ok_from h s1 ∧ mutex_ok_from (foldl holder_step h s1) s2.
Proof.
  revert h. induction s1 as [|x s1 IH]; intros h; simpl; [tauto|].
  rewrite IH. tauto.
Qed.

Lemma mutex_ok_take s n : mutex_ok s → mutex_ok (take n s).
Proof.
  unfold mutex_ok. rewrite <- (take_drop n s) at 1.
  rewrite mutex_ok_from_app. tauto.
Qed.

(** Under the mutex discipline the holder is the one thread that is in
    its critical section. *)
Lemma holder_in_critical_section s t :
  mutex_ok s →
  in_critical_section (thread_trace t s) = true ↔ holder_after s = Some t.
Proof.
  revert t. induction s as [|[u e] s IH] using rev_ind; intros t Hok; [done|].
  apply mutex_ok_from_app in Hok as [Hok Hx]. simpl in Hx. destruct Hx as [Hx _].
  rewrite thread_trace_app, in_critical_section_app, holder_after_app.
  rewrite thread_trace_cons. simpl. fold (holder_after s) in Hx.
  specialize (IH t Hok) as IHt. pose proof (IH u Hok) as IHu.
  unfold holder_step; simpl.
  case_decide as Hut; simpl.
  - subst u. by destruct e as [[]|[]| | | | | | | |].
  - destruct e as [[]|[]| | | | | | | |]; simpl; try done.
    + rewrite IHt, Hx. split; [done|congruence].
    + rewrite IHt, Hx. split; [congruence|done].
Qed.


Lemma quiet_take n tr :
  Forall (λ e, e ≠ EvLock CacheMutex ∧ e ≠ EvUnlock CacheMutex) tr →
  Forall (λ e, e ≠ EvLock CacheMutex ∧ e ≠ EvUnlock CacheMutex) (take n tr).
Proof. apply Forall_take. Qed.

(** Along a hit trace the thread is in its critical section from after
    the lock up to the unlock. *)
Lemma hit_critical_section name mid n :
  Forall (λ e, e ≠ EvLock CacheMutex ∧ e ≠ EvUnlock CacheMutex) mid →
  in_critical_section
    (take n ([EvLock CacheMutex; EvSearch name] ++ mid ++
             [EvUnlock CacheMutex; EvClose; EvExit])) = true
  ↔ (1 ≤ n ≤ 2 + length mid)%nat.
Proof.
  intros Hq. destruct n as [|[|n]].
  { simpl. split; [done|intros; exfalso; lia]. }
  { simpl. split; [intros; lia|done]. }
  cbn [app take]. rewrite take_app.
  change (in_critical_section (?x :: ?y :: ?l)) with (foldl cs_step true l).
  rewrite foldl_app, (cs_step_quiet true (take n mid)) by by apply quiet_take.
  destruct (decide (n ≤ length mid)%nat) as [Hn|Hn].
  - replace (n - length mid)%nat with O by lia. simpl. split; [lia|done].
  - destruct (n - length mid)%nat as [|[|[|m]]] eqn:E; [lia|..]; simpl;
      rewrite ?take_nil; simpl; (split; [done|intros; exfalso; lia]).
Qed.

Lemma hit_send_position name mid n e :
  ([EvLock CacheMutex; EvSearch name] ++ mid ++
   [EvUnlock CacheMutex; EvClose; EvExit]) !! n = Some e →
  is_send e = true → (2 ≤ n < 2 + length mid)%nat.
Proof.
  intros Hn He. destruct n as [|[|n]]; simplify_eq/=; [done..|].
  destruct (decide (n < length mid)%nat); [lia|].
  rewrite lookup_app_r in Hn by lia.
  destruct (n - length mid)%nat as [|[|[|m]]]; simplify_eq/=; done.
Qed.

Section threads.
Context (s : list (nat * event)) (t : nat) (tr : list event).
Hypothesis Hprefix : thread_trace t s `prefix_of` tr.

Lemma thread_trace_take x :
  thread_trace t (take x s) = take (length (thread_trace t (take x s))) tr.
Proof.
  destruct Hprefix as [rest ->].
  rewrite <- (take_drop x s) at 3. rewrite thread_trace_app, <- app_assoc.
  by rewrite take_app_length.
Qed.

Lemma thread_trace_lookup x e :
  s !! x = Some (t, e) → tr !! length (thread_trace t (take x s)) = Some e.
Proof.
  intros Hx. destruct Hprefix as [rest ->].
  rewrite <- (take_drop x s) at 2. rewrite (drop_S _ _ _ Hx).
  rewrite thread_trace_app, thread_trace_cons. simpl.
  rewrite decide_True by done. rewrite <- !app_assoc.
  by rewrite lookup_app_r, Nat.sub_diag by lia.
Qed.

Lemma thread_trace_mono x y :
  (x ≤ y)%nat →
  (length (thread_trace t (take x s)) ≤ length (thread_trace t (take y s)))%nat.
Proof.
  intros Hxy. replace y with (x + (y - x))%nat by lia.
  rewrite <- take_take_drop, thread_trace_app, length_app. lia.
Qed.
End threads.

(** Threads that serve hits never send in turns: the cache mutex keeps
    the transmissions apart. *)
Lemma hits_do_not_overlap s a b tra trb :
  mutex_ok s → a ≠ b →
  hit_shape tra → thread_trace a s `prefix_of` tra →
  hit_shape trb → thread_trace b s `prefix_of` trb →
  ¬ sends_overlap s a b.
Proof.
  intros Hok Hab (na & mida & -> & Hqa) Hpa (nb & midb & -> & Hqb) Hpb.
  intros (i & j & k & ei & ej & ek & Hijk & Hi & Hj & Hk & Hsi & Hsj & Hsk).
  pose proof (thread_trace_lookup s a _ Hpa i ei Hi) as Li.
  pose proof (thread_trace_lookup s a _ Hpa k ek Hk) as Lk.
  pose proof (thread_trace_lookup s b _ Hpb j ej Hj) as Lj.
  apply hit_send_position in Li; [|done].
  apply hit_send_position in Lk; [|done].
  apply hit_send_position in Lj; [|done].
  pose proof (thread_trace_mono s a i j ltac:(lia)) as Mij.
  pose proof (thread_trace_mono s a j k ltac:(lia)) as Mjk.
  assert (in_critical_section (thread_trace a (take j s)) = true) as Ca.
  { rewrite (thread_trace_take s a _ Hpa j). apply hit_critical_section; [done|lia]. }
  assert (in_critical_section (thread_trace b (take j s)) = true) as Cb.
  { rewrite (thread_trace_take s b _ Hpb j). apply hit_critical_section; [done|lia]. }
  apply holder_in_critical_section in Ca; [|by apply mutex_ok_take].
  apply holder_in_critical_section in Cb; [|by apply mutex_ok_take].
  congruence.
Qed.


Lemma send_body_quiet fuel accept k payload fs total :
  Forall (λ e, e ≠ EvLock CacheMutex ∧ e ≠ EvUnlock CacheMutex)
    (ServerCachedNaive.send_body fuel accept k payload fs total).1.
Proof.
  revert k total. induction fuel as [|fuel IH]; intros k total; simpl; [done|].
  destruct (total <? fs); [|done].
  destruct (accept k (fs - total) <=? 0); [by repeat constructor|].
  specialize (IH (S k) (total + accept k (fs - total))).
  destruct (ServerCachedNaive.send_body _ _ _ _ _ _) as [evs t]. simpl in *.
  by constructor.
Qed.

Lemma send_existing_quiet accept r :
  Forall (λ e, e ≠ EvLock CacheMutex ∧ e ≠ EvUnlock CacheMutex)
    (ServerCachedNaive.send_existing_http_response accept r).
Proof.
  unfold ServerCachedNaive.send_existing_http_response, headers.
  pose proof (send_body_quiet (Z.to_nat (filesize r)) accept 0 (response r) (filesize r) 0)
    as Hq.
  destruct (ServerCachedNaive.send_body _ _ _ _ _ _) as [evs t]. simpl in Hq.
  rewrite !Forall_app. split; [by repeat constructor|]. split; [done|].
  by repeat constructor.
Qed.

(** More [fuel] than bytes left to send changes nothing. *)
Lemma send_body_fuel fuel accept k payload fs total :
  (Z.to_nat (fs - total) ≤ fuel)%nat →
  ServerCachedNaive.send_body fuel accept k payload fs total =
  ServerCachedNaive.send_body (Z.to_nat (fs - total)) accept k payload fs total.
Proof.
  revert k total. induction fuel as [fuel IH] using lt_wf_ind; intros k total Hf.
  destruct fuel as [|fuel].
  { by replace (Z.to_nat (fs - total)) with O by lia. }
  destruct (Z.to_nat (fs - total)) as [|n] eqn:En.
  { simpl. destruct (Z.ltb_spec total fs); [lia|done]. }
  simpl. destruct (total <? fs); [|done].
  destruct (Z.leb_spec (accept k (fs - total)) 0); [done|].
  rewrite (IH fuel) by lia. symmetry. by rewrite (IH n) by lia.
Qed.

(** Over a transport that makes progress the loop delivers the whole
    payload, in order. *)
Lemma send_body_full fuel accept k payload fs total :
  (∀ k len, 0 < len → 0 < accept k len ≤ len) →
  fs = Z.of_nat (length payload) → 0 ≤ total ≤ fs →
  (Z.to_nat (fs - total) ≤ fuel)%nat →
  body_bytes (ServerCachedNaive.send_body fuel accept k payload fs total).1
    = drop (Z.to_nat total) payload ∧
  (ServerCachedNaive.send_body fuel accept k payload fs total).2 = fs.
Proof.
  intros Hok Hfs. revert k total. induction fuel as [|fuel IH]; intros k total Ht Hf.
  - simpl. rewrite drop_ge by lia. split; [done|lia].
  - simpl. destruct (Z.ltb_spec total fs) as [Hlt|Hge].
    2:{ simpl. rewrite drop_ge by lia. split; [done|lia]. }
    destruct (Hok k (fs - total) ltac:(lia)) as [Hpos Hle].
    destruct (Z.leb_spec (accept k (fs - total)) 0); [lia|].
    destruct (IH (S k) (total + accept k (fs - total)) ltac:(lia) ltac:(lia)) as [Hb Ht'].
    destruct (ServerCachedNaive.send_body _ _ _ _ _ _) as [evs t]. simpl in *.
    split; [|done].
    change (body_bytes (EvSend (Body ?b) :: ?l)) with (b ++ body_bytes l).
    rewrite Hb. rewrite <- (take_drop (Z.to_nat (accept k (fs - total)))
                              (drop (Z.to_nat total) payload)) at 2.
    f_equal. rewrite drop_drop. f_equal. lia.
Qed.

Lemma read_send_loop_quiet fuel accept k rest total sent mem evs sent' :
  ServerCachedNaive.read_send_loop fuel accept k rest total sent mem = Some (evs, sent') →
  Forall (λ e, e ≠ EvLock CacheMutex ∧ e ≠ EvUnlock CacheMutex ∧ e ≠ EvEnqueue) evs.
Proof.
  intros Hrun%naive_read_send_loop_bodies.
  eapply Forall_impl; [done|]. by intros [| | | | |[]| | | |].
Qed.

(** C8.  In the naive server a handler takes the cache mutex before the
    lookup.  On a hit everything it sends lies between that lock and the
    one unlock that follows the transmission, and over a transport that
    makes progress the whole payload of the struct has been sent by then;
    on a miss the unlock comes right after the lookup and the mutex is
    taken again only around [enqueue].  Hence in every schedule that
    respects the mutex, two threads serving hits never send in turns. *)
Theorem C8_naive_lock_discipline :
  (∀ pq e name tr pq',
     ServerCachedNaive.handle_client_connection pq e = Some (tr, pq') →
     req e = Some name →
     (∀ i, fst (PriorityQueue.search pq name (now e)) = Some i →
        hit_shape tr ∧
        ∀ r, PriorityQueue.item pq' i = Some r →
             filesize r = Z.of_nat (length (response r)) → transport_ok e →
             body_bytes tr = response r) ∧
     (fst (PriorityQueue.search pq name (now e)) = None → miss_shape tr)) ∧
  (∀ s a b tra trb,
     mutex_ok s → a ≠ b →
     hit_shape tra → thread_trace a s `prefix_of` tra →
     hit_shape trb → thread_trace b s `prefix_of` trb →
     ¬ sends_overlap s a b).
Proof.
  split; [|apply hits_do_not_overlap].
  intros pq e name tr pq' Hh Hreq.
  unfold ServerCachedNaive.handle_client_connection in Hh. rewrite Hreq in Hh.
  destruct (PriorityQueue.search pq name (now e)) as [[i|] pq1] eqn:Hs; simpl.
  - split; [intros ? [= <-]|done].
    destruct (PriorityQueue.item pq1 i) as [r|] eqn:Hr; simplify_eq/=.
    split.
    + exists name, (ServerCachedNaive.send_existing_http_response (accept e) r).
      split; [done|]. apply send_existing_quiet.
    + intros r' Hr' Hsize Hok. assert (r' = r) as -> by congruence.
      unfold ServerCachedNaive.send_existing_http_response.
      destruct (send_body_full (Z.to_nat (filesize r)) (accept e) 0 (response r)
                  (filesize r) 0 Hok Hsize) as [Hbody _]; [lia|lia|].
      destruct (ServerCachedNaive.send_body _ _ _ _ _ _) as [evs t]. simpl in Hbody.
      change (body_bytes (?x :: ?y :: ?l)) with (body_bytes l).
      rewrite !body_bytes_app, Hbody.
      change (Z.to_nat 0) with O. rewrite drop_0.
      change (body_bytes [EvLock LogMutex; EvLog (filename r) t; EvUnlock LogMutex])
        with (@nil Byte.byte).
      change (body_bytes [EvUnlock CacheMutex; EvClose; EvExit]) with (@nil Byte.byte).
      by rewrite !app_nil_r.
  - split; [done|intros _].
    exists name. cbn [fst snd] in Hh. destruct (file e) as [bytes|].
    2:{ apply (inj Some), pair_equal_spec in Hh as [<- <-].
        eexists. split; [done|]. left. repeat constructor; done. }
    destruct (alloc_new e); cbn [negb] in Hh.
    2:{ apply (inj Some), pair_equal_spec in Hh as [<- <-].
        eexists. split; [done|]. left. repeat constructor; done. }
    destruct (alloc_filename e); cbn [negb] in Hh.
    2:{ apply (inj Some), pair_equal_spec in Hh as [<- <-].
        eexists. split; [done|]. left. repeat constructor; done. }
    destruct (alloc_response e); cbn [negb] in Hh.
    2:{ apply (inj Some), pair_equal_spec in Hh as [<- <-].
        eexists. split; [done|]. left. repeat constructor; done. }
    destruct (ServerCachedNaive.read_send_loop _ _ _ _ _ _ _) as [[body sent]|] eqn:Hloop;
      cbn [mbind option_bind] in Hh; [|done].
    apply (inj Some), pair_equal_spec in Hh as [<- <-].
    eexists. split; [done|]. right.
    exists (headers (Z.of_nat (length bytes)) ++ body),
           [EvLock LogMutex; EvLog name sent; EvUnlock LogMutex;
            EvShutdown; EvClose; EvExit].
    split; [by rewrite <- !app_assoc|].
    rewrite !Forall_app. split; [split|].
    + repeat constructor; done.
    + by eapply read_send_loop_quiet.
    + repeat constructor; done.
Qed.

End cache_mutex.

Section witnesses.
Import Examples.

Lemma C8_witness :
  (∃ pq', ServerCachedNaive.handle_client_connection pq_ab env_hit_b
            = Some (hit_trace_b, pq')) ∧
  hit_shape hit_trace_b ∧
  body_bytes hit_trace_b = response page_b ∧
  ¬ sends_overlap serial_schedule 1 2.
Proof.
  destruct C8_naive_lock_discipline as [Hshape Hapart].
  destruct (Hshape pq_ab env_hit_b "b" hit_trace_b
              (snd (PriorityQueue.search pq_ab "b" (at_second 9))))
    as [Hhit _]; [vm_compute; reflexivity|done|].
  destruct (Hhit 0 eq_refl) as [Hsh Hfull].
  split; [eexists; vm_compute; reflexivity|]. split; [done|]. split.
  - apply (Hfull (set_access_time page_b (at_second 9))); [reflexivity|reflexivity|].
    intros k len Hlen. simpl. lia.
  - by apply (Hapart serial_schedule 1%nat 2%nat hit_trace_b hit_trace_b).
Defined.

Lemma C5_witness :
  PriorityQueue.size (foldl PriorityQueue.enqueue PriorityQueue.init six_pages) ≤ MAX ∧
  ∃ st' v', Deque.enqueue_all Deque.init five_inserts = Some st' ∧
            Deque.view st' v' ∧ (length v' ≤ 5)%nat ∧
            ∃ st'', Deque.enqueue st' page_f (Some 15%nat) = Some st''.
Proof.
  destruct (C5_capacity PriorityQueue.init six_pages Deque.init [] five_inserts
              PQFacts.init_wf DequeFacts.init_view)
    as [(_ & Hsize & _) (st' & v' & Hall & Hv' & Hlen & _ & Hfull)].
  - split; [by compute_done|]. intros p _. apply lookup_empty.
  - split; [done|]. exists st', v'. split; [done|]. split; [done|]. split; [done|].
    assert (st' = default Deque.init (Deque.enqueue_all Deque.init five_inserts)) as Hst
      by by rewrite Hall.
    destruct (Hfull page_f 15%nat) as (st'' & _ & _ & Henq & _).
    + rewrite Hst. by vm_compute.
    + rewrite Hst. by vm_compute.
    + by exists st''.
Defined.

End witnesses.

(** ** Time arithmetic *)

Section timespec_arith.
Import Examples MoreExamples.

(** X1.  [compare_timespec] is a three-way comparison: it returns 1, 0 or
    -1, swapping the arguments negates the result, 0 is returned for
    equal fields only, and "less" ([-1]) is transitive. *)
Theorem X1_compare_timespec_three_way a b c :
  (compare_timespec a b = 1 ∨ compare_timespec a b = 0 ∨ compare_timespec a b = -1) ∧
  compare_timespec b a = - compare_timespec a b ∧
  (compare_timespec a b = 0 ↔ a = b) ∧
  (compare_timespec a b = -1 → compare_timespec b c = -1 → compare_timespec a c = -1).
Proof.
  destruct a as [sa na], b as [sb nb], c as [sc nc].
  unfold compare_timespec; simpl.
  repeat split.
  - repeat case_match; auto.
  - repeat case_match; lia.
  - repeat case_match; try lia. intros _. f_equal; lia.
  - intros [= -> ->]. repeat case_match; lia.
  - repeat case_match; lia.
Qed.

(** X2.  On clock readings (nanosecond part below one second)
    [compare_timespec] orders by elapsed time. *)
Theorem X2_compare_timespec_elapsed a b
    (Ha : clock_reading a) (Hb : clock_reading b) :
  (compare_timespec a b = -1 ↔ ts_nanos a < ts_nanos b) ∧
  (compare_timespec a b = 0 ↔ ts_nanos a = ts_nanos b) ∧
  (compare_timespec a b = 1 ↔ ts_nanos a > ts_nanos b).
Proof.
  destruct a as [sa na], b as [sb nb].
  unfold clock_reading, ts_nanos, compare_timespec, NS_PER_SECOND in *; simpl in *.
  repeat case_match; repeat split; intros; try done; try nia.
Qed.

Lemma X2_witness :
  compare_timespec t_start t_finish = -1 ↔ ts_nanos t_start < ts_nanos t_finish.
Proof.
  apply (X2_compare_timespec_elapsed t_start t_finish);
    unfold clock_reading, LONG_MAX, NS_PER_SECOND; simpl; lia.
Defined.

(** X3.  [sub_timespec(t1, t2, &td)] stores [t2 - t1] (not [t1 - t2]):
    for two clock readings the result stands for the nanoseconds from
    [t1] to [t2], its nanosecond part is below one second in absolute
    value and never has the sign opposite to the seconds, and both fields
    fit a [long]. *)
Theorem X3_sub_timespec_difference t1 t2
    (H1 : clock_reading t1) (H2 : clock_reading t2) :
  let td := sub_timespec t1 t2 in
  ts_nanos td = ts_nanos t2 - ts_nanos t1 ∧
  - NS_PER_SECOND < tv_nsec td < NS_PER_SECOND ∧
  (0 < tv_sec td → 0 ≤ tv_nsec td) ∧ (tv_sec td < 0 → tv_nsec td ≤ 0) ∧
  - LONG_MAX ≤ tv_sec td ≤ LONG_MAX.
Proof.
  destruct t1 as [s1 n1], t2 as [s2 n2].
  unfold clock_reading, ts_nanos, sub_timespec, NS_PER_SECOND, LONG_MAX in *; simpl in *.
  repeat case_match; simpl; lia.
Qed.

Lemma X3_witness :
  ts_nanos (sub_timespec t_start t_finish) = ts_nanos t_finish - ts_nanos t_start.
Proof.
  apply (X3_sub_timespec_difference t_start t_finish);
    unfold clock_reading, LONG_MAX, NS_PER_SECOND; simpl; lia.
Defined.

(** X4.  When [t2] is not earlier than [t1] (the handlers pass [start]
    and [finish]) the result is itself normalised: seconds not negative
    and nanoseconds in [0, 1s), which is what the log line prints as
    [seconds.nanoseconds]. *)
Theorem X4_sub_timespec_elapsed t1 t2
    (H1 : clock_reading t1) (H2 : clock_reading t2) (Hle : ts_le t1 t2) :
  clock_reading (sub_timespec t1 t2) ∧
  (sub_timespec t1 t2 = {| tv_sec := 0; tv_nsec := 0 |} ↔ t1 = t2).
Proof.
  destruct t1 as [s1 n1], t2 as [s2 n2].
  unfold clock_reading, ts_le, sub_timespec, NS_PER_SECOND, LONG_MAX in *; simpl in *.
  repeat split; repeat case_match; simpl; try lia.
  all: try (intros [= ? ?]; f_equal; lia).
  all: try (intros [= -> ->]; f_equal; lia).
Qed.

Lemma X4_witness :
  sub_timespec t_start t_finish = {| tv_sec := 1; tv_nsec := 200000000 |} ∧
  clock_reading (sub_timespec t_start t_finish).
Proof.
  split; [reflexivity|].
  apply (X4_sub_timespec_elapsed t_start t_finish);
    unfold clock_reading, ts_le, LONG_MAX, NS_PER_SECOND; simpl; lia.
Defined.

End timespec_arith.

(** ** More on the priority queue *)

Section pq_operations.
Import PriorityQueue PQFacts PQRun Examples MoreExamples.

Lemma heapifyUp_size pq k : 0 ≤ k → size (heapifyUp pq k) = size pq.
Proof.
  intros Hk. remember (Z.to_nat k) as n eqn:En. revert pq k Hk En.
  induction n as [n IH] using lt_wf_ind; intros pq k Hk En.
  rewrite heapifyUp_unfold by done.
  destruct (k =? 0) eqn:E0; [done|].
  repeat case_match; try done.
  rewrite (IH (Z.to_nat (Z.quot (k - 1) 2))); [|zlia|zlia|done].
  apply size_swap.
Qed.

Lemma heapifyUp_length pq k : 0 ≤ k → length (items (heapifyUp pq k)) = length (items pq).
Proof.
  intros Hk. remember (Z.to_nat k) as n eqn:En. revert pq k Hk En.
  induction n as [n IH] using lt_wf_ind; intros pq k Hk En.
  rewrite heapifyUp_unfold by done.
  destruct (k =? 0) eqn:E0; [done|].
  repeat case_match; try done.
  rewrite (IH (Z.to_nat (Z.quot (k - 1) 2))); [|zlia|zlia|done].
  apply length_swap.
Qed.

(** [heapifyUp pq k] touches the slots on the way from [k] to the root
    only. *)
Lemma heapifyUp_above pq k i : 0 ≤ k → k < i → item (heapifyUp pq k) i = item pq i.
Proof.
  intros Hk. remember (Z.to_nat k) as n eqn:En. revert pq k Hk En.
  induction n as [n IH] using lt_wf_ind; intros pq k Hk En Hi.
  rewrite heapifyUp_unfold by done.
  destruct (k =? 0) eqn:E0; [done|].
  destruct (item pq (Z.quot (k - 1) 2)) as [p|] eqn:Hp; [|done].
  destruct (item pq k) as [c|] eqn:Hc; [|done].
  case_match; [|done].
  rewrite (IH (Z.to_nat (Z.quot (k - 1) 2))); [|zlia|zlia|done|zlia].
  rewrite (item_swap _ _ _ p c) by done.
  repeat case_decide; try done; zlia.
Qed.

(** On a well-formed queue and an index below [size] every pointer
    [heapifyUp] reads is valid, and the call is the one [heapifyUp]
    describes. *)
Lemma heapifyUp_strict_defined pq k :
  wf pq → 0 ≤ k < size pq → heapifyUp_strict pq k = Some (heapifyUp pq k).
Proof.
  unfold heapifyUp_strict. generalize (Nat.le_refl (Z.to_nat k)).
  generalize (Z.to_nat k) at 2 3 as n. intros n. revert pq k.
  induction n as [|n IH]; intros pq k Hn Hwf Hk.
  - assert (k = 0) as -> by lia. by rewrite heapifyUp_unfold.
  - rewrite heapifyUp_unfold by lia. cbn [heapifyUp_strict_rec].
    destruct (k =? 0) eqn:E0; [done|]. apply Z.eqb_neq in E0.
    destruct Hwf as (Hlen & Hsz & Hsome & Hnone).
    destruct (Hsome (Z.quot (k - 1) 2)) as [p Hp]; [zlia|].
    destruct (Hsome k) as [c Hc]; [lia|].
    rewrite Hp, Hc. cbn [mbind option_bind].
    destruct (compare_timespec _ _ =? -1); [|done].
    apply IH; [zlia|by apply wf_swap|rewrite size_swap; zlia].
Qed.

(** X5.  [heapifyUp], called as the code calls it (a well-formed queue and
    an index below [size]), reads valid pointers only and only
    rearranges: the queue stays well formed, the structs in it are the
    same before and after, [size] and the array keep their length, and no
    slot behind [index] is touched. *)
Theorem X5_heapifyUp_rearranges pq index
    (Hwf : wf pq) (Hindex : 0 ≤ index < size pq) :
  heapifyUp_strict pq index = Some (heapifyUp pq index) ∧
  wf (heapifyUp pq index) ∧
  entries (heapifyUp pq index) ≡ₚ entries pq ∧
  size (heapifyUp pq index) = size pq ∧
  length (items (heapifyUp pq index)) = length (items pq) ∧
  ∀ i, index < i → item (heapifyUp pq index) i = item pq i.
Proof.
  split; [by apply heapifyUp_strict_defined|].
  split; [apply heapifyUp_wf_size; [lia|done]|].
  split; [apply entries_heapifyUp; lia|].
  split; [apply heapifyUp_size; lia|].
  split; [apply heapifyUp_length; lia|].
  intros i Hi. apply heapifyUp_above; lia.
Qed.

Lemma X5_witness :
  heapifyUp_strict (store pq_ab 1 page_c) 1 = Some (heapifyUp (store pq_ab 1 page_c) 1) ∧
  entries (heapifyUp (store pq_ab 1 page_c) 1) ≡ₚ entries (store pq_ab 1 page_c).
Proof.
  destruct (X5_heapifyUp_rearranges (store pq_ab 1 page_c) 1) as (Hs & _ & Hp & _).
  - apply wf_store; [apply pq_ab_wf|]. by vm_compute.
  - by vm_compute.
  - by split.
Defined.

(** X6.  On a well-formed queue that is already in order [heapifyUp]
    changes nothing, for every index below [size]. *)
Theorem X6_heapifyUp_ordered_noop pq index
    (Hwf : wf pq) (Hh : heap_ordered pq) (Hindex : 0 ≤ index < size pq) :
  heapifyUp pq index = pq ∧ heapifyUp_strict pq index = Some pq.
Proof.
  assert (heapifyUp pq index = pq) as Heq.
  { rewrite heapifyUp_unfold by lia.
    destruct (index =? 0) eqn:E0; [done|].
    destruct (item pq (Z.quot (index - 1) 2)) as [p|] eqn:Hp; [|done].
    destruct (item pq index) as [c|] eqn:Hc; [|done].
    destruct (compare_timespec _ _ =? -1) eqn:Hcmp; [|done].
    apply Z.eqb_eq, compare_timespec_lt in Hcmp.
    assert (ts_le (access_time c) (access_time p)) as Hle
      by (apply (Hh index); [apply Z.eqb_neq in E0; lia|done|done]).
    exfalso. unfold ts_lt, ts_le in *. lia. }
  split; [done|]. by rewrite heapifyUp_strict_defined, Heq.
Qed.

Lemma X6_witness : heapifyUp pq_ab 1 = pq_ab ∧ heapifyUp_strict pq_ab 1 = Some pq_ab.
Proof.
  apply (X6_heapifyUp_ordered_noop pq_ab 1); [apply pq_ab_wf|apply pq_ab_wf|].
  by vm_compute.
Defined.

Lemma search_hit pq target now k :
  fst (search pq target now) = Some k →
  0 ≤ k < size pq ∧
  ∃ r, item pq k = Some r ∧ filename r = target ∧
       snd (search pq target now) = heapifyUp (store pq k (set_access_time r now)) k ∧
       ∀ j r', 0 ≤ j < k → item pq j = Some r' → filename r' ≠ target.
Proof.
  unfold search. destruct (search_loop _ _ _ _ _) as [ret pq'] eqn:Hs; simpl.
  intros ->. apply search_loop_hit in Hs as (Hk & r & Hr & Hn & -> & Hfirst).
  split; [lia|]. exists r. split_and!; try done.
Qed.

(** X7.  What the pointer returned by [search] points to after the call.
    The hit struct gets the new time and is sifted up; the pointer stays
    on its slot.  It designates the requested struct when the hit was in
    slot 0 or the parent slot is not older than the new time, and the
    struct that was in the parent slot otherwise. *)
Theorem X7_search_returned_pointer pq target now k r
    (Hhit : fst (search pq target now) = Some k) (Hr : item pq k = Some r) :
  let pq' := snd (search pq target now) in
  filename r = target ∧
  (k = 0 → deref pq' (Some k) = Some (set_access_time r now)) ∧
  (∀ p, 0 < k → item pq (Z.quot (k - 1) 2) = Some p →
     (ts_le now (access_time p) → deref pq' (Some k) = Some (set_access_time r now)) ∧
     (ts_lt (access_time p) now → deref pq' (Some k) = Some p)).
Proof.
  apply search_hit in Hhit as (Hk & r' & Hr' & Hname & -> & _).
  assert (r' = r) as -> by congruence.
  destruct (item_Some_range _ _ _ Hr) as [_ Hlen].
  assert (item (store pq k (set_access_time r now)) k = Some (set_access_time r now))
    as Hk' by (apply item_store_eq; [lia|done]).
  simpl. split; [done|]. split.
  - intros ->. by rewrite heapifyUp_unfold.
  - intros p Hpos Hp.
    assert (item (store pq k (set_access_time r now)) (Z.quot (k - 1) 2) = Some p) as Hp'.
    { rewrite item_store_ne; [done|zlia]. }
    rewrite heapifyUp_unfold by lia.
    destruct (k =? 0) eqn:E0; [lia|].
    rewrite Hp', Hk'. cbn [access_time set_access_time].
    split.
    + intros Hle. apply compare_timespec_not_lt in Hle.
      destruct (compare_timespec _ _ =? -1) eqn:Hc; [apply Z.eqb_eq in Hc; done|].
      done.
    + intros Hlt. apply compare_timespec_lt in Hlt. rewrite Hlt. simpl.
      rewrite heapifyUp_above by zlia.
      rewrite (item_swap _ _ _ p (set_access_time r now)) by done.
      by rewrite decide_True.
Qed.

Lemma X7_witness :
  deref (snd (search pq_ab "a" (at_second 3))) (Some 1) = Some page_b.
Proof.
  refine (proj2 (proj2 (proj2 (X7_search_returned_pointer pq_ab "a" (at_second 3) 1 page_a
    _ _)) page_b _ _) _).
  - reflexivity.
  - reflexivity.
  - lia.
  - reflexivity.
  - left. simpl. lia.
Defined.

Lemma search_size pq target now : size (snd (search pq target now)) = size pq.
Proof.
  destruct (fst (search pq target now)) as [k|] eqn:Hs.
  - apply search_hit in Hs as (Hk & r & _ & _ & -> & _).
    rewrite heapifyUp_size by lia. apply size_store.
  - unfold search in *. by rewrite (search_none_unchanged _ _ _ _ _ Hs).
Qed.

Lemma search_entries pq target now k r :
  fst (search pq target now) = Some k → item pq k = Some r →
  r :: entries (snd (search pq target now)) ≡ₚ set_access_time r now :: entries pq.
Proof.
  intros Hs Hr. apply search_hit in Hs as (Hk & r' & Hr' & _ & -> & _).
  assert (r' = r) as -> by congruence.
  rewrite entries_heapifyUp by lia. by apply entries_store.
Qed.

(** X8.  A hit of [search] is on the lowest slot that carries the name;
    it replaces the access time of that struct and nothing else: no
    struct is added or dropped and [size] stays. *)
Theorem X8_search_hit_contents pq target now k
    (Hhit : fst (search pq target now) = Some k) :
  ∃ r, item pq k = Some r ∧ filename r = target ∧
    (∀ j r', 0 ≤ j < k → item pq j = Some r' → filename r' ≠ target) ∧
    r :: entries (snd (search pq target now)) ≡ₚ set_access_time r now :: entries pq ∧
    size (snd (search pq target now)) = size pq.
Proof.
  destruct (search_hit _ _ _ _ Hhit) as (Hk & r & Hr & Hname & _ & Hfirst).
  exists r. split_and!; try done.
  - by apply (search_entries _ _ _ k).
  - apply search_size.
Qed.

Lemma X8_witness :
  ∃ r, item pq_ab 1 = Some r ∧ filename r = "a" ∧
    r :: entries (snd (search pq_ab "a" (at_second 3)))
      ≡ₚ set_access_time r (at_second 3) :: entries pq_ab.
Proof.
  destruct (X8_search_hit_contents pq_ab "a" (at_second 3) 1) as (r & ? & ? & _ & ? & _).
  - reflexivity.
  - by exists r.
Defined.

Lemma enqueue_elem pq value : wf pq → value ∈ entries (enqueue pq value).
Proof.
  intros Hwf. destruct (decide (size pq = MAX)) as [Hfull|Hroom].
  - rewrite enqueue_full_eq by done.
    pose proof (evict_index_range pq Hwf Hfull).
    rewrite entries_heapifyUp by lia.
    apply elem_of_entries. exists (evict_index pq).
    destruct (evict_index_item pq Hwf Hfull) as [old Hold].
    destruct (item_Some_range _ _ _ Hold). by apply item_store_eq.
  - rewrite enqueue_room_entries by done. left.
Qed.

Lemma enqueue_subset pq value r :
  wf pq → r ∈ entries (enqueue pq value) → r = value ∨ r ∈ entries pq.
Proof.
  intros Hwf Hr. destruct (decide (size pq = MAX)) as [Hfull|Hroom].
  - destruct (evict_index_item pq Hwf Hfull) as [old Hold].
    pose proof (enqueue_full_entries pq value Hwf Hfull old Hold) as Hp.
    assert (r ∈ value :: entries pq) as Hin by (rewrite <- Hp; by right).
    by apply elem_of_cons in Hin.
  - rewrite enqueue_room_entries in Hr by done. by apply elem_of_cons in Hr.
Qed.

(** X9.  A struct handed to [enqueue] is found by the next [search] for
    its name, whether the queue had room or was full. *)
Theorem X9_enqueue_then_search pq value now (Hwf : wf pq) :
  value ∈ entries (enqueue pq value) ∧
  is_Some (fst (search (enqueue pq value) (filename value) now)).
Proof.
  split; [by apply enqueue_elem|].
  apply search_hit_iff; [by apply enqueue_wf|].
  exists value. split; [by apply enqueue_elem|done].
Qed.

Lemma X9_witness :
  is_Some (fst (search (enqueue pq_ab page_c) "c" (at_second 7))).
Proof. apply (X9_enqueue_then_search pq_ab page_c (at_second 7)). apply pq_ab_wf. Defined.

Lemma inserted_app ops1 ops2 : inserted (ops1 ++ ops2) = inserted ops1 ++ inserted ops2.
Proof. unfold inserted. apply omap_app. Qed.

Lemma enqueue_size pq value :
  wf pq → size (enqueue pq value) = Z.min (size pq + 1) MAX.
Proof.
  intros Hwf. destruct (decide (size pq = MAX)) as [Hfull|Hroom].
  - rewrite enqueue_full_size by done. lia.
  - rewrite enqueue_room_size by done. destruct Hwf as (_ & ? & _). lia.
Qed.

Lemma run_shape pq ops :
  wf pq →
  wf (run pq ops) ∧
  size (run pq ops) = Z.min (size pq + Z.of_nat (length (inserted ops))) MAX.
Proof.
  revert pq. induction ops as [|o ops IH]; intros pq Hwf.
  - simpl. split; [done|]. destruct Hwf as (_ & ? & _). lia.
  - destruct o as [value|target now].
    + destruct (IH (enqueue pq value)) as [IH1 IH2]; [by apply enqueue_wf|].
      split; [done|]. change (run pq (OpEnqueue value :: ops)) with (run (enqueue pq value) ops).
      rewrite IH2, enqueue_size by done.
      change (inserted (OpEnqueue value :: ops)) with (value :: inserted ops).
      simpl length. lia.
    + destruct (IH (snd (search pq target now))) as [IH1 IH2]; [by apply search_wf|].
      split; [done|].
      change (run pq (OpSearch target now :: ops)) with (run (snd (search pq target now)) ops).
      rewrite IH2, search_size. done.
Qed.

Lemma wf_entries_length pq : wf pq → Z.of_nat (length (entries pq)) = size pq.
Proof.
  intros (Hlen & Hsz & Hsome & Hnone).
  assert (∀ (l : list (option HttpResponse)) (n : nat),
    (∀ i, (i < n)%nat → is_Some (mjoin (l !! i))) →
    (∀ i, (n ≤ i)%nat → mjoin (l !! i) = None) →
    (n ≤ length l)%nat → length (omap id l) = n) as Hgen.
  { induction l as [|x l IH]; intros n H1 H2 H3.
    - simpl in *. lia.
    - destruct n as [|n].
      + pose proof (H2 O ltac:(lia)) as H0. simpl in H0. destruct x; [done|].
        simpl. apply (IH O); [lia| |lia]. intros i _. apply (H2 (S i)). lia.
      + destruct (H1 O ltac:(lia)) as [r H0]. simpl in H0. destruct x; [|done].
        simpl. f_equal. apply IH.
        * intros i Hi. apply (H1 (S i)). lia.
        * intros i Hi. apply (H2 (S i)). lia.
        * simpl in H3. lia. }
  unfold entries. rewrite (Hgen (items pq) (Z.to_nat (size pq))); [lia| | |].
  - intros i Hi. specialize (Hsome (Z.of_nat i) ltac:(lia)).
    unfold item in Hsome. destruct (Z.of_nat i <? 0) eqn:E; [lia|].
    by rewrite Nat2Z.id in Hsome.
  - intros i Hi. specialize (Hnone (Z.of_nat i) ltac:(lia)).
    unfold item in Hnone. destruct (Z.of_nat i <? 0) eqn:E; [lia|].
    by rewrite Nat2Z.id in Hnone.
  - rewrite Hlen. unfold MAX in *. lia.
Qed.

(** X10.  Whatever sequence of [enqueue] and [search] calls follows
    [main]'s initialisation, with whatever clock, the queue keeps its
    shape (five slots, exactly the first [size] of them pointing to
    structs), and [size] is the number of [enqueue] calls made, capped at
    [MAX]: searches never change it and it never goes down. *)
Theorem X10_run_keeps_shape ops :
  wf (run init ops) ∧
  size (run init ops) = Z.min (Z.of_nat (length (inserted ops))) MAX ∧
  Z.of_nat (length (entries (run init ops))) = size (run init ops).
Proof.
  destruct (run_shape init ops init_wf) as [Hwf Hsize].
  split; [done|]. split; [by rewrite Hsize|]. by apply wf_entries_length.
Qed.

Lemma same_page_trans a b c : same_page a b → same_page b c → same_page a c.
Proof. unfold same_page. intros (-> & -> & ->) (-> & -> & ->). done. Qed.

Lemma run_provenance ops pq l :
  wf pq →
  (∀ r, r ∈ entries pq → ∃ v, v ∈ l ∧ same_page r v) →
  ∀ r, r ∈ entries (run pq ops) → ∃ v, v ∈ l ++ inserted ops ∧ same_page r v.
Proof.
  revert pq l. induction ops as [|o ops IH]; intros pq l Hwf Hpq r Hr.
  - simpl in Hr. rewrite app_nil_r. by apply Hpq.
  - destruct o as [value|target now].
    + change (run pq (OpEnqueue value :: ops)) with (run (enqueue pq value) ops) in Hr.
      change (inserted (OpEnqueue value :: ops)) with ([value] ++ inserted ops).
      rewrite app_assoc.
      apply (IH (enqueue pq value)); [by apply enqueue_wf| |done].
      intros r' Hr'. apply enqueue_subset in Hr' as [->|Hr']; [| |done].
      * exists value. split; [set_solver|done].
      * destruct (Hpq r' Hr') as (v & ? & ?). exists v. split; [set_solver|done].
    + change (run pq (OpSearch target now :: ops))
        with (run (snd (search pq target now)) ops) in Hr.
      change (inserted (OpSearch target now :: ops)) with (inserted ops).
      apply (IH (snd (search pq target now))); [by apply search_wf| |done].
      intros r' Hr'.
      destruct (fst (search pq target now)) as [k|] eqn:Hs.
      * destruct (search_hit _ _ _ _ Hs) as (_ & r0 & Hr0 & _ & _ & _).
        pose proof (search_entries _ _ _ _ _ Hs Hr0) as Hp.
        assert (r' ∈ set_access_time r0 now :: entries pq) as Hin
          by (rewrite <- Hp; by right).
        apply elem_of_cons in Hin as [->|Hin]; [|by apply Hpq].
        destruct (Hpq r0) as (v & ? & ?); [apply elem_of_entries; eauto|].
        exists v. split; [done|]. eapply same_page_trans; [|done]. done.
      * unfold search in *. apply search_none_unchanged in Hs. rewrite Hs in Hr'.
        by apply Hpq.
Qed.

(** X11.  The queue never makes up or mixes contents: after any sequence
    of [enqueue] and [search] calls every struct in it carries the name,
    the payload and the file size of a struct that was handed to
    [enqueue]; [swap] moves whole structs and [search] rewrites the access
    time only. *)
Theorem X11_run_provenance ops r :
  r ∈ entries (run init ops) → ∃ v, v ∈ inserted ops ∧ same_page r v.
Proof.
  intros Hr. apply (run_provenance ops init [] init_wf); [|done].
  intros r' Hr'. by vm_compute in Hr'; apply elem_of_nil in Hr'.
Qed.

Lemma X11_witness :
  ∃ v, v ∈ inserted [OpEnqueue page_a; OpSearch "a" (at_second 4)] ∧
       same_page (set_access_time page_a (at_second 4)) v.
Proof.
  apply (X11_run_provenance [OpEnqueue page_a; OpSearch "a" (at_second 4)]).
  vm_compute. left.
Defined.

(** X12.  The scan of [enqueue] on a full queue looks at the slots 2, 3
    and 4 only: the struct it frees is one with the smallest access time
    among these three, whatever the order of the array, and the structs
    of slots 0 and 1 are never the ones freed. *)
Theorem X12_eviction_window pq value
    (Hwf : wf pq) (Hfull : size pq = MAX)
    (Hrange : ∀ r, r ∈ entries pq → ts_in_range (access_time r)) :
  ∃ old, 2 ≤ evict_index pq ≤ 4 ∧ item pq (evict_index pq) = Some old ∧
    (∀ j r, 2 ≤ j ≤ 4 → item pq j = Some r → ts_le (access_time old) (access_time r)) ∧
    old :: entries (enqueue pq value) ≡ₚ value :: entries pq ∧
    (∀ j r, 0 ≤ j ≤ 1 → item pq j = Some r → r ∈ entries (enqueue pq value)).
Proof.
  destruct (evict_index_spec pq Hwf Hfull Hrange) as (old & Hk & Hold & Hmin).
  exists old. split_and!; try done; try lia.
  - by apply enqueue_full_entries.
  - intros j r Hj Hr. rewrite enqueue_full_eq by done.
    rewrite entries_heapifyUp by lia.
    apply elem_of_entries. exists j. rewrite item_store_ne; [done|lia].
Qed.

Lemma X12_witness :
  ∃ old, item pq_five (evict_index pq_five) = Some old ∧
    old :: entries (enqueue pq_five page_f) ≡ₚ page_f :: entries pq_five ∧
    page_e ∈ entries (enqueue pq_five page_f).
Proof.
  destruct (X12_eviction_window pq_five page_f) as (old & _ & Hold & _ & Hperm & Hkeep).
  - unfold pq_five. apply (run_shape init (OpEnqueue <$> five_pages) init_wf).
  - by vm_compute.
  - intros r Hr.
    assert (entries pq_five = [page_e; page_d; page_b; page_a; page_c]) as Heq
      by by vm_compute.
    rewrite Heq in Hr. set_unfold.
    destruct Hr as [->|[->|[->|[->|[->|[]]]]]]; by compute.
  - exists old. split; [done|]. split; [done|].
    apply (Hkeep 0); [lia|by vm_compute].
Defined.

End pq_operations.

(** ** More on the deque *)

Section deque_operations.
Import Deque DequeFacts DequeRun Examples MoreExamples.

Lemma walk_linked m l fuel i :
  linked m l → walk fuel m (l !! i) = take fuel (drop i l).
Proof.
  intros Hl. revert i. induction fuel as [|fuel IH]; intros i; [done|].
  destruct (l !! i) as [p|] eqn:Hi.
  - rewrite (drop_S _ _ _ Hi). simpl.
    destruct (proj2 Hl i p Hi) as (n & -> & _ & _ & ->). by rewrite IH.
  - apply lookup_ge_None in Hi. rewrite drop_ge by lia. done.
Qed.

Lemma walk_back_None fuel m : walk_back fuel m None = [].
Proof. by destruct fuel. Qed.

Lemma walk_back_linked m l fuel i p :
  linked m l → l !! i = Some p →
  walk_back fuel m (Some p) = take fuel (reverse (take (S i) l)).
Proof.
  intros Hl. revert i p. induction fuel as [|fuel IH]; intros i p Hi; [done|].
  rewrite (take_S_r _ _ _ Hi), reverse_app. simpl.
  destruct (proj2 Hl i p Hi) as (n & -> & _ & -> & _). f_equal.
  destruct i as [|j].
  - rewrite walk_back_None. by destruct fuel.
  - destruct (l !! j) as [q|] eqn:Hj.
    + by apply IH.
    + apply lookup_ge_None in Hj. apply lookup_lt_Some in Hi. lia.
Qed.

Lemma view_delete st v p :
  view st v → p ∉ v.*1 →
  view {| nodes := delete p (nodes st); deck := deck st |} v.
Proof.
  intros [((Hnd & Hl) & Hh & Ht & Hs & Hmax & Hval) Hd] Hp.
  split; [split; [split; [done|]|split; [done|split; [done|split; [done|split; [done|]]]]]|];
    cbn [nodes deck].
  - intros i q Hq. destruct (Hl _ _ Hq) as (n & Hn & ?).
    exists n. split; [|done]. rewrite lookup_delete_ne; [done|].
    intros ->. apply Hp. by eapply list_elem_of_lookup_2.
  - intros q n Hq. apply lookup_delete_Some in Hq as [_ Hq]. eauto.
  - apply Forall_forall. intros [q r] Hq. simpl.
    rewrite Forall_forall in Hd. specialize (Hd _ Hq). simpl in Hd.
    rewrite lookup_delete_ne; [done|]. intros ->. apply Hp.
    apply list_elem_of_fmap. by exists (q, r).
Qed.

Lemma insert_alter_eq (m : gmap nat Node) (p : nat) (n : Node) f :
  m !! p = Some n → <[p := f n]> m = alter f p m.
Proof.
  intros Hn. apply map_eq. intros q. destruct (decide (p = q)) as [->|].
  - by rewrite lookup_insert_eq, lookup_alter_eq, Hn.
  - by rewrite lookup_insert_ne, lookup_alter_ne.
Qed.

Lemma put_down_view st v p n :
  view st v → nodes st !! p = Some n →
  ∃ st', put_down st p = Some st' ∧ view st' v ∧
    nodes st' !! p =
      (if bool_decide (reference_count n = 1 ∧ valid n = 0) then None
       else Some (set_reference_count (reference_count n - 1) n)) ∧
    ∀ q, q ≠ p → nodes st' !! q = nodes st !! q.
Proof.
  intros Hv Hn. rewrite (put_down_spec _ _ _ Hn). eexists. split; [done|].
  case_bool_decide as Hc; cbn [nodes deck].
  - split; [|split; [by rewrite lookup_delete_eq|by intros; rewrite lookup_delete_ne]].
    apply view_delete; [done|]. intros Hin.
    destruct Hv as [(Hl & _) _]. pose proof (linked_valid _ _ _ _ Hl Hin Hn). lia.
  - split; [|split; [by rewrite lookup_insert_eq|by intros; rewrite lookup_insert_ne]].
    rewrite (insert_alter_eq _ _ n (set_reference_count (reference_count n - 1))) by done.
    by apply view_alter.
Qed.

Lemma search_pin_view st v fuel fname p r :
  view st v → (length v ≤ fuel)%nat → find (name_is fname) v = Some (p, r) →
  ∃ n, nodes st !! p = Some n ∧ data n = r ∧ valid n = 1 ∧
    search fuel st fname =
      Some (Some p, {| nodes := <[p := pin n]> (nodes st); deck := deck st |}) ∧
    view {| nodes := <[p := pin n]> (nodes st); deck := deck st |} v.
Proof.
  intros Hv Hfuel Hfind. rewrite (search_view _ _ _ _ Hv Hfuel), Hfind. simpl.
  apply find_some in Hfind as [Hin%list_elem_of_In _].
  destruct Hv as [Hrep Hd]. pose proof Hd as Hd'.
  rewrite Forall_forall in Hd'. specialize (Hd' _ Hin). simpl in Hd'.
  destruct (nodes st !! p) as [n|] eqn:Hn; [|done]. simpl in Hd'. simplify_eq.
  exists n. split; [done|]. split; [done|].
  assert (p ∈ v.*1) as Hp by (apply list_elem_of_fmap; by exists (p, data n)).
  split; [by eapply linked_valid; [apply Hrep|..]|].
  rewrite (insert_alter_eq _ _ n pin) by done. split; [done|].
  by apply view_alter.
Qed.

Lemma pin_put_down st p n :
  nodes st !! p = Some n → valid n = 1 →
  put_down {| nodes := <[p := pin n]> (nodes st); deck := deck st |} p = Some st.
Proof.
  intros Hn Hval. unfold put_down. cbn [nodes deck]. rewrite lookup_insert_eq. simpl.
  rewrite Hval. rewrite andb_false_r.
  destruct st as [m d]. simpl in *. do 2 f_equal.
  rewrite insert_insert_eq. apply insert_id. rewrite Hn. f_equal.
  destruct n; unfold pin, set_reference_count; simpl; f_equal; lia.
Qed.

(** X13.  [search] followed by [put_down] on the node it returned gives
    back the state before the [search], as long as the node was not
    retired in between: the reference taken is returned and nothing is
    freed. *)
Theorem X13_search_put_down_round_trip st v fuel fname p r
    (Hv : view st v) (Hfuel : (length v ≤ fuel)%nat)
    (Hfind : find (name_is fname) v = Some (p, r)) :
  ∃ st1, search fuel st fname = Some (Some p, st1) ∧
         data <$> nodes st1 !! p = Some r ∧
         put_down st1 p = Some st.
Proof.
  destruct (search_pin_view _ _ _ _ _ _ Hv Hfuel Hfind) as (n & Hn & Hd & Hval & -> & _).
  eexists. split; [done|]. cbn [nodes]. rewrite lookup_insert_eq. simpl.
  split; [by rewrite Hd|]. by apply pin_put_down.
Qed.

Lemma X13_witness :
  ∃ st st1, enqueue_all init two_inserts = Some st ∧
    search 5 st "a" = Some (Some 10%nat, st1) ∧ put_down st1 10%nat = Some st.
Proof.
  destruct two_inserts_view as (st & Hst & Hv).
  destruct (X13_search_put_down_round_trip st _ 5 "a" 10%nat page_a Hv)
    as (st1 & ? & _ & ?); [simpl; lia|reflexivity|].
  by exists st, st1.
Defined.

Lemma enqueue_all_nodes st v reqs :
  view st v → allocs_fresh st reqs →
  ∃ st', enqueue_all st reqs = Some st' ∧
    view st' (take (Z.to_nat MAX_CACHE_COUNT) (reverse (succeeded reqs) ++ v)) ∧
    ∀ q n, nodes st !! q = Some n →
      ∃ n', nodes st' !! q = Some n' ∧ data n' = data n ∧
            reference_count n' = reference_count n ∧
            (valid n' = valid n ∨ valid n' = 0).
Proof.
  revert st v. induction reqs as [|[new [p|]] reqs IH]; intros st v Hv [Hnd Hfresh].
  - exists st. split; [done|]. split; [|intros q n Hq; exists n; auto]. simpl.
    rewrite take_ge; [done|]. destruct Hv as [(_ & _ & _ & Hs & Hmax & _) _].
    rewrite length_fmap in Hs. lia.
  - simpl in Hnd, Hfresh. apply NoDup_cons in Hnd as [Hp Hnd].
    destruct (enqueue_view st v new p Hv) as (st1 & Henq & Hst1 & Hv1).
    { apply Hfresh. set_solver. }
    destruct (IH st1 _ Hv1) as (st' & Hall & Hv' & Hkeep).
    { split; [done|]. intros q Hq. apply Hst1; [set_solver|]. apply Hfresh. set_solver. }
    exists st'. cbn [enqueue_all]. rewrite Henq. split; [done|]. split.
    + rewrite take_app_take in Hv'.
      change (succeeded ((new, Some p) :: reqs)) with ((p, new) :: succeeded reqs).
      by rewrite reverse_cons, <- app_assoc.
    + intros q n Hq.
      assert (q ≠ p) as Hqp.
      { intros ->. rewrite Hfresh in Hq; [done|set_solver]. }
      destruct Hst1 as (_ & _ & Hold & _).
      destruct (Hold q n Hqp Hq) as (n1 & Hn1 & Hd1 & Hr1 & Hv1').
      destruct (Hkeep q n1 Hn1) as (n' & Hn' & Hd' & Hr' & Hv'').
      exists n'. split; [done|]. split; [congruence|]. split; [congruence|].
      destruct (_ && _); lia.
  - cbn [enqueue_all enqueue]. simpl. apply IH; [done|]. by split.
Qed.

Lemma succeeded_fresh st reqs p r :
  allocs_fresh st reqs → (p, r) ∈ succeeded reqs → nodes st !! p = None.
Proof.
  intros [_ Hfresh] Hin. apply Hfresh.
  unfold succeeded in Hin. apply list_elem_of_omap in Hin as ([new a] & Hx & Ha).
  simpl in Ha. destruct a as [a|]; simplify_eq/=.
  apply list_elem_of_omap. by exists (r, Some p).
Qed.

(** X14.  A node a reader holds outlives its eviction.  After [search]
    returned a node, any run of inserts leaves the node allocated with its
    struct and its reference count as they were; once five inserts have
    pushed it off the list it is marked invalid, and the [put_down] of
    the reader frees it if no other reference is left and keeps it
    otherwise.  The list itself is not affected by that [put_down]. *)
Theorem X14_pinned_node_outlives_eviction st v fuel fname p r reqs
    (Hv : view st v) (Hfuel : (length v ≤ fuel)%nat)
    (Hfind : find (name_is fname) v = Some (p, r))
    (Hfresh : allocs_fresh st reqs) :
  ∃ st1 st2 n n2,
    nodes st !! p = Some n ∧
    search fuel st fname = Some (Some p, st1) ∧
    enqueue_all st1 reqs = Some st2 ∧
    nodes st2 !! p = Some n2 ∧ data n2 = r ∧
    reference_count n2 = reference_count n + 1 ∧
    ((5 ≤ length (succeeded reqs))%nat →
       valid n2 = 0 ∧
       ∃ st3, put_down st2 p = Some st3 ∧
         view st3 (take 5 (reverse (succeeded reqs))) ∧
         (reference_count n = 0 → nodes st3 !! p = None) ∧
         (reference_count n ≠ 0 → data <$> nodes st3 !! p = Some r)).
Proof.
  destruct (search_pin_view _ _ _ _ _ _ Hv Hfuel Hfind)
    as (n & Hn & Hd & Hval & Hsearch & Hv1).
  set (st1 := {| nodes := <[p := pin n]> (nodes st); deck := deck st |}) in *.
  assert (allocs_fresh st1 reqs) as Hfresh1.
  { destruct Hfresh as [Hnd Hf]. split; [done|]. intros q Hq. simpl.
    rewrite lookup_insert_ne; [by apply Hf|]. intros ->. rewrite Hf in Hn; done. }
  destruct (enqueue_all_nodes st1 v reqs Hv1 Hfresh1) as (st2 & Hall & Hv2 & Hkeep).
  destruct (Hkeep p (pin n)) as (n2 & Hn2 & Hd2 & Hr2 & Hval2).
  { simpl. by rewrite lookup_insert_eq. }
  change (data (pin n)) with (data n) in Hd2.
  change (reference_count (pin n)) with (reference_count n + 1) in Hr2.
  change (valid (pin n)) with (valid n) in Hval2.
  exists st1, st2, n, n2. split_and!; try done.
  { congruence. }
  intros Hfive.
  assert (take (Z.to_nat MAX_CACHE_COUNT) (reverse (succeeded reqs) ++ v)
          = take 5 (reverse (succeeded reqs))) as Heq.
  { change (Z.to_nat MAX_CACHE_COUNT) with 5%nat.
    rewrite take_app_le; [done|]. rewrite length_reverse. lia. }
  rewrite Heq in Hv2.
  assert (p ∉ (take 5 (reverse (succeeded reqs))).*1) as Hnotin.
  { intros ([q r'] & -> & Hin)%list_elem_of_fmap. simpl in *.
    apply subseteq_take in Hin. rewrite elem_of_reverse in Hin.
    rewrite (succeeded_fresh _ _ _ _ Hfresh Hin) in Hn. done. }
  assert (valid n2 = 0) as Hv0.
  { destruct Hval2 as [Hsame|?]; [|done]. exfalso. apply Hnotin.
    destruct Hv2 as [(_ & _ & _ & _ & _ & Hin) _]. apply (Hin p n2 Hn2).
    rewrite Hsame. done. }
  split; [done|].
  destruct (put_down_view _ _ _ _ Hv2 Hn2) as (st3 & Hput & Hv3 & Hp3 & _).
  exists st3. split_and!; try done.
  - intros H0. rewrite Hp3, bool_decide_true; [done|]. lia.
  - intros H0. rewrite Hp3, bool_decide_false; [|lia].
    unfold set_reference_count. simpl. congruence.
Qed.

Lemma five_inserts_view : ∃ st, enqueue_all init five_inserts = Some st ∧
  view st [(14%nat, page_e); (13%nat, page_d); (12%nat, page_c);
           (11%nat, page_b); (10%nat, page_a)].
Proof.
  destruct (enqueue_all_view init [] five_inserts init_view) as (st & Hst & Hv).
  - split; [by compute_done|]. intros p _. apply lookup_empty.
  - exists st. split; [done|]. apply Hv.
Qed.

Lemma X14_witness :
  ∃ st st1 st2 st3 n2,
    enqueue_all init five_inserts = Some st ∧
    search 5 st "a" = Some (Some 10%nat, st1) ∧
    enqueue_all st1 five_more_inserts = Some st2 ∧
    nodes st2 !! 10%nat = Some n2 ∧ data n2 = page_a ∧ valid n2 = 0 ∧
    put_down st2 10%nat = Some st3 ∧ nodes st3 !! 10%nat = None.
Proof.
  destruct five_inserts_view as (st & Hst & Hv).
  assert (st = default init (enqueue_all init five_inserts)) as Hst' by by rewrite Hst.
  destruct (X14_pinned_node_outlives_eviction st _ 5 "a" 10%nat page_a five_more_inserts Hv)
    as (st1 & st2 & n & n2 & Hn & Hs & Hall & Hn2 & Hd & Hr & Hfive).
  - simpl. lia.
  - reflexivity.
  - split; [by compute_done|]. intros p Hp. rewrite Hst'.
    simpl in Hp. set_unfold. by destruct Hp as [->|[->|[->|[->|[->|[]]]]]].
  - destruct Hfive as (Hv0 & st3 & Hput & _ & Hfree & _); [simpl; lia|].
    exists st, st1, st2, st3, n2.
    split; [exact Hst|]. split; [exact Hs|]. split; [exact Hall|].
    split; [exact Hn2|]. split; [exact Hd|]. split; [exact Hv0|].
    split; [exact Hput|].
    apply Hfree. rewrite Hst' in Hn. vm_compute in Hn. by injection Hn as <-.
Defined.

Lemma search_loop_result fuel m curr fname ret m' :
  search_loop fuel m curr fname = Some (ret, m') →
  m' = m ∨ ∃ p n, m !! p = Some n ∧ m' = <[p := pin n]> m.
Proof.
  revert curr. induction fuel as [|fuel IH]; intros [p|] Hs; simpl in Hs;
    simplify_eq; auto.
  destruct (m !! p) as [n|] eqn:Hn; [|done]. simpl in Hs.
  destruct (streq _ _).
  - simplify_eq. right. by exists p, n.
  - by eapply IH.
Qed.

Lemma search_keeps_view st v fuel fname ret st' :
  view st v → search fuel st fname = Some (ret, st') → view st' v.
Proof.
  intros Hv. unfold search. destruct (size (deck st) =? 0); [by intros [= _ <-]|].
  destruct (search_loop _ _ _ _) as [[r m]|] eqn:Hs; [|done]. simpl.
  intros [= _ <-]. apply search_loop_result in Hs as [->|(p & n & Hn & ->)].
  - by destruct st.
  - rewrite (insert_alter_eq _ _ n pin) by done. by apply view_alter.
Qed.

Lemma reachable_view st : reachable st → ∃ v, view st v.
Proof.
  induction 1 as [|st fuel fname ret st' _ [v Hv] Hs
                  |st new [p|] st' _ [v Hv] Hfresh Henq
                  |st node st' _ [v Hv] Hput].
  - exists []. apply init_view.
  - exists v. by eapply search_keeps_view.
  - destruct (enqueue_view st v new p Hv) as (st'' & Henq' & _ & Hv'); [by apply Hfresh|].
    assert (st'' = st') as -> by congruence. eauto.
  - simpl in Henq. simplify_eq. eauto.
  - destruct (nodes st !! node) as [n|] eqn:Hn.
    + destruct (put_down_view _ _ _ _ Hv Hn) as (st'' & Hput' & Hv' & _).
      assert (st'' = st') as -> by congruence. eauto.
    + unfold put_down in Hput. rewrite Hn in Hput. done.
Qed.

Lemma represents_walks_fuel st l fuel :
  represents st l → (length l ≤ fuel)%nat →
  walk fuel (nodes st) (head (deck st)) = l ∧
  walk_back fuel (nodes st) (tail (deck st)) = reverse l.
Proof.
  intros (Hl & -> & -> & _) Hfuel. split.
  - rewrite walk_linked by done. rewrite drop_0. by apply take_ge.
  - destruct (last l) as [p|] eqn:Hlast.
    + rewrite last_lookup in Hlast.
      rewrite (walk_back_linked _ l _ _ _ Hl Hlast).
      assert (S (Nat.pred (length l)) = length l) as ->
        by (apply lookup_lt_Some in Hlast; lia).
      rewrite firstn_all. apply take_ge. by rewrite length_reverse.
    + apply last_None in Hlast as ->. apply walk_back_None.
Qed.

(** X15.  In every state the server can get to, the deque is a proper
    doubly linked list of at most five nodes: following [next] from
    [head] and following [prev] from [tail] visit the same nodes in
    opposite orders (so both walks end in [NULL] and never leave the
    allocated nodes), [size] is their number, and the nodes marked valid
    are exactly the ones on the list. *)
Theorem X15_reachable_deque_well_linked st (Hreach : reachable st) :
  ∃ l, represents st l ∧
       walk 5 (nodes st) (head (deck st)) = l ∧
       walk_back 5 (nodes st) (tail (deck st)) = reverse l ∧
       size (deck st) = Z.of_nat (length l) ∧ (length l ≤ 5)%nat.
Proof.
  destruct (reachable_view st Hreach) as [v [Hrep _]].
  exists (v.*1). split; [done|].
  assert (length v.*1 ≤ 5)%nat as Hlen.
  { destruct Hrep as (_ & _ & _ & Hs & Hmax & _). unfold MAX_CACHE_COUNT in Hmax. lia. }
  destruct (represents_walks_fuel st _ 5 Hrep Hlen) as [-> ->].
  split_and!; try done. by destruct Hrep as (_ & _ & _ & ? & _).
Qed.

Lemma X15_witness :
  ∃ st, enqueue_all init two_inserts = Some st ∧
    walk 5 (nodes st) (head (deck st)) = [11; 10]%nat ∧
    walk_back 5 (nodes st) (tail (deck st)) = [10; 11]%nat.
Proof.
  exists (default init (enqueue_all init two_inserts)).
  split; [by vm_compute|].
  destruct (X15_reachable_deque_well_linked (default init (enqueue_all init two_inserts)))
    as (l & _ & Hw & Hb & _).
  - eapply (reach_enqueue (default init (enqueue init page_a (Some 10%nat)))
              page_b (Some 11%nat)).
    + eapply (reach_enqueue init page_a (Some 10%nat)).
      * apply reach_init.
      * intros p _. apply lookup_empty.
      * by vm_compute.
    + intros p [= <-]. by vm_compute.
    + by vm_compute.
  - split; [by vm_compute|by vm_compute].
Defined.

(** X16.  [remove_tail] needs a deque of at least two nodes.  There it
    unlinks the last node: the node before it becomes the tail, the old
    tail stays allocated with [valid = 0], and [size] is left as it was
    (one more than the nodes now linked, until [enqueue] links the new
    head).  On a deque of one node or none it writes through [NULL]. *)
Theorem X16_remove_tail st l (Hrep : represents st l) :
  ((2 ≤ length l)%nat →
     ∃ st' old o t,
       last l = Some old ∧ nodes st !! old = Some o ∧ prev o = Some t ∧
       remove_tail st = Some st' ∧
       linked (nodes st') (take (length l - 1) l) ∧
       last (take (length l - 1) l) = Some t ∧
       deck st' = {| head := head (deck st); tail := Some t; size := size (deck st) |} ∧
       nodes st' !! old = Some (set_valid 0 o)) ∧
  ((length l ≤ 1)%nat → remove_tail st = None).
Proof.
  destruct Hrep as (Hl & Hh & Ht & Hs & Hmax & Hval). split.
  - intros Hlen. destruct (last l) as [old|] eqn:Hlast;
      [|apply last_None in Hlast as ->; simpl in Hlen; lia].
    destruct (unlink_tail _ _ _ Hl Hlen Hlast)
      as (o & t & tn & Ho & Hprev & Htn & Hne & Hlast' & Hrt & Hl').
    specialize (Hrt (deck st)). rewrite decide_True in Hrt by done.
    exists {| nodes := <[old := set_valid 0 o]> (<[t := set_next None tn]> (nodes st));
              deck := {| head := head (deck st); tail := Some t; size := size (deck st) |} |},
      old, o, t.
    assert (remove_tail st = Some
      {| nodes := <[old := set_valid 0 o]> (<[t := set_next None tn]> (nodes st));
         deck := {| head := head (deck st); tail := Some t; size := size (deck st) |} |})
      as Hrt' by (destruct st; apply Hrt).
    split_and!; try done. cbn [nodes]. by rewrite lookup_insert_eq.
  - intros Hlen. unfold remove_tail. rewrite Ht.
    destruct l as [|p [|q l]]; [done| |simpl in Hlen; lia].
    simpl. destruct (proj2 Hl O p eq_refl) as (n & -> & _ & Hp & _). simpl.
    by rewrite Hp.
Qed.

Lemma X16_witness :
  ∃ st st', enqueue_all init two_inserts = Some st ∧
    remove_tail st = Some st' ∧ tail (deck st') = Some 11%nat ∧
    size (deck st') = 2 ∧ valid <$> nodes st' !! 10%nat = Some 0.
Proof.
  destruct two_inserts_view as (st & Hst & [Hrep _]).
  assert (st = default init (enqueue_all init two_inserts)) as Hst' by by rewrite Hst.
  destruct (X16_remove_tail st _ Hrep) as [Hrt _].
  destruct Hrt as (st' & old & o & t & Hlast & Ho & Hprev & Hrt & _ & Hlast' & Hd & Hold);
    [simpl; lia|].
  exists st, st'. split; [done|]. split; [done|].
  simpl in Hlast, Hlast'. simplify_eq. rewrite Hd, Hold. simpl.
  split; [done|]. split; [|done]. by vm_compute.
Defined.

(** X17.  The deque is a first-in first-out buffer of the successful
    inserts: after any run of [enqueue] calls from [main]'s empty deque it
    lists the five most recent inserts whose [malloc] succeeded, newest at
    the head, each node owning the struct it was given. *)
Theorem X17_deque_keeps_newest_five reqs (Hfresh : NoDup (omap snd reqs)) :
  ∃ st', enqueue_all init reqs = Some st' ∧
    view st' (take 5 (reverse (succeeded reqs))) ∧
    walk 5 (nodes st') (head (deck st')) = (take 5 (reverse (succeeded reqs))).*1 ∧
    size (deck st') = Z.min (Z.of_nat (length (succeeded reqs))) 5.
Proof.
  destruct (enqueue_all_view init [] reqs init_view) as (st' & Hall & Hv).
  { split; [done|]. intros p _. apply lookup_empty. }
  rewrite app_nil_r in Hv. change (Z.to_nat MAX_CACHE_COUNT) with 5%nat in Hv.
  exists st'. split; [done|]. split; [done|].
  destruct Hv as [Hrep _].
  assert (length (take 5 (reverse (succeeded reqs))).*1
          = Nat.min 5 (length (succeeded reqs))) as Hlen
    by by rewrite length_fmap, length_take, length_reverse.
  destruct (represents_walks_fuel st' _ 5 Hrep) as [-> _]; [lia|].
  split; [done|]. destruct Hrep as (_ & _ & _ & -> & _). lia.
Qed.

Lemma X17_witness :
  ∃ st', enqueue_all init five_inserts = Some st' ∧
    walk 5 (nodes st') (head (deck st')) = [14; 13; 12; 11; 10]%nat.
Proof.
  destruct (X17_deque_keeps_newest_five five_inserts) as (st' & Hall & _ & Hw & _).
  - by compute_done.
  - exists st'. split; [exact Hall|exact Hw].
Defined.

End deque_operations.

(** ** The paths of the handlers *)

Section handler_paths.
Import Examples MoreExamples.

Lemma lock_check_app rule held tr1 tr2 :
  lock_check rule held (tr1 ++ tr2) =
  lock_check rule held tr1 ≫= λ held1, lock_check rule held1 tr2.
Proof.
  revert held. induction tr1 as [|e tr1 IH]; intros held; simpl; [done|].
  destruct (rule held e); [apply IH|done].
Qed.

Lemma lock_check_spec rule held tr held' :
  lock_check rule held tr = Some held' →
  foldl cs_step held tr = held' ∧
  ∀ n e, tr !! n = Some e → rule (foldl cs_step held (take n tr)) e = true.
Proof.
  revert held. induction tr as [|x tr IH]; intros held; simpl.
  - intros [= <-]. split; [done|]. intros n e. by rewrite lookup_nil.
  - destruct (rule held x) eqn:Hx; [|done]. intros [Hf Hn]%IH.
    split; [done|]. intros [|n] e; simpl.
    + by intros [= <-].
    + apply Hn.
Qed.

Lemma lock_check_bodies rule held tr :
  (∀ e, is_body e = true → rule held e = true) →
  Forall (λ e, is_body e = true) tr →
  lock_check rule held tr = Some held.
Proof.
  intros Hrule. induction 1 as [|e tr He _ IH]; simpl; [done|].
  rewrite (Hrule e He). by destruct e as [| | | | |[]| | | |].
Qed.

Lemma send_body_bodies fuel accept k payload fs total :
  Forall (λ e, is_body e = true)
    (ServerCachedNaive.send_body fuel accept k payload fs total).1.
Proof.
  revert k total. induction fuel as [|fuel IH]; intros k total; simpl; [done|].
  destruct (total <? fs); [|done].
  destruct (accept k (fs - total) <=? 0); [by repeat constructor|].
  specialize (IH (S k) (total + accept k (fs - total))).
  destruct (ServerCachedNaive.send_body _ _ _ _ _ _). simpl in *. by constructor.
Qed.

Lemma body_deque_rule e : is_body e = true → deque_rule false e = true.
Proof. by destruct e as [| | | | |[]| | | |]. Qed.

Lemma body_naive_rule held e : is_body e = true → naive_rule held e = true.
Proof. by destruct e as [| | | | |[]| | | |]. Qed.

(** What [send_existing_http_response] of [server_cached.c] returns, if
    it returns: the header lines, calls of [send] for the body, the log. *)
Lemma deque_send_existing_shape accept r sent :
  ServerCached.send_existing_http_response accept r = Some sent →
  ∃ body,
    sent = headers (filesize r) ++ body ++
           [EvLock LogMutex; EvLog (filename r) (filesize r); EvUnlock LogMutex] ∧
    Forall (λ ev, is_body ev = true) body.
Proof.
  unfold ServerCached.send_existing_http_response.
  destruct (ServerCached.send_body _ _ _ _ _ _) as [body|] eqn:Hb; [|done].
  cbn [mbind option_bind]. intros Hs. apply (inj Some) in Hs as <-.
  exists body. split; [done|]. by eapply deque_send_body_bodies.
Qed.

Lemma deque_handler_checked fuel st e tr st' :
  ServerCached.handle_client_connection fuel st e = Some (tr, st') →
  lock_check deque_rule false tr = Some false.
Proof.
  unfold ServerCached.handle_client_connection. intros Hrun.
  destruct (req e) as [name|]; [|by simplify_eq].
  destruct (Deque.search fuel st name) as [[[node|] st1]|];
    cbn [mbind option_bind] in Hrun; [| |done].
  - destruct (Deque.nodes st1 !! node) as [n|]; cbn [mbind option_bind] in Hrun; [|done].
    destruct (ServerCached.send_existing_http_response _ _) as [sent|] eqn:Hsent;
      cbn [mbind option_bind] in Hrun; [|done].
    destruct (Deque.put_down st1 node) as [st2|]; cbn [mbind option_bind] in Hrun; [|done].
    apply (inj Some), pair_equal_spec in Hrun as [<- <-].
    apply deque_send_existing_shape in Hsent as (body & -> & Hbody).
    cbn. rewrite !lock_check_app.
    rewrite (lock_check_bodies deque_rule false);
      [done|apply body_deque_rule|done].
  - destruct (file e) as [bytes|]; [|by simplify_eq].
    destruct (alloc_new e); cbn [negb] in Hrun; [|by simplify_eq].
    destruct (alloc_filename e); cbn [negb] in Hrun; [|by simplify_eq].
    destruct (alloc_response e); cbn [negb] in Hrun; [|by simplify_eq].
    destruct (ServerCached.read_send_loop _ _ _ _ _ _) as [[body sent]|] eqn:Hloop;
      cbn [mbind option_bind] in Hrun; [|done].
    destruct (Deque.enqueue _ _ _) as [st2|]; cbn [mbind option_bind] in Hrun; [|done].
    apply (inj Some), pair_equal_spec in Hrun as [<- <-].
    apply deque_read_send_loop_bodies in Hloop.
    cbn. rewrite lock_check_app.
    rewrite (lock_check_bodies deque_rule false);
      [done|apply body_deque_rule|done].
Qed.

(** X18.  The locking of [server_cached.c].  In every run of its handler
    [search], [enqueue] and [put_down] are called with the deck mutex
    held, nothing is sent to the client while it is held, the mutex is
    never taken twice nor released when not held, and it is free when the
    thread ends, on every path (hit, miss, 404, allocation failure, bad
    request). *)
Theorem X18_deque_server_locking fuel st e tr st'
    (Hrun : ServerCached.handle_client_connection fuel st e = Some (tr, st')) :
  (∀ n ev, tr !! n = Some ev → is_cache_op ev = true →
     in_critical_section (take n tr) = true) ∧
  (∀ n ev, tr !! n = Some ev → is_send ev = true →
     in_critical_section (take n tr) = false) ∧
  (∀ n, tr !! n = Some (EvLock CacheMutex) → in_critical_section (take n tr) = false) ∧
  (∀ n, tr !! n = Some (EvUnlock CacheMutex) → in_critical_section (take n tr) = true) ∧
  in_critical_section tr = false.
Proof.
  apply deque_handler_checked, lock_check_spec in Hrun as [Hend Hrule].
  unfold in_critical_section. split_and!; [| | | |done].
  - intros n ev Hn Hop. specialize (Hrule n ev Hn).
    unfold deque_rule, naive_rule in Hrule.
    destruct (foldl cs_step false (take n tr)); [done|].
    by destruct ev as [[]|[]| | | | | | | |].
  - intros n ev Hn Hop. specialize (Hrule n ev Hn).
    unfold deque_rule in Hrule. rewrite Hop in Hrule.
    destruct (foldl cs_step false (take n tr)); [|done].
    by rewrite andb_false_r in Hrule.
  - intros n Hn. specialize (Hrule n _ Hn).
    by destruct (foldl cs_step false (take n tr)).
  - intros n Hn. specialize (Hrule n _ Hn).
    by destruct (foldl cs_step false (take n tr)).
Qed.

Lemma naive_handler_checked pq e tr pq' :
  ServerCachedNaive.handle_client_connection pq e = Some (tr, pq') →
  lock_check naive_rule false tr = Some false.
Proof.
  unfold ServerCachedNaive.handle_client_connection. intros Hrun.
  destruct (req e) as [name|]; [|by simplify_eq].
  destruct (PriorityQueue.search pq name (now e)) as [[i|] pq1].
  - destruct (PriorityQueue.item pq1 i) as [r|]; cbn [mbind option_bind] in Hrun; [|done].
    apply (inj Some), pair_equal_spec in Hrun as [<- <-].
    unfold ServerCachedNaive.send_existing_http_response.
    pose proof (send_body_bodies (Z.to_nat (filesize r)) (accept e) 0
                  (response r) (filesize r) 0) as Hb.
    destruct (ServerCachedNaive.send_body _ _ _ _ _ _) as [body total]. simpl in Hb.
    cbn. rewrite !lock_check_app.
    rewrite (lock_check_bodies naive_rule true);
      [done|apply body_naive_rule|done].
  - destruct (file e) as [bytes|]; [|by simplify_eq].
    destruct (alloc_new e); cbn [negb] in Hrun; [|by simplify_eq].
    destruct (alloc_filename e); cbn [negb] in Hrun; [|by simplify_eq].
    destruct (alloc_response e); cbn [negb] in Hrun; [|by simplify_eq].
    destruct (ServerCachedNaive.read_send_loop _ _ _ _ _ _ _) as [[body sent]|] eqn:Hloop;
      cbn [mbind option_bind] in Hrun; [|done].
    apply (inj Some), pair_equal_spec in Hrun as [<- <-].
    apply naive_read_send_loop_bodies in Hloop.
    cbn. rewrite lock_check_app.
    rewrite (lock_check_bodies naive_rule false);
      [done|apply body_naive_rule|done].
Qed.

(** X19.  The locking of [server_cached_naive.c].  In every run of its
    handler [search] and [enqueue] are called with the queue mutex held,
    the mutex is never taken twice nor released when not held, and it is
    free when the thread ends, on every path. *)
Theorem X19_naive_server_locking pq e tr pq'
    (Hrun : ServerCachedNaive.handle_client_connection pq e = Some (tr, pq')) :
  (∀ n ev, tr !! n = Some ev → is_cache_op ev = true →
     in_critical_section (take n tr) = true) ∧
  (∀ n, tr !! n = Some (EvLock CacheMutex) → in_critical_section (take n tr) = false) ∧
  (∀ n, tr !! n = Some (EvUnlock CacheMutex) → in_critical_section (take n tr) = true) ∧
  in_critical_section tr = false.
Proof.
  apply naive_handler_checked, lock_check_spec in Hrun as [Hend Hrule].
  unfold in_critical_section. split_and!; [| | |done].
  - intros n ev Hn Hop. specialize (Hrule n ev Hn).
    unfold naive_rule in Hrule.
    destruct (foldl cs_step false (take n tr)); [done|].
    by destruct ev as [[]|[]| | | | | | | |].
  - intros n Hn. specialize (Hrule n _ Hn).
    by destruct (foldl cs_step false (take n tr)).
  - intros n Hn. specialize (Hrule n _ Hn).
    by destruct (foldl cs_step false (take n tr)).
Qed.

Lemma X18_witness :
  ∃ tr st', ServerCached.handle_client_connection 5 Deque.init env_miss = Some (tr, st') ∧
            in_critical_section tr = false.
Proof.
  destruct (ServerCached.handle_client_connection 5 Deque.init env_miss)
    as [[tr st']|] eqn:Hrun.
  - exists tr, st'. split; [done|].
    by apply (X18_deque_server_locking _ _ _ _ _ Hrun).
  - by vm_compute in Hrun.
Defined.

Lemma X19_witness :
  ∃ tr pq', ServerCachedNaive.handle_client_connection pq_ab env_hit_b = Some (tr, pq') ∧
            in_critical_section tr = false.
Proof.
  destruct (ServerCachedNaive.handle_client_connection pq_ab env_hit_b)
    as [[tr pq']|] eqn:Hrun.
  - exists tr, pq'. split; [done|].
    by apply (X19_naive_server_locking _ _ _ _ Hrun).
  - by vm_compute in Hrun.
Defined.

(** A hit of the deque server: the lookup, what
    [send_existing_http_response] does, and [put_down]; the deque is as
    before. *)
Lemma deque_hit_run fuel st v e name p r :
  Deque.view st v → (length v ≤ fuel)%nat → req e = Some name →
  find (Deque.name_is name) v = Some (p, r) →
  ServerCached.handle_client_connection fuel st e =
    sent ← ServerCached.send_existing_http_response (accept e) r;
    Some ([EvLock CacheMutex; EvSearch name; EvUnlock CacheMutex] ++ sent ++
          [EvLock CacheMutex; EvPutDown; EvUnlock CacheMutex; EvClose; EvExit], st).
Proof.
  intros Hv Hfuel Hreq Hfind.
  destruct (search_pin_view _ _ _ _ _ _ Hv Hfuel Hfind) as (n & Hn & Hd & Hval & Hs & _).
  unfold ServerCached.handle_client_connection. rewrite Hreq, Hs.
  cbn [mbind option_bind Deque.nodes]. rewrite lookup_insert_eq.
  cbn [mbind option_bind].
  change (Deque.data (Deque.pin n)) with (Deque.data n). rewrite Hd.
  destruct (ServerCached.send_existing_http_response _ _) as [sent|]; [|done].
  cbn [mbind option_bind]. by rewrite (pin_put_down _ _ _ Hn Hval).
Qed.

Lemma bodies_not_enqueue body :
  Forall (λ ev, is_body ev = true) body → EvEnqueue ∉ body.
Proof.
  intros Hb Hin. rewrite Forall_forall in Hb. by specialize (Hb _ Hin).
Qed.

(** Whatever the transport, a hit that returns has left the deque as it
    was, has not called [enqueue], and ended the thread. *)
Lemma deque_hit_returned fuel st v e name p r tr st' :
  Deque.view st v → (length v ≤ fuel)%nat → req e = Some name →
  find (Deque.name_is name) v = Some (p, r) →
  ServerCached.handle_client_connection fuel st e = Some (tr, st') →
  st' = st ∧ (EvEnqueue ∉ tr) ∧ last tr = Some EvExit ∧
  ∃ body,
    tr = [EvLock CacheMutex; EvSearch name; EvUnlock CacheMutex] ++
         (headers (filesize r) ++ body ++
          [EvLock LogMutex; EvLog (filename r) (filesize r); EvUnlock LogMutex]) ++
         [EvLock CacheMutex; EvPutDown; EvUnlock CacheMutex; EvClose; EvExit] ∧
    Forall (λ ev, is_body ev = true) body.
Proof.
  intros Hv Hfuel Hreq Hfind.
  rewrite (deque_hit_run _ _ _ _ _ _ _ Hv Hfuel Hreq Hfind).
  destruct (ServerCached.send_existing_http_response _ _) as [sent|] eqn:Hsent; [|done].
  cbn [mbind option_bind]. intros Hrun.
  apply (inj Some), pair_equal_spec in Hrun as [<- <-].
  apply deque_send_existing_shape in Hsent as (body & -> & Hbody).
  split; [done|]. split; [|split; [by rewrite !last_app|by exists body]].
  rewrite !elem_of_app. intros [Hin|[[Hin|[Hin|Hin]]|Hin]].
  - repeat (apply elem_of_cons in Hin as [?|Hin]; [done|]). by apply elem_of_nil in Hin.
  - unfold headers in Hin.
    repeat (apply elem_of_cons in Hin as [?|Hin]; [done|]). by apply elem_of_nil in Hin.
  - by apply (bodies_not_enqueue body).
  - repeat (apply elem_of_cons in Hin as [?|Hin]; [done|]). by apply elem_of_nil in Hin.
  - repeat (apply elem_of_cons in Hin as [?|Hin]; [done|]). by apply elem_of_nil in Hin.
Qed.

(** Over a transport that makes progress a hit returns, with the cached
    bytes sent. *)
Lemma deque_hit fuel st v e name p r :
  Deque.view st v → (length v ≤ fuel)%nat → req e = Some name →
  find (Deque.name_is name) v = Some (p, r) → transport_ok e →
  ∃ tr, ServerCached.handle_client_connection fuel st e = Some (tr, st) ∧
        body_bytes tr = take (Z.to_nat (filesize r)) (response r).
Proof.
  intros Hv Hfuel Hreq Hfind Hok.
  rewrite (deque_hit_run _ _ _ _ _ _ _ Hv Hfuel Hreq Hfind).
  destruct (deque_send_existing_ok (accept e) r Hok) as (body & -> & _ & Hbody).
  cbn [mbind option_bind]. eexists. split; [done|].
  rewrite !body_bytes_app, Hbody. cbn. by rewrite !app_nil_r.
Qed.

(** X20.  A cache hit of [server_cached.c].  Whatever the transport, a
    run that returns has left the deque exactly as it was (the reference
    [search] took is given back by [put_down]), has not called [enqueue]
    and has ended the thread.  Over a transport whose [send] calls make
    progress the run returns and has sent the first [filesize] bytes of
    the cached struct.  When the first [send] of the body fails, the loop
    ends at once ([total_sent] is -1, which is not below [filesize] as an
    [unsigned long]) and the run returns without any byte of the body. *)
Theorem X20_deque_hit_serves_cached_bytes fuel st v e name p r
    (Hv : Deque.view st v) (Hfuel : (length v ≤ fuel)%nat)
    (Hreq : req e = Some name)
    (Hfind : find (Deque.name_is name) v = Some (p, r)) :
  (∀ tr st', ServerCached.handle_client_connection fuel st e = Some (tr, st') →
     st' = st ∧ (EvEnqueue ∉ tr) ∧ last tr = Some EvExit) ∧
  (transport_ok e →
     ∃ tr, ServerCached.handle_client_connection fuel st e = Some (tr, st) ∧
           body_bytes tr = take (Z.to_nat (filesize r)) (response r)) ∧
  (0 < filesize r < 2 ^ 64 → accept e 0%nat (filesize r) = -1 →
     ∃ tr, ServerCached.handle_client_connection fuel st e = Some (tr, st) ∧
           body_bytes tr = []).
Proof.
  split; [|split].
  - intros tr st' Hrun.
    destruct (deque_hit_returned _ _ _ _ _ _ _ _ _ Hv Hfuel Hreq Hfind Hrun)
      as (? & ? & ? & _).
    done.
  - intros Hok. by eapply deque_hit.
  - intros Hfs Hfail.
    rewrite (deque_hit_run _ _ _ _ _ _ _ Hv Hfuel Hreq Hfind).
    rewrite (deque_send_existing_failed _ _ Hfs Hfail). cbn [mbind option_bind].
    eexists. split; [done|]. by rewrite !body_bytes_app.
Qed.

Lemma X20_witness :
  ∃ st tr, Deque.enqueue_all Deque.init two_inserts = Some st ∧
    ServerCached.handle_client_connection 5 st env_hit_b = Some (tr, st) ∧
    body_bytes tr = response page_b.
Proof.
  destruct two_inserts_view as (st & Hst & Hv).
  destruct (X20_deque_hit_serves_cached_bytes 5 st _ env_hit_b "b" 11%nat page_b Hv)
    as (_ & Hsent & _); [simpl; lia|reflexivity|reflexivity|].
  destruct Hsent as (tr & Hrun & Hbody).
  - intros k len Hlen. simpl. lia.
  - by exists st, tr.
Defined.



(** X22.  A request for a name that is neither cached nor a file that
    can be opened gets the 404 line and nothing else, and leaves the cache
    of either server exactly as it was. *)
Theorem X22_not_found_leaves_cache fuel st v pq e name
    (Hv : Deque.view st v) (Hfuel : (length v ≤ fuel)%nat)
    (Hreq : req e = Some name) (Hfile : file e = None)
    (Hmiss_deque : find (Deque.name_is name) v = None)
    (Hmiss_pq : ∀ r, r ∈ PriorityQueue.entries pq → filename r ≠ name) :
  let tr := [EvLock CacheMutex; EvSearch name; EvUnlock CacheMutex;
             EvSend StatusNotFound; EvShutdown; EvClose; EvExit] in
  ServerCached.handle_client_connection fuel st e = Some (tr, st) ∧
  ServerCachedNaive.handle_client_connection pq e = Some (tr, pq).
Proof.
  assert (Deque.search fuel st name = Some (None, st)) as Hsd.
  { rewrite (DequeFacts.search_view st v fuel name Hv Hfuel). by rewrite Hmiss_deque. }
  assert (PriorityQueue.search pq name (now e) = (None, pq)) as Hsp
    by by apply PQFacts.search_loop_miss.
  split.
  - unfold ServerCached.handle_client_connection.
    rewrite Hreq, Hsd. cbn [mbind option_bind]. by rewrite Hfile.
  - unfold ServerCachedNaive.handle_client_connection.
    by rewrite Hreq, Hsp, Hfile.
Qed.

Lemma X22_witness :
  ServerCachedNaive.handle_client_connection pq_ab env_absent =
    Some ([EvLock CacheMutex; EvSearch "nothing.html"; EvUnlock CacheMutex;
           EvSend StatusNotFound; EvShutdown; EvClose; EvExit], pq_ab).
Proof.
  destruct two_inserts_view as (st & _ & Hv).
  apply (X22_not_found_leaves_cache 5 st _ pq_ab env_absent "nothing.html" Hv);
    [simpl; lia|reflexivity|reflexivity|reflexivity|].
  intros r Hr. assert (PriorityQueue.entries pq_ab = [page_b; page_a]) as Heq by reflexivity.
  rewrite Heq in Hr. set_unfold. by destruct Hr as [->|[->|[]]].
Defined.



Lemma send_body_prefix fuel accept k payload total :
  (∀ k len, 0 < len → accept k len ≤ len) →
  0 ≤ total ≤ Z.of_nat (length payload) →
  let res := ServerCachedNaive.send_body fuel accept k payload
               (Z.of_nat (length payload)) total in
  total ≤ res.2 ≤ Z.of_nat (length payload) ∧
  body_bytes res.1 = take (Z.to_nat (res.2 - total)) (drop (Z.to_nat total) payload).
Proof.
  intros Hacc. revert k total. induction fuel as [|fuel IH]; intros k total Htotal.
  - simpl. split; [lia|]. by rewrite Z.sub_diag.
  - cbn [ServerCachedNaive.send_body].
    destruct (total <? Z.of_nat (length payload)) eqn:Hlt.
    + apply Z.ltb_lt in Hlt.
      pose proof (Hacc k (Z.of_nat (length payload) - total) ltac:(lia)) as Hk.
      destruct (accept k (Z.of_nat (length payload) - total) <=? 0) eqn:Hfail.
      * apply Z.leb_le in Hfail. simpl. split; [lia|].
        rewrite Z.sub_diag. simpl.
        replace (Z.to_nat (accept k (Z.of_nat (length payload) - total))) with O by lia.
        done.
      * apply Z.leb_gt in Hfail.
        specialize (IH (S k) (total + accept k (Z.of_nat (length payload) - total))
                      ltac:(lia)).
        destruct (ServerCachedNaive.send_body _ _ _ _ _ _) as [evs t].
        simpl in *. destruct IH as [Ht IH]. split; [lia|].
        change (body_bytes (EvSend (Body ?b) :: evs)) with (b ++ body_bytes evs).
        rewrite IH.
        set (a := accept k (Z.of_nat (length payload) - total)) in *.
        replace (Z.to_nat (total + a)) with (Z.to_nat total + Z.to_nat a)%nat by lia.
        rewrite <- drop_drop, take_take_drop. f_equal. lia.
    + simpl. split; [lia|]. by rewrite Z.sub_diag.
Qed.

(** X24.  The transmission of a cached struct by [server_cached_naive.c]
    under any transport, also one whose [send] takes only part of the
    bytes or fails: what reaches the client is a prefix of the cached
    payload, and the number written to the log is the length of that
    prefix. *)
Theorem X24_naive_send_existing_prefix accept r
    (Haccept : ∀ k len, 0 < len → accept k len ≤ len)
    (Hsize : filesize r = Z.of_nat (length (response r))) :
  ∃ body total_sent,
    ServerCachedNaive.send_existing_http_response accept r =
      headers (filesize r) ++ body ++
      [EvLock LogMutex; EvLog (filename r) total_sent; EvUnlock LogMutex] ∧
    0 ≤ total_sent ≤ filesize r ∧
    body_bytes body = take (Z.to_nat total_sent) (response r) ∧
    body_bytes (ServerCachedNaive.send_existing_http_response accept r) = body_bytes body.
Proof.
  unfold ServerCachedNaive.send_existing_http_response. rewrite Hsize.
  pose proof (send_body_prefix (Z.to_nat (Z.of_nat (length (response r)))) accept 0
                (response r) 0 Haccept ltac:(lia)) as [Ht Hb].
  destruct (ServerCachedNaive.send_body _ _ _ _ _ _) as [body total].
  cbn [fst snd] in *.
  exists body, total. split; [done|]. split; [done|].
  rewrite Z.sub_0_r in Hb. split; [done|].
  rewrite !body_bytes_app. cbn. by rewrite app_nil_r.
Qed.

Lemma X24_witness :
  ∃ body total_sent,
    ServerCachedNaive.send_existing_http_response accept_one_then_fail page_b =
      headers 2 ++ body ++ [EvLock LogMutex; EvLog "b" total_sent; EvUnlock LogMutex] ∧
    0 ≤ total_sent ≤ 2 ∧
    body_bytes body = take (Z.to_nat total_sent) [Byte.x62; Byte.x21] ∧
    body_bytes (ServerCachedNaive.send_existing_http_response accept_one_then_fail page_b)
      = body_bytes body.
Proof.
  apply (X24_naive_send_existing_prefix accept_one_then_fail page_b).
  - intros [|k] len Hlen; simpl; lia.
  - reflexivity.
Defined.

End handler_paths.

(** ** The servers without a cache *)

Section uncached.
Import Examples MoreExamples.

Lemma resend_all fuel accept k chunk sent :
  (∀ k len, 0 < len → 0 < accept k len ≤ len) →
  0 ≤ sent ≤ Z.of_nat (length chunk) →
  (Z.to_nat (Z.of_nat (length chunk) - sent) ≤ fuel)%nat →
  ∃ evs k',
    ServerUncached.resend fuel accept k chunk sent
      = Some (evs, k', Z.of_nat (length chunk)) ∧
    body_bytes evs = drop (Z.to_nat sent) chunk.
Proof.
  intros Hacc. revert k sent. induction fuel as [|fuel IH]; intros k sent Hsent Hfuel.
  - assert (sent = Z.of_nat (length chunk)) as -> by lia.
    simpl. rewrite Z.ltb_irrefl. eexists _, _. split; [done|].
    rewrite Nat2Z.id, drop_all. done.
  - cbn [ServerUncached.resend].
    destruct (sent <? Z.of_nat (length chunk)) eqn:Hlt.
    + apply Z.ltb_lt in Hlt.
      destruct (sent <? 0) eqn:Hneg; [apply Z.ltb_lt in Hneg; lia|].
      pose proof (Hacc k (Z.of_nat (length chunk) - sent) ltac:(lia)) as Hk.
      set (n := accept k (Z.of_nat (length chunk) - sent)) in *.
      destruct (IH (S k) (sent + n)) as (evs & k' & -> & Hb); [lia|lia|].
      cbn [mbind option_bind]. eexists _, _. split; [done|].
      rewrite body_bytes_cons, Hb.
      replace (Z.to_nat (sent + n)) with (Z.to_nat sent + Z.to_nat n)%nat by lia.
      by rewrite <- drop_drop, take_drop.
    + apply Z.ltb_ge in Hlt. assert (sent = Z.of_nat (length chunk)) as -> by lia.
      eexists _, _. split; [done|]. rewrite Nat2Z.id, drop_all. done.
Qed.

Lemma send_chunk_all fuel accept k chunk :
  (∀ k len, 0 < len → 0 < accept k len ≤ len) →
  chunk ≠ [] → (length chunk ≤ fuel)%nat →
  ∃ evs k',
    ServerUncached.send_chunk fuel accept k chunk
      = Some (evs, k', Z.of_nat (length chunk)) ∧
    body_bytes evs = chunk.
Proof.
  intros Hacc Hne Hfuel. unfold ServerUncached.send_chunk.
  assert (0 < Z.of_nat (length chunk)) as Hpos by (destruct chunk; [done|simpl; lia]).
  pose proof (Hacc k _ Hpos) as Hk.
  set (n := accept k (Z.of_nat (length chunk))) in *.
  destruct (resend_all fuel accept (S k) chunk n Hacc) as (evs & k' & -> & Hb); [lia|lia|].
  cbn [mbind option_bind]. eexists _, _. split; [done|].
  by rewrite body_bytes_cons, Hb, take_drop.
Qed.

Lemma uncached_read_send_loop fuel accept k rest size :
  (∀ k len, 0 < len → 0 < accept k len ≤ len) →
  INT_MIN ≤ size → size + Z.of_nat (length rest) ≤ INT_MAX →
  (length rest < fuel)%nat →
  ∃ evs,
    ServerUncached.read_send_loop fuel accept k rest size
      = Some (evs, size + Z.of_nat (length rest)) ∧
    body_bytes evs = rest.
Proof.
  intros Hacc. revert k rest size.
  induction fuel as [|fuel IH]; intros k rest size Hmin Hmax Hfuel; [lia|].
  cbn [ServerUncached.read_send_loop].
  destruct (take CHUNK rest) as [|x chunk] eqn:Hc.
  - assert (rest = []) as -> by (by destruct rest).
    exists []. split; [|done]. simpl. do 2 f_equal. lia.
  - assert (length (x :: chunk) ≤ CHUNK)%nat as Hlen
      by (rewrite <- Hc, length_take; lia).
    destruct (send_chunk_all CHUNK accept k (x :: chunk) Hacc) as (evs & k' & -> & Hb);
      [done|done|].
    cbn [mbind option_bind].
    assert (length rest = length (x :: chunk) + length (drop CHUNK rest))%nat as Hsplit.
    { rewrite <- Hc, <- length_app, take_drop. done. }
    assert ((INT_MIN <=? size + Z.of_nat (length (x :: chunk))) &&
            (size + Z.of_nat (length (x :: chunk)) <=? INT_MAX) = true) as ->.
    { apply andb_true_iff. split; [apply Z.leb_le|apply Z.leb_le]; lia. }
    destruct (length (x :: chunk) =? CHUNK)%nat eqn:Hfull.
    + destruct (IH k' (drop CHUNK rest) (size + Z.of_nat (length (x :: chunk))))
        as (evs' & -> & Hb'); [lia|lia| |].
      { apply Nat.eqb_eq in Hfull.
        assert (0 < CHUNK)%nat as Hpos by apply Nat.lt_0_succ.
        revert Hfuel Hsplit Hfull Hpos.
        generalize (length (drop CHUNK rest)) (length (x :: chunk)) (length rest) CHUNK.
        intros; lia. }
      cbn [mbind option_bind]. eexists. split.
      * do 2 f_equal. lia.
      * by rewrite body_bytes_app, Hb, Hb', <- Hc, take_drop.
    + apply Nat.eqb_neq in Hfull.
      assert (drop CHUNK rest = []) as Hd.
      { apply drop_ge. rewrite <- Hc, length_take in Hfull. lia. }
      eexists. split.
      * do 2 f_equal. rewrite Hd in Hsplit. cbn [length] in Hsplit |- *. lia.
      * rewrite Hb, <- Hc. apply take_ge. rewrite <- Hc, length_take in Hfull. lia.
Qed.

Lemma resend_bodies fuel accept k chunk sent evs k' sent' :
  ServerUncached.resend fuel accept k chunk sent = Some (evs, k', sent') →
  Forall (λ ev, is_body ev = true) evs.
Proof.
  revert k sent evs k' sent'.
  induction fuel as [|fuel IH]; intros k sent evs k' sent';
    cbn [ServerUncached.resend];
    (destruct (sent <? _); [|by intros [= <- _ _]]); [done|].
  destruct (sent <? 0); [done|].
  destruct (ServerUncached.resend fuel _ _ _ _) as [[[evs0 k0] s0]|] eqn:Hr; [|done].
  cbn [mbind option_bind]. intros [= <- _ _]. constructor; [done|]. by eapply IH.
Qed.

Lemma uncached_read_send_loop_bodies fuel accept k rest size evs size' :
  ServerUncached.read_send_loop fuel accept k rest size = Some (evs, size') →
  Forall (λ ev, is_body ev = true) evs.
Proof.
  revert k rest size evs size'.
  induction fuel as [|fuel IH]; intros k rest size evs size'; [done|].
  cbn [ServerUncached.read_send_loop].
  destruct (take CHUNK rest) as [|x chunk]; [by intros [= <- _]|].
  unfold ServerUncached.send_chunk.
  destruct (ServerUncached.resend CHUNK _ _ _ _) as [[[evs0 k0] s0]|] eqn:Hr; [|done].
  cbn [mbind option_bind]. apply resend_bodies in Hr.
  destruct (_ && _); [|done].
  destruct (_ =? _)%nat.
  - destruct (ServerUncached.read_send_loop fuel _ _ _ _) as [[evs1 s1]|] eqn:Hl; [|done].
    cbn [mbind option_bind]. intros [= <- _]. apply IH in Hl.
    rewrite app_comm_cons. apply Forall_app. split; [by constructor|done].
  - intros [= <- _]. by constructor.
Qed.

(** X25.  The transmission loop of the servers without a cache
    ([server_thread.c], [server_proc.c]).  Over any transport whose
    [send] takes at least one and at most all of the bytes offered, and
    with a log counter that stays within [int] (it starts at [size] and
    ends at [size] plus the length of the file), the loop ends, the
    client has received exactly the bytes of the file, in order, and the
    counter has grown by the length of the file. *)
Theorem X25_uncached_loop_delivers_file accept k bytes size
    (Haccept : ∀ k len, 0 < len → 0 < accept k len ≤ len)
    (Hsize : INT_MIN ≤ size)
    (Hroom : size + Z.of_nat (length bytes) ≤ INT_MAX) :
  ∃ evs,
    ServerUncached.read_send_loop (S (length bytes)) accept k bytes size
      = Some (evs, size + Z.of_nat (length bytes)) ∧
    INT_MIN ≤ size + Z.of_nat (length bytes) ≤ INT_MAX ∧
    body_bytes evs = bytes ∧
    Forall (λ ev, is_body ev = true) evs.
Proof.
  destruct (uncached_read_send_loop (S (length bytes)) accept k bytes size Haccept)
    as (evs & Hrun & Hb); [done|done|lia|].
  exists evs. split; [done|]. split; [lia|]. split; [done|].
  by eapply uncached_read_send_loop_bodies.
Qed.

Lemma X25_witness :
  ∃ evs, ServerUncached.read_send_loop 3 accept_one 0 [Byte.x68; Byte.x69] 0
           = Some (evs, 2) ∧
         body_bytes evs = [Byte.x68; Byte.x69].
Proof.
  destruct (X25_uncached_loop_delivers_file accept_one 0 [Byte.x68; Byte.x69] 0)
    as (evs & Hrun & _ & Hb & _).
  - intros k len Hlen. unfold accept_one. lia.
  - by vm_compute.
  - by vm_compute.
  - by exists evs.
Defined.

End uncached.

(** ** Concurrent hits of the deque server *)

Section concurrent_hits.
Import Examples.

Lemma thread_segment t tr held held' :
  lock_check naive_rule held tr = Some held' →
  mutex_ok_from (if held then Some t else None) (pair t <$> tr) ∧
  foldl holder_step (if held then Some t else None) (pair t <$> tr)
    = (if held' then Some t else None).
Proof.
  revert held. induction tr as [|e tr IH]; intros held; simpl.
  - by intros [= <-].
  - destruct (naive_rule held e) eqn:Hrule; [|done]. intros Hrest.
    destruct (IH _ Hrest) as [Hok Hfold].
    destruct e as [[]|[]| | | | | | | |]; simpl in *;
      try (by destruct held);
      destruct held; simpl in *; try done.
Qed.

Lemma thread_trace_own t (tr : list event) : thread_trace t (pair t <$> tr) = tr.
Proof.
  unfold thread_trace. induction tr as [|e tr IH]; [done|]. simpl.
  rewrite filter_cons_True by done. simpl. by f_equal.
Qed.

Lemma thread_trace_other t t' (tr : list event) :
  t ≠ t' → thread_trace t (pair t' <$> tr) = [].
Proof.
  intros Hne. unfold thread_trace. induction tr as [|e tr IH]; [done|]. simpl.
  rewrite filter_cons_False; [done|]. simpl. congruence.
Qed.

Lemma interleave_hits_mutex_ok tra trb :
  lock_check naive_rule false (take 4 tra) = Some false →
  lock_check naive_rule false (drop 4 tra) = Some false →
  lock_check naive_rule false (take 4 trb) = Some false →
  lock_check naive_rule false (drop 4 trb) = Some false →
  mutex_ok (interleave_hits tra trb).
Proof.
  intros [H1 F1]%(thread_segment 1%nat) [H2 F2]%(thread_segment 1%nat)
         [H3 F3]%(thread_segment 2%nat) [H4 F4]%(thread_segment 2%nat).
  unfold mutex_ok, interleave_hits.
  apply mutex_ok_from_app. split; [done|]. rewrite F1.
  apply mutex_ok_from_app. split; [done|]. rewrite F3.
  apply mutex_ok_from_app. split; [done|]. by rewrite F2.
Qed.

Lemma interleave_hits_overlap fuel st v ea eb na nb pa pb ra rb tra trb sta stb :
  Deque.view st v → (length v ≤ fuel)%nat →
  req ea = Some na → req eb = Some nb →
  find (Deque.name_is na) v = Some (pa, ra) →
  find (Deque.name_is nb) v = Some (pb, rb) →
  ServerCached.handle_client_connection fuel st ea = Some (tra, sta) →
  ServerCached.handle_client_connection fuel st eb = Some (trb, stb) →
  sta = st ∧ stb = st ∧
  thread_trace 1 (interleave_hits tra trb) = tra ∧
  thread_trace 2 (interleave_hits tra trb) = trb ∧
  mutex_ok (interleave_hits tra trb) ∧
  sends_overlap (interleave_hits tra trb) 1 2.
Proof.
  intros Hv Hfuel Hreqa Hreqb Hfa Hfb Hruna Hrunb.
  destruct (deque_hit_returned _ _ _ _ _ _ _ _ _ Hv Hfuel Hreqa Hfa Hruna)
    as (-> & _ & _ & bodya & -> & Hba).
  destruct (deque_hit_returned _ _ _ _ _ _ _ _ _ Hv Hfuel Hreqb Hfb Hrunb)
    as (-> & _ & _ & bodyb & -> & Hbb).
  split; [done|]. split; [done|].
  unfold interleave_hits.
  split; [|split; [|split]].
  - rewrite !thread_trace_app, !thread_trace_own.
    rewrite !thread_trace_other by done. simpl. by rewrite app_nil_r.
  - rewrite !thread_trace_app, !thread_trace_own.
    rewrite !thread_trace_other by done. done.
  - apply interleave_hits_mutex_ok; unfold headers; cbn;
      try done;
      rewrite !lock_check_app;
      (rewrite (lock_check_bodies naive_rule false);
        [done|apply body_naive_rule|done]).
  - exists 3%nat, 7%nat, 8%nat. eexists _, _, _.
    split; [lia|]. unfold headers. split_and!; reflexivity.
Qed.

(** X26.  The locking of [server_cached.c] lets two hits transmit at the
    same time.  For the handler runs of any two requests that hit the
    cache, whatever the transport, the interleaving [interleave_hits] of
    the two traces is one in which the mutex is never taken while held
    and in which one thread sends between two sends of the other; and
    over transports whose [send] calls make progress both runs return,
    so that such a pair of runs exists. *)
Theorem X26_deque_hits_may_overlap fuel st v ea eb na nb pa pb ra rb
    (Hv : Deque.view st v) (Hfuel : (length v ≤ fuel)%nat)
    (Hreqa : req ea = Some na) (Hreqb : req eb = Some nb)
    (Hfa : find (Deque.name_is na) v = Some (pa, ra))
    (Hfb : find (Deque.name_is nb) v = Some (pb, rb)) :
  (∀ tra trb sta stb,
     ServerCached.handle_client_connection fuel st ea = Some (tra, sta) →
     ServerCached.handle_client_connection fuel st eb = Some (trb, stb) →
     sta = st ∧ stb = st ∧
     thread_trace 1 (interleave_hits tra trb) = tra ∧
     thread_trace 2 (interleave_hits tra trb) = trb ∧
     mutex_ok (interleave_hits tra trb) ∧
     sends_overlap (interleave_hits tra trb) 1 2) ∧
  (transport_ok ea → transport_ok eb →
   ∃ tra trb,
     ServerCached.handle_client_connection fuel st ea = Some (tra, st) ∧
     ServerCached.handle_client_connection fuel st eb = Some (trb, st) ∧
     thread_trace 1 (interleave_hits tra trb) = tra ∧
     thread_trace 2 (interleave_hits tra trb) = trb ∧
     mutex_ok (interleave_hits tra trb) ∧
     sends_overlap (interleave_hits tra trb) 1 2).
Proof.
  split.
  - intros tra trb sta stb Hruna Hrunb.
    by eapply (interleave_hits_overlap fuel st v ea eb).
  - intros Hoka Hokb.
    destruct (deque_hit _ _ _ _ _ _ _ Hv Hfuel Hreqa Hfa Hoka) as (tra & Hruna & _).
    destruct (deque_hit _ _ _ _ _ _ _ Hv Hfuel Hreqb Hfb Hokb) as (trb & Hrunb & _).
    exists tra, trb. split; [done|]. split; [done|].
    by destruct (interleave_hits_overlap fuel st v ea eb _ _ _ _ _ _ _ _ _ _
                   Hv Hfuel Hreqa Hreqb Hfa Hfb Hruna Hrunb) as (_ & _ & ?).
Qed.

Lemma X26_witness :
  ∃ st tra trb,
    Deque.enqueue_all Deque.init two_inserts = Some st ∧
    ServerCached.handle_client_connection 5 st env_hit_b = Some (tra, st) ∧
    ServerCached.handle_client_connection 5 st env_hit_b = Some (trb, st) ∧
    mutex_ok (interleave_hits tra trb) ∧
    sends_overlap (interleave_hits tra trb) 1 2.
Proof.
  destruct two_inserts_view as (st & Hst & Hv).
  assert (transport_ok env_hit_b) as Hok by (intros k len Hlen; simpl; lia).
  destruct (X26_deque_hits_may_overlap 5 st _ env_hit_b env_hit_b "b" "b"
              11%nat 11%nat page_b page_b Hv)
    as [_ Hex]; [simpl; lia|reflexivity|reflexivity|reflexivity|reflexivity|].
  destruct (Hex Hok Hok) as (tra & trb & Ha & Hb & _ & _ & Hmutex & Hov).
  by exists st, tra, trb.
Defined.

End concurrent_hits.
